(** * S3-Server: placement ring, replication, node store, multipart, erasure coding

    A shallow embedding of the storage core of the S3-compatible object
    server (packages [miniobject] and [cmd/s3_server]) together with the
    properties its specification states about it.

    Go [string] and [[]byte] values are byte sequences; they are modelled as
    [string] (a list of 8-bit characters) and [list byte].  Go [int]/[int64]
    values are modelled as [Z]; the 32-bit words of MD5 and of the ring are
    [Z] with the wrap-around written out. *)

From Stdlib Require Import ZArith Lia List Bool.
From Stdlib.Strings Require Import Ascii String Byte.
From Stdlib Require Import DecimalString DecimalZ.
From Stdlib Require Import Sorting.Sorted Sorting.Permutation.
From stdpp Require Import base option list gmap strings fin_maps sorting.

Local Open Scope Z_scope.

(** ** Bytes, hexadecimal and base64 (Go: [encoding/hex], [encoding/base64]) *)

Module Bytes.

Definition to_Z (b : byte) : Z := Z.of_N (Byte.to_N b).

Definition of_Z (z : Z) : byte :=
  match Byte.of_N (Z.to_N (z mod 256)) with
  | Some b => b
  | None => x00
  end.

Definition of_string (s : string) : list byte := list_byte_of_string s.
Definition to_string (l : list byte) : string := string_of_list_byte l.

(** Little-endian and big-endian 32-bit words. *)
Definition le32 (b0 b1 b2 b3 : byte) : Z :=
  to_Z b0 + to_Z b1 * 256 + to_Z b2 * 65536 + to_Z b3 * 16777216.

Definition be32 (b0 b1 b2 b3 : byte) : Z := le32 b3 b2 b1 b0.

Definition le_bytes (n : nat) (z : Z) : list byte :=
  map (fun i => of_Z (Z.shiftr z (8 * Z.of_nat i))) (seq 0 n).

End Bytes.

Module Hex.

Definition digit (z : Z) : ascii :=
  if z <? 10 then ascii_of_nat (Z.to_nat (48 + z))
  else ascii_of_nat (Z.to_nat (87 + z)).

(** [hex.EncodeToString]: two lowercase digits per byte. *)
Fixpoint EncodeToString (l : list byte) : string :=
  match l with
  | [] => EmptyString
  | b :: l' =>
      String (digit (Bytes.to_Z b / 16))
        (String (digit (Bytes.to_Z b mod 16)) (EncodeToString l'))
  end.

End Hex.

Module Base64.

Definition alphabet : string :=
  "ABCDEFGHIJKLMNOPQRSTUVWXYZabcdefghijklmnopqrstuvwxyz0123456789+/".

Definition enc (z : Z) : ascii :=
  match String.get (Z.to_nat (z mod 64)) alphabet with
  | Some c => c
  | None => "="%char
  end.

(** [base64.StdEncoding.EncodeToString]: 3 bytes to 4 characters, padded
    with [=]. *)
Fixpoint EncodeToString (l : list byte) : string :=
  match l with
  | [] => EmptyString
  | [a] =>
      let v := Bytes.to_Z a * 65536 in
      String (enc (v / 262144)) (String (enc (v / 4096)) "==")
  | [a; b] =>
      let v := Bytes.to_Z a * 65536 + Bytes.to_Z b * 256 in
      String (enc (v / 262144)) (String (enc (v / 4096))
        (String (enc (v / 64)) "="))
  | a :: b :: c :: l' =>
      let v := Bytes.to_Z a * 65536 + Bytes.to_Z b * 256 + Bytes.to_Z c in
      String (enc (v / 262144)) (String (enc (v / 4096))
        (String (enc (v / 64)) (String (enc v) (EncodeToString l'))))
  end.

End Base64.

(** ** MD5 (Go: [crypto/md5]), RFC 1321 *)

Module MD5.

Definition w32 (z : Z) : Z := z mod 4294967296.

Definition rotl (x : Z) (c : Z) : Z :=
  w32 (Z.lor (Z.shiftl x c) (Z.shiftr x (32 - c))).

Definition shifts : list Z :=
  [7; 12; 17; 22; 7; 12; 17; 22; 7; 12; 17; 22; 7; 12; 17; 22;
   5; 9; 14; 20; 5; 9; 14; 20; 5; 9; 14; 20; 5; 9; 14; 20;
   4; 11; 16; 23; 4; 11; 16; 23; 4; 11; 16; 23; 4; 11; 16; 23;
   6; 10; 15; 21; 6; 10; 15; 21; 6; 10; 15; 21; 6; 10; 15; 21].

Definition K : list Z :=
  [0xd76aa478; 0xe8c7b756; 0x242070db; 0xc1bdceee;
   0xf57c0faf; 0x4787c62a; 0xa8304613; 0xfd469501;
   0x698098d8; 0x8b44f7af; 0xffff5bb1; 0x895cd7be;
   0x6b901122; 0xfd987193; 0xa679438e; 0x49b40821;
   0xf61e2562; 0xc040b340; 0x265e5a51; 0xe9b6c7aa;
   0xd62f105d; 0x02441453; 0xd8a1e681; 0xe7d3fbc8;
   0x21e1cde6; 0xc33707d6; 0xf4d50d87; 0x455a14ed;
   0xa9e3e905; 0xfcefa3f8; 0x676f02d9; 0x8d2a4c8a;
   0xfffa3942; 0x8771f681; 0x6d9d6122; 0xfde5380c;
   0xa4beea44; 0x4bdecfa9; 0xf6bb4b60; 0xbebfbc70;
   0x289b7ec6; 0xeaa127fa; 0xd4ef3085; 0x04881d05;
   0xd9d4d039; 0xe6db99e5; 0x1fa27cf8; 0xc4ac5665;
   0xf4292244; 0x432aff97; 0xab9423a7; 0xfc93a039;
   0x655b59c3; 0x8f0ccc92; 0xffeff47d; 0x85845dd1;
   0x6fa87e4f; 0xfe2ce6e0; 0xa3014314; 0x4e0811a1;
   0xf7537e82; 0xbd3af235; 0x2ad7d2bb; 0xeb86d391].

Record digest := Digest { dA : Z; dB : Z; dC : Z; dD : Z }.

Definition init : digest :=
  Digest 0x67452301 0xefcdab89 0x98badcfe 0x10325476.

(** The message is padded with [0x80], zeros up to 56 mod 64, and the bit
    length as a 64-bit little-endian integer. *)
Definition pad (msg : list byte) : list byte :=
  let len := Z.of_nat (length msg) in
  let zeros := Z.to_nat ((55 - len) mod 64) in
  msg ++ x80 :: repeat x00 zeros ++ Bytes.le_bytes 8 (8 * len).

Fixpoint words (n : nat) (l : list byte) : list Z :=
  match n, l with
  | S n', b0 :: b1 :: b2 :: b3 :: l' => Bytes.le32 b0 b1 b2 b3 :: words n' l'
  | _, _ => []
  end.

Definition round (M : list Z) (st : digest) (i : nat) : digest :=
  let '(Digest a b c d) := st in
  let zi := Z.of_nat i in
  let '(f, g) :=
    if zi <? 16 then (Z.lor (Z.land b c) (Z.land (Z.lxor b 0xffffffff) d), zi)
    else if zi <? 32 then
      (Z.lor (Z.land d b) (Z.land (Z.lxor d 0xffffffff) c), (5 * zi + 1) mod 16)
    else if zi <? 48 then (Z.lxor (Z.lxor b c) d, (3 * zi + 5) mod 16)
    else (Z.lxor c (Z.lor b (Z.lxor d 0xffffffff)), (7 * zi) mod 16) in
  let f' := w32 (f + a + nth i K 0 + nth (Z.to_nat g) M 0) in
  Digest d (w32 (b + rotl f' (nth i shifts 0))) b c.

Definition block (st : digest) (chunk : list byte) : digest :=
  let M := words 16 chunk in
  let '(Digest a b c d) := fold_left (round M) (seq 0 64) st in
  Digest (w32 (dA st + a)) (w32 (dB st + b)) (w32 (dC st + c)) (w32 (dD st + d)).

Fixpoint blocks (n : nat) (st : digest) (l : list byte) : digest :=
  match n with
  | O => st
  | S n' => blocks n' (block st (firstn 64 l)) (skipn 64 l)
  end.

(** [md5.Sum]: the 16-byte digest. *)
Definition Sum (msg : list byte) : list byte :=
  let p := pad msg in
  let '(Digest a b c d) := blocks (length p / 64) init p in
  Bytes.le_bytes 4 a ++ Bytes.le_bytes 4 b ++
  Bytes.le_bytes 4 c ++ Bytes.le_bytes 4 d.

Definition hexsum (msg : list byte) : string := Hex.EncodeToString (Sum msg).

End MD5.

Arguments MD5.Sum : simpl never.
Arguments MD5.hexsum : simpl never.

(** ** Placement ring ([miniobject/hashring.go]) *)

Module HashRing.

Definition virtualNodes : nat := 150.

Record t := Build {
  nodes : list string;
  ring : list Z;
  nodeMap : gmap Z string;
  replicas : Z
}.

(** Go's [string(rune(index))]: the UTF-8 encoding of the code point, with
    U+FFFD for surrogates and values outside the Unicode range. *)
Definition rune_string (r : Z) : list byte :=
  if (r <? 0) || (0x10FFFF <? r) || ((0xD800 <=? r) && (r <=? 0xDFFF)) then
    [xef; xbf; xbd]
  else if r <? 0x80 then [Bytes.of_Z r]
  else if r <? 0x800 then
    [Bytes.of_Z (Z.lor 0xC0 (Z.shiftr r 6));
     Bytes.of_Z (Z.lor 0x80 (Z.land r 0x3F))]
  else if r <? 0x10000 then
    [Bytes.of_Z (Z.lor 0xE0 (Z.shiftr r 12));
     Bytes.of_Z (Z.lor 0x80 (Z.land (Z.shiftr r 6) 0x3F));
     Bytes.of_Z (Z.lor 0x80 (Z.land r 0x3F))]
  else
    [Bytes.of_Z (Z.lor 0xF0 (Z.shiftr r 18));
     Bytes.of_Z (Z.lor 0x80 (Z.land (Z.shiftr r 12) 0x3F));
     Bytes.of_Z (Z.lor 0x80 (Z.land (Z.shiftr r 6) 0x3F));
     Bytes.of_Z (Z.lor 0x80 (Z.land r 0x3F))].

(** [hashKey]: the first four bytes of [md5(key + string(rune(index)))],
    big-endian. *)
Definition hashKey (key : string) (index : nat) : Z :=
  match MD5.Sum (Bytes.of_string key ++ rune_string (Z.of_nat index)) with
  | b0 :: b1 :: b2 :: b3 :: _ => Bytes.be32 b0 b1 b2 b3
  | _ => 0
  end.

(** [sort.Slice] with [<] on [uint32]: equal points are indistinguishable,
    so any sorting algorithm yields the same slice; insertion sort here. *)
Fixpoint insert_sorted (x : Z) (l : list Z) : list Z :=
  match l with
  | [] => [x]
  | y :: l' => if x <=? y then x :: l else y :: insert_sorted x l'
  end.

Definition sort_points (l : list Z) : list Z := fold_right insert_sorted [] l.

(** The two nested loops of [rebuild]: points are appended to the ring and
    the owner of a point is overwritten by the latest node hashing to it. *)
Definition add_point (node : string) (acc : list Z * gmap Z string) (i : nat)
  : list Z * gmap Z string :=
  let h := hashKey node i in
  (acc.1 ++ [h], <[h := node]> acc.2).

Definition add_node (acc : list Z * gmap Z string) (node : string)
  : list Z * gmap Z string :=
  fold_left (add_point node) (seq 0 virtualNodes) acc.

Definition rebuild (hr : t) : t :=
  let '(pts, owner) := fold_left add_node (nodes hr) ([], ∅) in
  Build (nodes hr) (sort_points pts) owner (replicas hr).

Definition NewHashRing (nds : list string) (reps : Z) : t :=
  rebuild (Build nds [] ∅ reps).

(** [sort.Search]: the binary search of the Go library, the loop bounded by
    the length of the interval. *)
Fixpoint search_loop (fuel : nat) (f : nat -> bool) (i j : nat) : nat :=
  match fuel with
  | O => i
  | S fuel' =>
      if (i <? j)%nat then
        let h := ((i + j) / 2)%nat in
        if negb (f h) then search_loop fuel' f (h + 1)%nat j
        else search_loop fuel' f i h
      else i
  end.

Definition Search (n : nat) (f : nat -> bool) : nat := search_loop n f 0%nat n.

Definition owner_at (hr : t) (ringIdx : nat) : string :=
  default EmptyString (nodeMap hr !! nth ringIdx (ring hr) 0).

(** The collecting loop of [GetNodes]; [steps] is the number of ring
    positions left to visit. *)
Fixpoint walk (hr : t) (idx n steps i : nat) (seen : gset string)
    (result : list string) : list string :=
  match steps with
  | O => result
  | S steps' =>
      if (length result <? n)%nat then
        let node := owner_at hr ((idx + i) mod length (ring hr))%nat in
        if decide (node ∈ seen) then walk hr idx n steps' (S i) seen result
        else walk hr idx n steps' (S i) ({[node]} ∪ seen) (result ++ [node])
      else result
  end.

Definition start_index (hr : t) (key : string) : nat :=
  let hash := hashKey key 0 in
  let idx := Search (length (ring hr)) (fun i => hash <=? nth i (ring hr) 0) in
  if (length (ring hr) <=? idx)%nat then 0%nat else idx.

Definition GetNodes (hr : t) (key : string) (n : nat) : list string :=
  match nodes hr with
  | [] => []
  | _ =>
      let n := if (length (nodes hr) <? n)%nat then length (nodes hr) else n in
      walk hr (start_index hr key) n (length (ring hr)) 0 ∅ []
  end.

Definition AllNodes (hr : t) : list string := nodes hr.

(** The owners of the ring points, in ring order. *)
Definition owners (hr : t) : list string :=
  map (fun h => default EmptyString (nodeMap hr !! h)) (ring hr).

(** Every node still owns a ring point, that is, no node had all of its
    virtual points overwritten by later nodes hashing to the same values. *)
Definition every_node_owns_a_point (hr : t) : bool :=
  forallb (fun nd => existsb (String.eqb nd) (owners hr)) (nodes hr).

(** The invariant of the loops of [rebuild]: every point on the ring has an
    owner among the nodes inserted. *)
Definition owned_by (nds : list string) (acc : list Z * gmap Z string) : Prop :=
  forall h, h ∈ acc.1 -> exists nd, nd ∈ nds /\ acc.2 !! h = Some nd.

(** Ring points are [uint32] values. *)
Definition bounded_points (acc : list Z * gmap Z string) : Prop :=
  forall h, h ∈ acc.1 -> 0 <= h < 4294967296.

End HashRing.

Arguments HashRing.hashKey : simpl never.
Arguments HashRing.add_node : simpl never.
Arguments HashRing.NewHashRing : simpl never.

(** ** String helpers (Go: [strings], [strconv], [fmt]) *)

Module Strings.

Fixpoint HasPrefix (s prefix : string) : bool :=
  match prefix, s with
  | EmptyString, _ => true
  | String c p', String d s' => if Ascii.eqb c d then HasPrefix s' p' else false
  | String _ _, EmptyString => false
  end.

Fixpoint drop (n : nat) (s : string) : string :=
  match n, s with
  | O, _ => s
  | S n', String _ s' => drop n' s'
  | S _, EmptyString => EmptyString
  end.

Definition TrimPrefix (s prefix : string) : string :=
  if HasPrefix s prefix then drop (String.length prefix) s else s.

Fixpoint Contains (s substr : string) : bool :=
  HasPrefix s substr ||
  match s with
  | EmptyString => false
  | String _ s' => Contains s' substr
  end.

(** [strings.Split(s, sep)] for a one-character separator, which is what
    every call site passes. *)
Fixpoint Split (s : string) (sep : ascii) : list string :=
  match s with
  | EmptyString => [EmptyString]
  | String c s' =>
      if Ascii.eqb c sep then EmptyString :: Split s' sep
      else match Split s' sep with
           | [] => [String c EmptyString]
           | p :: ps => String c p :: ps
           end
  end.

Fixpoint TrimLeft (s : string) (cut : ascii) : string :=
  match s with
  | String c s' => if Ascii.eqb c cut then TrimLeft s' cut else s
  | EmptyString => EmptyString
  end.

Fixpoint rev_acc (s acc : string) : string :=
  match s with
  | EmptyString => acc
  | String c s' => rev_acc s' (String c acc)
  end.

Definition rev (s : string) : string := rev_acc s EmptyString.

(** [strings.Trim(s, cutset)] for a one-character cutset. *)
Definition Trim (s : string) (cut : ascii) : string :=
  rev (TrimLeft (rev (TrimLeft s cut)) cut).

Fixpoint occurs (c : ascii) (s : string) : bool :=
  match s with
  | EmptyString => false
  | String d s' => Ascii.eqb c d || occurs c s'
  end.

Fixpoint last_char (s : string) : option ascii :=
  match s with
  | EmptyString => None
  | String c EmptyString => Some c
  | String _ s' => last_char s'
  end.

Definition dquote : ascii := "034"%char.

Definition quote (s : string) : string :=
  String dquote (s +:+ String dquote EmptyString).

End Strings.

Module Strconv.

(** [strconv.Itoa] and the [%d] verb of [fmt.Sprintf]. *)
Definition Itoa (z : Z) : string := NilZero.string_of_int (Z.to_int z).

End Strconv.

Module Fmt.

Definition is_digit (c : ascii) : bool :=
  let n := nat_of_ascii c in ((48 <=? n) && (n <=? 57))%nat.

Definition is_blank (c : ascii) : bool :=
  let n := nat_of_ascii c in ((n =? 32) || (n =? 9) || (n =? 13))%nat.

Fixpoint skip_blank (s : string) : string :=
  match s with
  | String c s' => if is_blank c then skip_blank s' else s
  | EmptyString => EmptyString
  end.

(** The value of the longest prefix of decimal digits, [None] when the
    string does not start with a digit. *)
Fixpoint scan_digits (s : string) (acc : option Z) : option Z :=
  match s with
  | String c s' =>
      if is_digit c then
        scan_digits s' (Some (10 * default 0 acc + (Z.of_nat (nat_of_ascii c) - 48)))
      else acc
  | EmptyString => acc
  end.

Definition in_int64 (z : Z) : bool :=
  (- 9223372036854775808 <=? z) && (z <=? 9223372036854775807).

(** [fmt.Sscanf(s, "%d", &v)] with the returned error ignored, as every
    call site does: blanks are skipped, an optional sign and a run of
    decimal digits are read, and [v] keeps its previous value when no
    integer is found or it does not fit in 64 bits. *)
Definition Sscanf_d (s : string) (v : Z) : Z :=
  let s1 := skip_blank s in
  let '(neg, s2) :=
    match s1 with
    | String "-"%char r => (true, r)
    | String "+"%char r => (false, r)
    | _ => (false, s1)
    end in
  match scan_digits s2 None with
  | Some n => let n := if neg then - n else n in if in_int64 n then n else v
  | None => v
  end.

End Fmt.

(** ** Errors

    A Go [error] is its message ([err.Error()]), which is what the callers
    compare; [None] is [nil]. *)

Definition error := option string.

(** ** Paths (Go: [path/filepath]) and the file system

    Paths are assumed clean: [Join] concatenates with [/] and [Dir] drops the
    last element.  The file system is a finite map from paths to file
    contents; directories are created on demand and not represented. *)

Module Filepath.

Definition slash : ascii := "/"%char.

Definition Join2 (a b : string) : string := a +:+ String slash b.
Definition Join3 (a b c : string) : string := Join2 (Join2 a b) c.

Fixpoint has_slash (s : string) : bool :=
  match s with
  | EmptyString => false
  | String c s' => Ascii.eqb c slash || has_slash s'
  end.

Fixpoint Dir (s : string) : string :=
  match s with
  | EmptyString => EmptyString
  | String c s' => if has_slash s' then String c (Dir s') else EmptyString
  end.

End Filepath.

Abbreviation FS := (gmap string (list byte)).

(** ** JSON documents (Go: [encoding/json])

    The two documents the servers exchange are printed in the field order
    of their struct and read back in that layout.  Quotes and backslashes
    inside strings are escaped; strings with other escape sequences are
    outside this codec. *)

Module Json.

Definition backslash : ascii := "092"%char.

Fixpoint escape (s : string) : string :=
  match s with
  | EmptyString => EmptyString
  | String c s' =>
      if Ascii.eqb c Strings.dquote || Ascii.eqb c backslash
      then String backslash (String c (escape s'))
      else String c (escape s')
  end.

Definition str (s : string) : string := Strings.quote (escape s).

(** Reads a string literal whose opening quote has been consumed. *)
Fixpoint read_str (s : string) : option (string * string) :=
  match s with
  | EmptyString => None
  | String c s' =>
      if Ascii.eqb c Strings.dquote then Some (EmptyString, s')
      else if Ascii.eqb c backslash then
        match s' with
        | String d s'' =>
            if Ascii.eqb d Strings.dquote || Ascii.eqb d backslash then
              '(v, rest) ← read_str s''; Some (String d v, rest)
            else None
        | EmptyString => None
        end
      else '(v, rest) ← read_str s'; Some (String c v, rest)
  end.

Definition expect (lit s : string) : option string :=
  if Strings.HasPrefix s lit then Some (Strings.drop (String.length lit) s)
  else None.

Fixpoint span_digits (s : string) : string * string :=
  match s with
  | String c s' =>
      if Fmt.is_digit c then let '(d, r) := span_digits s' in (String c d, r)
      else (EmptyString, s)
  | EmptyString => (EmptyString, EmptyString)
  end.

Definition starts_with_digit (s : string) : bool :=
  match s with
  | String c _ => Fmt.is_digit c
  | EmptyString => false
  end.

(** The printers, each taking the text that follows: a member name (the
    first one opens the object), a string value and an integer value. *)
Definition key_lit (first : bool) (name : string) : string :=
  (if first then "{" else ",") +:+ str name +:+ ":".

Definition key (first : bool) (name rest : string) : string :=
  key_lit first name +:+ rest.

Definition str_then (s rest : string) : string :=
  String Strings.dquote (escape s +:+ String Strings.dquote rest).

Definition int_then (z : Z) (rest : string) : string := Strconv.Itoa z +:+ rest.

(** The matching readers, each returning the text that follows. *)
Definition expect_key (first : bool) (name s : string) : option string :=
  expect (key_lit first name) s.

Definition read_string (s : string) : option (string * string) :=
  match s with
  | String c s' => if Ascii.eqb c Strings.dquote then read_str s' else None
  | EmptyString => None
  end.

Definition read_int (s : string) : option (Z * string) :=
  let '(neg, s1) :=
    match s with
    | String "-"%char r => (true, r)
    | _ => (false, s)
    end in
  let '(d, rest) := span_digits s1 in
  n ← Fmt.scan_digits d None;
  Some (if neg then - n else n, rest).

(** Characters that [encoding/json] writes as they are or escapes with a
    backslash alone: printable ASCII without the three characters it
    writes as [\u00XX] for HTML safety.  On strings of such characters this
    codec prints what the library prints. *)
Definition plain_char (c : ascii) : bool :=
  let n := nat_of_ascii c in
  ((32 <=? n) && (n <=? 126) && negb (n =? 60) && negb (n =? 62) &&
   negb (n =? 38))%nat.

Fixpoint plain (s : string) : bool :=
  match s with
  | EmptyString => true
  | String c s' => plain_char c && plain s'
  end.

End Json.

(** ** Node-local object store ([miniobject/localfs.go]) *)

Module LocalFSBackend.

Record t := Build { dataDir : string }.

Record metadata := Metadata {
  ContentType : string;
  ETag : string;
  Size : Z
}.

Definition Marshal (m : metadata) : list byte :=
  Bytes.of_string
    (Json.key true "content_type" (Json.str_then (ContentType m)
    (Json.key false "etag" (Json.str_then (ETag m)
    (Json.key false "size" (Json.int_then (Size m) "}")))))).

Definition Unmarshal (data : list byte) : option metadata :=
  s ← Json.expect_key true "content_type" (Bytes.to_string data);
  '(ct, s) ← Json.read_string s;
  s ← Json.expect_key false "etag" s;
  '(etag, s) ← Json.read_string s;
  s ← Json.expect_key false "size" s;
  '(size, s) ← Json.read_int s;
  if String.eqb s "}" then Some (Metadata ct etag size) else None.

Definition objectPath (fs : t) (bucket key : string) : string :=
  Filepath.Join3 (dataDir fs) bucket key.

Definition metadataPath (fs : t) (bucket key : string) : string :=
  Filepath.Join3 (dataDir fs) bucket (key +:+ ".meta.json").

(** How [os.WriteFile] fails.  It opens the file with [O_TRUNC], writes and
    closes it: when the file cannot be opened it stays as it was
    ([wf_written] is [None]); when the write or the close fails the file
    has been truncated and holds the bytes written until then, a prefix of
    the data. *)
Record writefile_fault := WriteFileFault {
  wf_err : string;
  wf_written : option nat
}.

(** The system calls of [Put] that can fail for reasons outside the model,
    each with the message of the failure when it happens, and for the write
    of the sidecar with what it leaves of the file. *)
Record faults := Faults {
  f_mkdir : error;
  f_create : error;
  f_copy : error;
  f_sync : error;
  f_close : error;
  f_writemeta : option writefile_fault;
  f_rename : error
}.

Definition no_faults : faults := Faults None None None None None None None.

(** [os.CreateTemp(dir, ".tmp-*")]: [rnd] is the number drawn for the name.
    The file is created exclusively; a taken name is reported as the
    failure the library returns once its draws are exhausted. *)
Definition tempPath (dir : string) (rnd : Z) : string :=
  Filepath.Join2 dir (".tmp-" +:+ Strconv.Itoa rnd).

(** [Put]: the result is the file system after the deferred removal of the
    temp file has run. *)
Definition Put (b : t) (io : faults) (rnd : Z) (files : FS)
    (bucket key : string) (r : list byte) (contentType contentMD5 : string)
  : FS * (string * error) :=
  let objPath := objectPath b bucket key in
  let metaPath := metadataPath b bucket key in
  match f_mkdir io with
  | Some e => (files, (EmptyString, Some ("mkdir failed: " +:+ e)))
  | None =>
  let tmpPath := tempPath (Filepath.Dir objPath) rnd in
  match f_create io, files !! tmpPath with
  | Some e, _ => (files, (EmptyString, Some ("create temp failed: " +:+ e)))
  | None, Some _ =>
      (files, (EmptyString, Some "create temp failed: file exists"))
  | None, None =>
  let files := <[tmpPath := []]> files in
  let deferred (files : FS) (res : string * error) := (delete tmpPath files, res) in
  match f_copy io with
  | Some e => deferred files (EmptyString, Some ("write failed: " +:+ e))
  | None =>
  let files := <[tmpPath := r]> files in
  let size := Z.of_nat (length r) in
  match f_sync io with
  | Some e => deferred files (EmptyString, Some ("fsync failed: " +:+ e))
  | None =>
  match f_close io with
  | Some e => deferred files (EmptyString, Some ("close failed: " +:+ e))
  | None =>
  let etag := Strings.quote (Hex.EncodeToString (MD5.Sum r)) in
  if negb (String.eqb contentMD5 "") &&
     negb (String.eqb contentMD5 (Strings.Trim etag Strings.dquote))
  then deferred files (EmptyString, Some "BadDigest")
  else
  let metaData := Marshal (Metadata contentType etag size) in
  match f_writemeta io with
  | Some wf =>
      let files :=
        match wf_written wf with
        | None => files
        | Some n => <[metaPath := take n metaData]> files
        end in
      deferred files
        (EmptyString, Some ("write metadata failed: " +:+ wf_err wf))
  | None =>
  let files := <[metaPath := metaData]> files in
  match f_rename io, files !! tmpPath with
  | Some e, _ => deferred files (EmptyString, Some ("rename failed: " +:+ e))
  | None, None =>
      deferred files (EmptyString, Some "rename failed: no such file")
  | None, Some d =>
      deferred (<[objPath := d]> (delete tmpPath files)) (etag, None)
  end end end end end end end.

Definition parseRange (rangeSpec : string) (size : Z) : Z * Z * error :=
  if negb (Strings.HasPrefix rangeSpec "bytes=") then (0, 0, Some "invalid range")
  else
    let rangeSpec := Strings.TrimPrefix rangeSpec "bytes=" in
    match Strings.Split rangeSpec "-"%char with
    | [p0; p1] =>
        let range :=
          if String.eqb p0 "" then
            if String.eqb p1 "" then None
            else
              let suffix := Fmt.Sscanf_d p1 0 in
              let start := size - suffix in
              let start := if start <? 0 then 0 else start in
              Some (start, size - 1)
          else if String.eqb p1 "" then Some (Fmt.Sscanf_d p0 0, size - 1)
          else Some (Fmt.Sscanf_d p0 0, Fmt.Sscanf_d p1 0) in
        match range with
        | None => (0, 0, Some "invalid range")
        | Some (start, end_) =>
            if (start <? 0) || (size <=? end_) || (end_ <? start)
            then (0, 0, Some "range not satisfiable")
            else (start, end_, None)
        end
    | _ => (0, 0, Some "invalid range")
    end.

(** The result of a backend [Get]: the bytes the returned reader yields
    ([None] for a nil reader), content type, ETag, size, status, error. *)
Record get_result := GetResult {
  g_body : option (list byte);
  g_contentType : string;
  g_etag : string;
  g_size : Z;
  g_status : Z;
  g_err : error
}.

Definition get_fail (status : Z) (msg : string) : get_result :=
  GetResult None "" "" 0 status (Some msg).

Definition Get (b : t) (files : FS) (bucket key rangeSpec : string)
  : get_result :=
  match files !! metadataPath b bucket key with
  | None => get_fail 404 "NoSuchKey"
  | Some metaData =>
  match Unmarshal metaData with
  | None => get_fail 500 "invalid character"
  | Some meta =>
  match files !! objectPath b bucket key with
  | None => get_fail 404 "NoSuchKey"
  | Some f =>
      if negb (String.eqb rangeSpec "") then
        match parseRange rangeSpec (Size meta) with
        | (_, _, Some e) => get_fail 416 e
        | (start, end_, None) =>
            let lr := take (Z.to_nat (end_ - start + 1)) (drop (Z.to_nat start) f) in
            GetResult (Some lr) (ContentType meta) (ETag meta)
              (end_ - start + 1) 206 None
        end
      else GetResult (Some f) (ContentType meta) (ETag meta) (Size meta) 200 None
  end end end.

Definition Head (b : t) (files : FS) (bucket key : string)
  : string * string * Z * bool * error :=
  match files !! metadataPath b bucket key with
  | None => ("", "", 0, false, None)
  | Some metaData =>
      match Unmarshal metaData with
      | None => ("", "", 0, false, Some "invalid character")
      | Some meta => (ContentType meta, ETag meta, Size meta, true, None)
      end
  end.

Definition Delete (b : t) (files : FS) (bucket key : string) : FS :=
  delete (metadataPath b bucket key) (delete (objectPath b bucket key) files).

End LocalFSBackend.

(** ** Storage node over HTTP ([cmd/s3_server/node.go]) *)

Module NodeServer.

Import LocalFSBackend.

(** A node: its backend, the files under its data directory, the faults of
    its disk and the next draw of its temp-name source. *)
Record t := Build {
  backend : LocalFSBackend.t;
  files : FS;
  io : faults;
  rnd : Z
}.

Record response := Response {
  status : Z;
  header : gmap string string;
  body : list byte
}.

Definition writeS3Error (code message : string) (status : Z) : response :=
  Response status {[ "Content-Type" := "application/xml" ]}
    (Bytes.of_string
       ("<Error><Code>" +:+ code +:+ "</Code><Message>" +:+ message +:+
        "</Message></Error>")).

(** [http.Error]: a plain-text body with the given status. *)
Definition http_Error (msg : string) (code : Z) : response :=
  Response code {[ "Content-Type" := "text/plain; charset=utf-8" ]}
    (Bytes.of_string msg).

Definition formatContentRange (rangeSpec : string) (size : Z) : string :=
  let rangeSpec := Strings.TrimPrefix rangeSpec "bytes=" in
  "bytes " +:+ rangeSpec +:+ "/*".

Definition handlePut (s : t) (bucket key : string) (reqBody : list byte)
    (contentType contentMD5 : string) : t * response :=
  let '(files', (etag, err)) :=
    Put (backend s) (io s) (rnd s) (files s) bucket key reqBody contentType contentMD5 in
  let s' := Build (backend s) files' (io s) (rnd s + 1) in
  match err with
  | Some e =>
      if String.eqb e "BadDigest"
      then (s', writeS3Error "BadDigest" "Content-MD5 mismatch" 400)
      else (s', http_Error e 500)
  | None => (s', Response 200 {[ "ETag" := etag ]} [])
  end.

Definition handleGet (s : t) (bucket key rangeSpec : string) : response :=
  let res := Get (backend s) (files s) bucket key rangeSpec in
  match g_err res with
  | Some e =>
      if String.eqb e "NoSuchKey"
      then writeS3Error "NoSuchKey" "The specified key does not exist" 404
      else http_Error e 500
  | None =>
      let h : gmap string string :=
        <[ "Accept-Ranges" := "bytes" ]>
          (<[ "ETag" := g_etag res ]>
             {[ "Content-Type" := g_contentType res ]}) in
      let h :=
        if (g_status res =? 206) && negb (String.eqb rangeSpec "")
        then <[ "Content-Range" := formatContentRange rangeSpec (g_size res) ]> h
        else h in
      let h := <[ "Content-Length" := Strconv.Itoa (g_size res) ]> h in
      Response (if g_status res =? 206 then 206 else 200) h
        (default [] (g_body res))
  end.

Definition handleDelete (s : t) (bucket key : string) : t * response :=
  (Build (backend s) (Delete (backend s) (files s) bucket key) (io s) (rnd s),
   Response 204 ∅ []).

End NodeServer.

(** ** HTTP client of a node ([miniobject/httpbackend.go])

    The nodes of a deployment are a finite map from base URL to node; a URL
    with no node behind it refuses the connection. *)

Abbreviation world := (gmap string NodeServer.t).

Module HTTPBackend.

Import LocalFSBackend NodeServer.

Definition refused : string := "connection refused".

Definition Put (nodes : world) (baseURL bucket key : string) (r : list byte)
    (contentType contentMD5 : string) : world * (string * error) :=
  match nodes !! baseURL with
  | None => (nodes, (EmptyString, Some refused))
  | Some node =>
      let '(node', resp) := handlePut node bucket key r contentType contentMD5 in
      let nodes' := <[baseURL := node']> nodes in
      if negb (status resp =? 200) then
        (nodes',
         (EmptyString,
          Some ("PUT failed: " +:+ Strconv.Itoa (status resp) +:+ " " +:+
                Bytes.to_string (body resp))))
      else (nodes', (default EmptyString (header resp !! "ETag"), None))
  end.

Definition Get (nodes : world) (baseURL bucket key rangeSpec : string)
  : get_result :=
  match nodes !! baseURL with
  | None => get_fail 500 refused
  | Some node =>
      let resp := handleGet node bucket key rangeSpec in
      if status resp =? 404 then get_fail 404 "NoSuchKey"
      else if negb (status resp =? 200) && negb (status resp =? 206) then
        get_fail (status resp) ("GET failed: " +:+ Strconv.Itoa (status resp))
      else
        GetResult (Some (body resp))
          (default EmptyString (header resp !! "Content-Type"))
          (default EmptyString (header resp !! "ETag"))
          (default (-1)
             (Fmt.scan_digits
                (default EmptyString (header resp !! "Content-Length")) None))
          (status resp) None
  end.

Definition Delete (nodes : world) (baseURL bucket key : string) : world :=
  match nodes !! baseURL with
  | None => nodes
  | Some node => <[baseURL := (handleDelete node bucket key).1]> nodes
  end.


(** A [context.Context] as the HTTP client tells them apart: nil, or a
    context in use. *)
Inductive Context : Type := nil_Context | live_Context.

(** [Put] from its first statement: [http.NewRequestWithContext] returns an
    error for a nil context, and no request is sent. *)
Definition PutContext (ctx : Context) (nodes : world)
    (baseURL bucket key : string) (r : list byte)
    (contentType contentMD5 : string) : world * (string * error) :=
  match ctx with
  | nil_Context => (nodes, (EmptyString, Some "net/http: nil Context"))
  | live_Context => Put nodes baseURL bucket key r contentType contentMD5
  end.

End HTTPBackend.

(** ** Replication coordinator ([miniobject/cluster.go])

    The goroutines of a fan-out deliver their results on a channel in an
    order chosen by the scheduler.  An operation is a function of the
    results delivered so far; it is [Pending] while the code is still
    blocked on the channel. *)

Inductive outcome (A : Type) : Type :=
  | Pending
  | Returned (a : A).
Arguments Pending {A}.
Arguments Returned {A} a.

Module ClusterBackend.

Import LocalFSBackend.

Record t := Build {
  ring : HashRing.t;
  replicas : nat;
  w : Z;
  r : Z
}.

Definition NewClusterBackend (nodeURLs : list string) (replicas : nat)
    (w r : Z) : t + string :=
  if w + r <=? Z.of_nat replicas
  then inr "write + read quorum must be > replicas for consistency"
  else inl (Build (HashRing.NewHashRing nodeURLs (Z.of_nat replicas)) replicas w r).

Record put_result := PutResult {
  p_node : string;
  p_etag : string;
  p_err : error
}.

(** One iteration of the loop over the results channel. *)
Definition put_step (acc : Z * string) (res : put_result) : Z * string :=
  match p_err res with
  | None =>
      (acc.1 + 1, if String.eqb acc.2 "" then p_etag res else acc.2)
  | Some _ => acc
  end.

Definition put_nodes (c : t) (bucket key : string) : list string :=
  HashRing.GetNodes (ring c) (bucket +:+ "/" +:+ key) (replicas c).

(** [Put]: [body] is the outcome of reading the request body and
    [delivered] the results received from the channel, which is closed once
    every node has delivered its result. *)
Definition Put (c : t) (bucket key : string) (body : list byte + string)
    (delivered : list put_result) : outcome (string * error) :=
  match body with
  | inr e => Returned (EmptyString, Some e)
  | inl data =>
      let nodes := put_nodes c bucket key in
      if (length nodes =? 0)%nat
      then Returned (EmptyString, Some "no nodes available")
      else if (length delivered <? length nodes)%nat then Pending
      else
        let '(successes, firstETag) :=
          fold_left put_step (firstn (length nodes) delivered) (0, EmptyString) in
        if successes <? w c then
          Returned
            (EmptyString,
             Some ("write quorum not met: " +:+ Strconv.Itoa successes +:+ "/" +:+
                   Strconv.Itoa (w c)))
        else Returned (firstETag, None)
  end.

Definition get_ok (res : get_result) : bool :=
  match g_err res with
  | None => negb (g_status res =? 404)
  | Some _ => false
  end.

(** The receive loop of [Get] over the results still to be awaited. *)
Fixpoint get_loop (n : nat) (delivered : list get_result) : outcome get_result :=
  match n with
  | O => Returned (get_fail 404 "NoSuchKey")
  | S n' =>
      match delivered with
      | [] => Pending
      | res :: rest =>
          if get_ok res then
            Returned (GetResult (g_body res) (g_contentType res) (g_etag res)
                        (g_size res) (g_status res) None)
          else get_loop n' rest
      end
  end.

Definition Get (c : t) (bucket key rangeSpec : string)
    (delivered : list get_result) : outcome get_result :=
  let nodes := put_nodes c bucket key in
  if (length nodes =? 0)%nat then Returned (get_fail 500 "no nodes available")
  else get_loop (length nodes) delivered.

(** The results the nodes of a deployment produce for a fan-out, in placement
    order. *)
Definition node_puts (c : t) (nodes : world) (bucket key : string)
    (data : list byte) (contentType contentMD5 : string)
  : world * list put_result :=
  fold_left
    (fun acc n =>
       let '(nodes', (etag, err)) :=
         HTTPBackend.Put acc.1 n bucket key data contentType contentMD5 in
       (nodes', acc.2 ++ [PutResult n etag err]))
    (put_nodes c bucket key) (nodes, []).

Definition node_gets (c : t) (nodes : world) (bucket key rangeSpec : string)
  : list get_result :=
  map (fun n => HTTPBackend.Get nodes n bucket key rangeSpec)
    (put_nodes c bucket key).

(** The spec's words: the number of node Puts that succeeded, and the ETag
    of the first success delivered that carries one. *)
Definition put_ok (res : put_result) : bool :=
  match p_err res with None => true | Some _ => false end.

Definition successes (delivered : list put_result) : Z :=
  Z.of_nat (length (filter (fun res => put_ok res = true) delivered)).

Definition first_etag (delivered : list put_result) : string :=
  match
    List.find (fun res => put_ok res && negb (String.eqb (p_etag res) ""))
      delivered
  with
  | Some res => p_etag res
  | None => EmptyString
  end.


(** The fan-out of [Put] under the context [Put] was called with, which it
    hands to every node Put. *)
Definition node_puts_context (ctx : HTTPBackend.Context) (c : t) (nodes : world)
    (bucket key : string) (data : list byte) (contentType contentMD5 : string)
  : world * list put_result :=
  fold_left
    (fun acc n =>
       let '(nodes', (etag, err)) :=
         HTTPBackend.PutContext ctx acc.1 n bucket key data contentType
           contentMD5 in
       (nodes', acc.2 ++ [PutResult n etag err]))
    (put_nodes c bucket key) (nodes, []).

(** [Put] run to its end: the results channel is closed once every node has
    delivered, and the loop over it has seen all the results. *)
Definition PutContext (ctx : HTTPBackend.Context) (c : t) (nodes : world)
    (bucket key : string) (data : list byte) (contentType contentMD5 : string)
  : world * (string * error) :=
  if (length (put_nodes c bucket key) =? 0)%nat
  then (nodes, (EmptyString, Some "no nodes available"))
  else
    let '(nodes', delivered) :=
      node_puts_context ctx c nodes bucket key data contentType contentMD5 in
    let '(successes, firstETag) :=
      fold_left put_step delivered (0, EmptyString) in
    (nodes',
     if successes <? w c then
       (EmptyString,
        Some ("write quorum not met: " +:+ Strconv.Itoa successes +:+ "/" +:+
              Strconv.Itoa (w c)))
     else (firstETag, None)).

(** The replicated backend of a gateway with the nodes behind it, and its
    [Put]. *)
Definition put (ctx : HTTPBackend.Context) (b : t * world)
    (bucket key : string) (data : list byte) (contentType contentMD5 : string)
  : (t * world) * (string * error) :=
  let res := PutContext ctx b.1 b.2 bucket key data contentType contentMD5 in
  ((b.1, res.1), res.2).

End ClusterBackend.

(** ** Gateway handlers ([cmd/s3_server/gateway.go]) *)

Module GatewayServer.

Import LocalFSBackend NodeServer.

Definition writeS3Error (path code message : string) (status : Z) : response :=
  Response status {[ "Content-Type" := "application/xml" ]}
    (Bytes.of_string
       ("<Error><Code>" +:+ code +:+ "</Code><Message>" +:+ message +:+
        "</Message><Resource>" +:+ path +:+ "</Resource></Error>")).

(** [handlePut] after the backend has returned [(etag, err)]. *)
Definition handlePut (path : string) (res : string * error) : response :=
  match res.2 with
  | Some e =>
      if Strings.Contains e "BadDigest"
      then writeS3Error path "BadDigest" "Content-MD5 mismatch" 400
      else writeS3Error path "InternalError" e 500
  | None => Response 200 {[ "ETag" := res.1 ]} []
  end.

(** [handleGet] after the backend has returned [res] for the request's
    [Range] header. *)
Definition handleGet (path rangeSpec : string) (res : get_result) : response :=
  match g_err res with
  | Some e =>
      if String.eqb e "NoSuchKey"
      then writeS3Error path "NoSuchKey" "The specified key does not exist" 404
      else writeS3Error path "InternalError" e 500
  | None =>
      let h : gmap string string :=
        <[ "Accept-Ranges" := "bytes" ]>
          (<[ "ETag" := g_etag res ]>
             {[ "Content-Type" := g_contentType res ]}) in
      let h :=
        if g_status res =? 206
        then <[ "Content-Range" := "bytes " +:+ rangeSpec ]> h
        else h in
      let h := <[ "Content-Length" := Strconv.Itoa (g_size res) ]> h in
      Response (if g_status res =? 206 then 206 else 200) h
        (default [] (g_body res))
  end.

End GatewayServer.

(** ** The backend interface ([miniobject/backend.go])

    [Put] changes the store; [Get] and [Head] read it. *)

Class Backend (B : Type) := {
  bPut : B -> string -> string -> list byte -> string -> string ->
         B * (string * error);
  bGet : B -> string -> string -> string -> LocalFSBackend.get_result;
  bHead : B -> string -> string -> string * string * Z * bool * error;
  bDelete : B -> string -> string -> B * error
}.

#[export] Instance NodeBackend : Backend NodeServer.t := {
  bPut s bucket key data ct md5 :=
    let '(files', res) :=
      LocalFSBackend.Put (NodeServer.backend s) (NodeServer.io s)
        (NodeServer.rnd s) (NodeServer.files s) bucket key data ct md5 in
    (NodeServer.Build (NodeServer.backend s) files' (NodeServer.io s)
       (NodeServer.rnd s + 1), res);
  bGet s bucket key rangeSpec :=
    LocalFSBackend.Get (NodeServer.backend s) (NodeServer.files s) bucket key rangeSpec;
  bHead s bucket key :=
    LocalFSBackend.Head (NodeServer.backend s) (NodeServer.files s) bucket key;
  bDelete s bucket key :=
    (NodeServer.Build (NodeServer.backend s)
       (LocalFSBackend.Delete (NodeServer.backend s) (NodeServer.files s) bucket key)
       (NodeServer.io s) (NodeServer.rnd s), None)
}.

(** ** Multipart manager ([cmd/s3_server/multipart.go])

    The scratch directory of an upload holds one file per part; the files
    are addressed by upload ID and part number, and [dirs] is the set of
    uploads whose scratch directory exists. *)

Module MultipartManager.

Record PartInfo := Build_PartInfo {
  PartNumber : Z;
  ETag : string;
  Size : Z
}.

Record MultipartUpload := Build_MultipartUpload {
  UploadID : string;
  Bucket : string;
  Key : string;
  Parts : gmap Z PartInfo
}.

Record CompletePart := Build_CompletePart {
  cpPartNumber : Z;
  cpETag : string
}.

Record t (B : Type) := Build {
  uploads : gmap string MultipartUpload;
  dirs : gset string;
  scratch : gmap (string * Z) (list byte);
  backend : B
}.
Arguments Build {B}.
Arguments uploads {B}.
Arguments dirs {B}.
Arguments scratch {B}.
Arguments backend {B}.

Section WithBackend.
Context {B : Type} `{Backend B}.

Definition NewMultipartManager (b : B) : t B := Build ∅ ∅ ∅ b.

(** [InitiateUpload]: [uploadID] is the identifier generated from the clock. *)
Definition InitiateUpload (m : t B) (uploadID bucket key : string) : t B :=
  Build (<[uploadID := Build_MultipartUpload uploadID bucket key ∅]> (uploads m))
    ({[uploadID]} ∪ dirs m) (scratch m) (backend m).

Definition UploadPart (m : t B) (uploadID : string) (partNumber : Z)
    (data : list byte) : t B * (string * error) :=
  match uploads m !! uploadID with
  | None => (m, (EmptyString, Some "NoSuchUpload"))
  | Some upload =>
      if (partNumber <? 1) || (10000 <? partNumber)
      then (m, (EmptyString, Some "InvalidPart"))
      else if negb (bool_decide (uploadID ∈ dirs m))
      then (m, (EmptyString, Some "open: no such file or directory"))
      else
        let etag := Strings.quote (Hex.EncodeToString (MD5.Sum data)) in
        let upload' :=
          Build_MultipartUpload (UploadID upload) (Bucket upload) (Key upload)
            (<[partNumber :=
                 Build_PartInfo partNumber etag (Z.of_nat (length data))]>
               (Parts upload)) in
        (Build (<[uploadID := upload']> (uploads m)) (dirs m)
           (<[(uploadID, partNumber) := data]> (scratch m)) (backend m),
         (etag, None))
  end.

(** The loop of [validateParts]; [seen] and [prevNum] are its two local
    variables. *)
Fixpoint validate_loop (upload : MultipartUpload) (seen : gset Z) (prevNum : Z)
    (parts : list CompletePart) : error :=
  match parts with
  | [] => None
  | part :: rest =>
      if cpPartNumber part <=? prevNum then Some "InvalidPartOrder"
      else if bool_decide (cpPartNumber part ∈ seen) then Some "InvalidPart"
      else
        match Parts upload !! cpPartNumber part with
        | None => Some "InvalidPart"
        | Some stored =>
            if negb (String.eqb (ETag stored) (cpETag part)) then Some "InvalidPart"
            else validate_loop upload ({[cpPartNumber part]} ∪ seen)
                   (cpPartNumber part) rest
        end
  end.

Definition validateParts (upload : MultipartUpload) (parts : list CompletePart)
  : error :=
  match parts with
  | [] => Some "InvalidPart"
  | _ => validate_loop upload ∅ 0 parts
  end.

Definition cleanup (m : t B) (uploadID : string) : t B :=
  Build (uploads m) (dirs m ∖ {[uploadID]})
    (filter (fun kv => kv.1.1 ≠ uploadID) (scratch m)) (backend m).

(** The concatenation loop of [CompleteUpload]: the bytes written to the
    final file and the part digests written to the combined hash, or the
    error of opening a part file. *)
Fixpoint assemble (m : t B) (uploadID : string) (parts : list CompletePart)
  : option (list byte * list byte) :=
  match parts with
  | [] => Some ([], [])
  | part :: rest =>
      match scratch m !! (uploadID, cpPartNumber part) with
      | None => None
      | Some pf =>
          match assemble m uploadID rest with
          | None => None
          | Some (final, sums) => Some (pf ++ final, MD5.Sum pf ++ sums)
          end
      end
  end.

Definition CompleteUpload (m : t B) (uploadID : string)
    (parts : list CompletePart) : t B * (string * error) :=
  match uploads m !! uploadID with
  | None => (m, (EmptyString, Some "NoSuchUpload"))
  | Some upload =>
      match validateParts upload parts with
      | Some e => (m, (EmptyString, Some e))
      | None =>
          match assemble m uploadID parts with
          | None => (m, (EmptyString, Some "open: no such file or directory"))
          | Some (final, sums) =>
              let finalETag :=
                Strings.quote
                  (Hex.EncodeToString (MD5.Sum sums) +:+ "-" +:+
                   Strconv.Itoa (Z.of_nat (length parts))) in
              let '(b', (_, err)) :=
                bPut (backend m) (Bucket upload) (Key upload) final
                  "application/octet-stream" "" in
              let m' := Build (uploads m) (dirs m) (scratch m) b' in
              match err with
              | Some e => (m', (EmptyString, Some e))
              | None => (cleanup m' uploadID, (finalETag, None))
              end
          end
      end
  end.


(** The file of a referenced part, and whether every part recorded for an
    upload has its file in the scratch directory with the recorded digest:
    the state [UploadPart] leaves behind. *)
Definition part_file (m : t B) (uploadID : string) (part : CompletePart)
  : list byte :=
  default [] (scratch m !! (uploadID, cpPartNumber part)).

Definition part_on_disk (m : t B) (uploadID : string) (n : Z) (info : PartInfo)
  : bool :=
  match scratch m !! (uploadID, n) with
  | Some data =>
      String.eqb (ETag info) (Strings.quote (Hex.EncodeToString (MD5.Sum data)))
  | None => false
  end.

Definition upload_on_disk (m : t B) (uploadID : string)
    (upload : MultipartUpload) : bool :=
  forallb (fun kv => part_on_disk m uploadID kv.1 kv.2)
    (map_to_list (Parts upload)).

(** The composite ETag of the spec: the hex MD5 of the concatenated raw
    part digests, a dash and the number of parts, in quotes. *)
(** Every upload of the manager has its parts staged. *)
Definition staged (m : t B) : Prop :=
  forall uploadID upload,
    uploads m !! uploadID = Some upload -> upload_on_disk m uploadID upload = true.

(** The part number the validation loop has reached after a prefix. *)
Definition last_number (prevNum : Z) (parts : list CompletePart) : Z :=
  List.last (map cpPartNumber parts) prevNum.

Definition composite_etag (bodies : list (list byte)) : string :=
  Strings.quote
    (Hex.EncodeToString (MD5.Sum (concat (map MD5.Sum bodies))) +:+ "-" +:+
     Strconv.Itoa (Z.of_nat (length bodies))).

End WithBackend.

(** [handleCompleteMultipart]: the S3 error code and status for the result
    of [CompleteUpload]. *)
Definition complete_status (res : string * error) : string * Z :=
  match res.2 with
  | None => ("", 200)
  | Some e =>
      if String.eqb e "NoSuchUpload" then ("NoSuchUpload", 404)
      else if String.eqb e "InvalidPart" then ("InvalidPart", 400)
      else if String.eqb e "InvalidPartOrder" then ("InvalidPartOrder", 400)
      else ("InternalError", 500)
  end.

(** A listed part names an uploaded part with the ETag recorded for it. *)
Definition part_matches (upload : MultipartUpload) (part : CompletePart) : Prop :=
  exists stored, Parts upload !! cpPartNumber part = Some stored /\
    ETag stored = cpETag part.

(** A client uploading parts one after the other, and the list it sends to
    complete the upload: each part with the ETag [UploadPart] returns for
    it. *)
Definition upload_all {B : Type} `{Backend B} (m : t B) (uploadID : string)
    (ups : list (Z * list byte)) : t B :=
  fold_left (fun m u => (UploadPart m uploadID u.1 u.2).1) ups m.

Definition client_parts (ups : list (Z * list byte)) : list CompletePart :=
  map (fun u => Build_CompletePart u.1 (Strings.quote (MD5.hexsum u.2))) ups.

(** [CompleteUpload] over a backend whose [Put] reads its context, with the
    call written as in the code: [m.backend.Put(nil, ...)]. *)
Definition CompleteUploadOn {B : Type}
    (put : HTTPBackend.Context -> B -> string -> string -> list byte ->
           string -> string -> B * (string * error))
    (m : t B) (uploadID : string) (parts : list CompletePart)
  : t B * (string * error) :=
  match uploads m !! uploadID with
  | None => (m, (EmptyString, Some "NoSuchUpload"))
  | Some upload =>
      match validateParts upload parts with
      | Some e => (m, (EmptyString, Some e))
      | None =>
          match assemble m uploadID parts with
          | None => (m, (EmptyString, Some "open: no such file or directory"))
          | Some (final, sums) =>
              let finalETag :=
                Strings.quote
                  (Hex.EncodeToString (MD5.Sum sums) +:+ "-" +:+
                   Strconv.Itoa (Z.of_nat (length parts))) in
              let '(b', (_, err)) :=
                put HTTPBackend.nil_Context (backend m) (Bucket upload)
                  (Key upload) final "application/octet-stream" "" in
              let m' := Build (uploads m) (dirs m) (scratch m) b' in
              match err with
              | Some e => (m', (EmptyString, Some e))
              | None => (cleanup m' uploadID, (finalETag, None))
              end
          end
      end
  end.

End MultipartManager.

(** ** Erasure-coding coordinator ([cmd/s3_server/ec_backend.go]) *)

(** The [reedsolomon.Encoder] interface.  A shard of length zero is a
    missing shard, as in the library. *)
Class Encoder := {
  Split : list byte -> list (list byte) + string;
  Encode : list (list byte) -> list (list byte) + string;
  Reconstruct : list (list byte) -> list (list byte) + string;
  Join : list (list byte) -> Z -> list byte + string
}.

(** The encoder [reedsolomon.New(1, 0)]: one data shard, no parity. *)
#[export] Instance IdentityEncoder : Encoder := {
  Split data := match data with [] => inr "short data" | _ => inl [data] end;
  Encode shards :=
    match shards with [_] => inl shards | _ => inr "too few shards given" end;
  Reconstruct shards :=
    match shards with
    | [_ :: _] => inl shards
    | _ => inr "too few shards given"
    end;
  Join shards outSize :=
    match shards with
    | [d] =>
        if Z.of_nat (length d) <? outSize then inr "short data"
        else inl (take (Z.to_nat outSize) d)
    | _ => inr "too few shards given"
    end
}.

Module ECBackend.

Import LocalFSBackend.

Record t := Build {
  nodes : list string;
  dataShards : nat;
  parShards : nat;
  encoder : Encoder
}.

Record ECManifest := Build_ECManifest {
  DataShards : Z;
  ParityShards : Z;
  Size : Z;
  ContentType : string;
  Checksum : string
}.

Definition Marshal (m : ECManifest) : list byte :=
  Bytes.of_string
    (Json.key true "data_shards" (Json.int_then (DataShards m)
    (Json.key false "parity_shards" (Json.int_then (ParityShards m)
    (Json.key false "size" (Json.int_then (Size m)
    (Json.key false "content_type" (Json.str_then (ContentType m)
    (Json.key false "checksum" (Json.str_then (Checksum m) "}")))))))))).

Definition Unmarshal (data : list byte) : option ECManifest :=
  s ← Json.expect_key true "data_shards" (Bytes.to_string data);
  '(k, s) ← Json.read_int s;
  s ← Json.expect_key false "parity_shards" s;
  '(m, s) ← Json.read_int s;
  s ← Json.expect_key false "size" s;
  '(size, s) ← Json.read_int s;
  s ← Json.expect_key false "content_type" s;
  '(ct, s) ← Json.read_string s;
  s ← Json.expect_key false "checksum" s;
  '(sum, s) ← Json.read_string s;
  if String.eqb s "}" then Some (Build_ECManifest k m size ct sum) else None.

Definition shardKey (key : string) (idx : nat) : string :=
  key +:+ ".shard." +:+ Strconv.Itoa (Z.of_nat idx).

Definition node0 (ec : t) : string := hd EmptyString (nodes ec).

(** The shard uploads of [Put], shard [idx] going to node [idx]; the first
    error is kept. *)
Fixpoint put_shards (ec : t) (w : world) (bucket key : string) (idx : nat)
    (shards : list (list byte)) : world * error :=
  match shards with
  | [] => (w, None)
  | shard :: rest =>
      match nodes ec !! idx with
      | None => (w, None)
      | Some node =>
          let '(w', (_, err)) :=
            HTTPBackend.Put w node bucket (shardKey key idx) shard
              "application/octet-stream" "" in
          let '(w'', err') := put_shards ec w' bucket key (S idx) rest in
          (w'', match err with Some e => Some e | None => err' end)
      end
  end.

(** [Put]: [tmp] is the failure, if any, of staging the body in the scratch
    file.  The uploads run as goroutines on distinct keys; they are taken in
    the order manifest, shard 0, shard 1, ... *)
Definition Put (ec : t) (tmp : error) (w : world) (bucket key : string)
    (r : list byte) (contentType contentMD5 : string) : world * (string * error) :=
  match tmp with
  | Some e => (w, (EmptyString, Some e))
  | None =>
  let size := Z.of_nat (length r) in
  match @Split (encoder ec) r with
  | inr e => (w, (EmptyString, Some e))
  | inl shards =>
  match @Encode (encoder ec) shards with
  | inr e => (w, (EmptyString, Some e))
  | inl shards =>
      let manifest :=
        Build_ECManifest (Z.of_nat (dataShards ec)) (Z.of_nat (parShards ec))
          size contentType contentMD5 in
      let manifestData := Marshal manifest in
      let '(w1, (_, err0)) :=
        HTTPBackend.Put w (node0 ec) bucket (key +:+ ".manifest") manifestData
          "application/json" "" in
      let '(w2, err1) := put_shards ec w1 bucket key 0 shards in
      match err0, err1 with
      | Some e, _ => (w2, (EmptyString, Some e))
      | None, Some e => (w2, (EmptyString, Some e))
      | None, None => (w2, (Strings.quote contentMD5, None))
      end
  end end end.

(** The shard downloads of [Get]: slot [idx] holds the shard read from node
    [idx], or stays empty. *)
Definition get_shard (ec : t) (w : world) (bucket key : string) (idx : nat)
  : list byte :=
  match nodes ec !! idx with
  | None => []
  | Some node =>
      let res := HTTPBackend.Get w node bucket (shardKey key idx) "" in
      match g_err res with
      | None => if g_status res =? 200 then default [] (g_body res) else []
      | Some _ => []
      end
  end.

Definition Get (ec : t) (w : world) (bucket key rangeSpec : string)
  : get_result :=
  let res := HTTPBackend.Get w (node0 ec) bucket (key +:+ ".manifest") "" in
  if bool_decide (g_err res ≠ None) || negb (g_status res =? 200)
  then get_fail 404 "NoSuchKey"
  else
    match Unmarshal (default [] (g_body res)) with
    | None => get_fail 500 "invalid character"
    | Some manifest =>
        let totalShards := (dataShards ec + parShards ec)%nat in
        let shards := map (get_shard ec w bucket key) (seq 0 totalShards) in
        match @Reconstruct (encoder ec) shards with
        | inr e => get_fail 500 e
        | inl shards =>
            match @Join (encoder ec) shards (Size manifest) with
            | inr e => get_fail 500 e
            | inl data =>
                (* rangeSpec is only logged *)
                GetResult (Some data) (ContentType manifest)
                  (Strings.quote (Checksum manifest)) (Size manifest) 200 None
            end
        end
    end.

Definition Head (ec : t) (w : world) (bucket key : string)
  : string * string * Z * bool * error :=
  let res := HTTPBackend.Get w (node0 ec) bucket (key +:+ ".manifest") "" in
  if bool_decide (g_err res ≠ None) || negb (g_status res =? 200)
  then ("", "", 0, false, None)
  else
    match Unmarshal (default [] (g_body res)) with
    | None => ("", "", 0, false, Some "invalid character")
    | Some manifest =>
        (ContentType manifest, Strings.quote (Checksum manifest),
         Size manifest, true, None)
    end.

(** [Put] under the context it was called with, which it hands to the
    uploads of the manifest and of the shards. *)
Fixpoint put_shards_context (ctx : HTTPBackend.Context) (ec : t) (w : world)
    (bucket key : string) (idx : nat) (shards : list (list byte))
  : world * error :=
  match shards with
  | [] => (w, None)
  | shard :: rest =>
      match nodes ec !! idx with
      | None => (w, None)
      | Some node =>
          let '(w', (_, err)) :=
            HTTPBackend.PutContext ctx w node bucket (shardKey key idx) shard
              "application/octet-stream" "" in
          let '(w'', err') :=
            put_shards_context ctx ec w' bucket key (S idx) rest in
          (w'', match err with Some e => Some e | None => err' end)
      end
  end.

Definition PutContext (ctx : HTTPBackend.Context) (ec : t) (tmp : error)
    (w : world) (bucket key : string) (r : list byte)
    (contentType contentMD5 : string) : world * (string * error) :=
  match tmp with
  | Some e => (w, (EmptyString, Some e))
  | None =>
  let size := Z.of_nat (length r) in
  match @Split (encoder ec) r with
  | inr e => (w, (EmptyString, Some e))
  | inl shards =>
  match @Encode (encoder ec) shards with
  | inr e => (w, (EmptyString, Some e))
  | inl shards =>
      let manifest :=
        Build_ECManifest (Z.of_nat (dataShards ec)) (Z.of_nat (parShards ec))
          size contentType contentMD5 in
      let manifestData := Marshal manifest in
      let '(w1, (_, err0)) :=
        HTTPBackend.PutContext ctx w (node0 ec) bucket (key +:+ ".manifest")
          manifestData "application/json" "" in
      let '(w2, err1) := put_shards_context ctx ec w1 bucket key 0 shards in
      match err0, err1 with
      | Some e, _ => (w2, (EmptyString, Some e))
      | None, Some e => (w2, (EmptyString, Some e))
      | None, None => (w2, (Strings.quote contentMD5, None))
      end
  end end end.

(** The erasure-coded backend of a gateway with the nodes behind it, and
    its [Put]; [tmp] as in [Put]. *)
Definition put (tmp : error) (ctx : HTTPBackend.Context) (b : t * world)
    (bucket key : string) (data : list byte) (contentType contentMD5 : string)
  : (t * world) * (string * error) :=
  let res := PutContext ctx b.1 tmp b.2 bucket key data contentType contentMD5 in
  ((b.1, res.1), res.2).

End ECBackend.

(** ** Request coalescer ([cmd/s3_server/request_coalescing.go])

    Goroutines calling [Do] are threads of a transition system.  A step is
    one atomic action of one goroutine: an atomic counter update, a critical
    section under the mutex, the start or the return of [fn], the close of
    the [done] channel, or waking up from it.  The scheduler is the list of
    thread identifiers it picks; picking a goroutine that is blocked or has
    returned changes nothing.  In-flight requests live in a heap, a pointer
    being an index into it. *)

Module RequestCoalescer.

(** The pair returned by [fn] and by [Do]: a value ([None] for nil) and an
    error. *)
Definition result : Type := option Z * error.

Record inflightRequest := Build_inflightRequest {
  done : bool;
  res : result;
  waiters : Z
}.

Record CoalescingStats := Build_CoalescingStats {
  TotalRequests : Z;
  CoalescedRequests : Z;
  SavedRequests : Z
}.

Definition add_uint64 (x : Z) : Z := (x + 1) mod 18446744073709551616.

Definition add_int32 (x : Z) : Z :=
  (x + 1 + 2147483648) mod 4294967296 - 2147483648.

(** Where a goroutine stands in [Do]. *)
Inductive pc : Type :=
  | Start
  | Entered
  | Waiting (req : nat)
  | Calling (req : nat)
  | Running (req : nat) (call : nat)
  | Deleting (req : nat)
  | Closing (req : nat)
  | Returned (req : nat) (r : result).

(** A call [Do(key, fn)]; the result of [fn] may differ from one invocation
    to the next, so [fn] takes the number of invocations made before it. *)
Record goroutine := Build_goroutine {
  t_key : string;
  t_fn : nat -> result;
  t_pc : pc
}.

Record t := Build {
  inflight : gmap string nat;
  heap : list inflightRequest;
  stats : CoalescingStats;
  threads : list goroutine;
  calls : nat
}.

Definition NewRequestCoalescer (callers : list (string * (nat -> result))) : t :=
  Build ∅ [] (Build_CoalescingStats 0 0 0)
    (map (fun c => Build_goroutine c.1 c.2 Start) callers) 0.

Definition set_pc (g : goroutine) (p : pc) : goroutine :=
  Build_goroutine (t_key g) (t_fn g) p.

Definition move (s : t) (tid : nat) (g : goroutine) (p : pc) : list goroutine :=
  <[tid := set_pc g p]> (threads s).

(** One step of goroutine [tid], [None] when it cannot move. *)
Definition step (tid : nat) (s : t) : option t :=
  g ← threads s !! tid;
  match t_pc g with
  | Start =>
      let st := stats s in
      Some (Build (inflight s) (heap s)
              (Build_CoalescingStats (add_uint64 (TotalRequests st))
                 (CoalescedRequests st) (SavedRequests st))
              (move s tid g Entered) (calls s))
  | Entered =>
      match inflight s !! t_key g with
      | Some q =>
          let st := stats s in
          Some (Build (inflight s)
                  (alter (fun r => Build_inflightRequest (done r) (res r)
                                     (add_int32 (waiters r))) q (heap s))
                  (Build_CoalescingStats (TotalRequests st)
                     (add_uint64 (CoalescedRequests st))
                     (add_uint64 (SavedRequests st)))
                  (move s tid g (Waiting q)) (calls s))
      | None =>
          let q := length (heap s) in
          Some (Build (<[t_key g := q]> (inflight s))
                  (heap s ++ [Build_inflightRequest false (None, None) 0])
                  (stats s) (move s tid g (Calling q)) (calls s))
      end
  | Waiting q =>
      r ← heap s !! q;
      if done r then
        Some (Build (inflight s) (heap s) (stats s)
                (move s tid g (Returned q (res r))) (calls s))
      else None
  | Calling q =>
      Some (Build (inflight s) (heap s) (stats s)
              (move s tid g (Running q (calls s))) (S (calls s)))
  | Running q call =>
      Some (Build (inflight s)
              (alter (fun r => Build_inflightRequest (done r) (t_fn g call)
                                 (waiters r)) q (heap s))
              (stats s) (move s tid g (Deleting q)) (calls s))
  | Deleting q =>
      Some (Build (delete (t_key g) (inflight s)) (heap s) (stats s)
              (move s tid g (Closing q)) (calls s))
  | Closing q =>
      r ← heap s !! q;
      Some (Build (inflight s)
              (alter (fun r => Build_inflightRequest true (res r) (waiters r))
                 q (heap s))
              (stats s) (move s tid g (Returned q (res r))) (calls s))
  | Returned _ _ => None
  end.

Definition step_or_stay (s : t) (tid : nat) : t := default s (step tid s).

Definition run (sched : list nat) (s : t) : t := fold_left step_or_stay sched s.

(** The request a goroutine leads, and the one it leads while the key is
    still in the table. *)
Definition leads (p : pc) : option nat :=
  match p with
  | Calling q | Running q _ | Deleting q | Closing q => Some q
  | _ => None
  end.

Definition registered (p : pc) : option nat :=
  match p with
  | Calling q | Running q _ | Deleting q => Some q
  | _ => None
  end.

Definition refers (p : pc) : option nat :=
  match p with
  | Waiting q | Calling q | Running q _ | Deleting q | Closing q
  | Returned q _ => Some q
  | _ => None
  end.

Definition is_calling (g : goroutine) : bool :=
  match t_pc g with Calling _ => true | _ => false end.

Definition is_running (g : goroutine) : bool :=
  match t_pc g with Running _ _ => true | _ => false end.

Definition not_entered (g : goroutine) : bool :=
  match t_pc g with Start | Entered => true | _ => false end.

Definition has_returned (g : goroutine) : bool :=
  match t_pc g with Returned _ _ => true | _ => false end.

Definition all_returned (s : t) : bool := forallb has_returned (threads s).

(** The calls are concurrent: along the schedule, whenever a leader removes
    its key from the table, every goroutine has passed its own look-up. *)
Fixpoint concurrent (sched : list nat) (s : t) : bool :=
  match sched with
  | [] => true
  | tid :: rest =>
      match t_pc <$> threads s !! tid with
      | Some (Deleting _) => negb (existsb not_entered (threads s))
      | _ => true
      end && concurrent rest (step_or_stay s tid)
  end.

(** *** Invariants of the reachable states *)

Fixpoint countb {A : Type} (f : A -> bool) (l : list A) : nat :=
  match l with
  | [] => 0
  | x :: l' => (if f x then 1 else 0) + countb f l'
  end.

(** The request whose [result] and [err] a leader has already written. *)
Definition stored (p : pc) : option nat :=
  match p with
  | Deleting q | Closing q => Some q
  | _ => None
  end.

Record inv (s : t) : Prop := Build_inv {
  (* pointers held by goroutines are allocated *)
  inv_bound : forall tid g q,
    threads s !! tid = Some g -> refers (t_pc g) = Some q ->
    (q < length (heap s))%nat;
  (* a request has one leader *)
  inv_unique : forall tid1 tid2 g1 g2 q,
    threads s !! tid1 = Some g1 -> threads s !! tid2 = Some g2 ->
    leads (t_pc g1) = Some q -> leads (t_pc g2) = Some q -> tid1 = tid2;
  (* the leader of a closed request has returned *)
  inv_done : forall q r tid g,
    heap s !! q = Some r -> done r = true ->
    threads s !! tid = Some g -> leads (t_pc g) <> Some q;
  (* what [Do] returned is what the request holds, and the request is closed *)
  inv_returned : forall tid g q v,
    threads s !! tid = Some g -> t_pc g = Returned q v ->
    exists r, heap s !! q = Some r /\ done r = true /\ res r = v;
  (* an entry of the table belongs to a leader that has not deleted it yet *)
  inv_table : forall k q,
    inflight s !! k = Some q ->
    exists tid g, threads s !! tid = Some g /\ t_key g = k /\
      registered (t_pc g) = Some q;
  inv_registered : forall tid g q,
    threads s !! tid = Some g -> registered (t_pc g) = Some q ->
    inflight s !! t_key g = Some q;
  (* every request was or will be served by one invocation of [fn] *)
  inv_calls : (calls s + countb is_calling (threads s) = length (heap s))%nat;
  inv_running : forall tid g q c,
    threads s !! tid = Some g -> t_pc g = Running q c -> (c < calls s)%nat;
  (* the result held by a request is the result of its leader's [fn] *)
  inv_stored : forall tid g q,
    threads s !! tid = Some g -> stored (t_pc g) = Some q ->
    exists r c, heap s !! q = Some r /\ res r = t_fn g c /\ (c < calls s)%nat;
  inv_done_stored : forall q r,
    heap s !! q = Some r -> done r = true ->
    exists tid g c, threads s !! tid = Some g /\ res r = t_fn g c /\
      (c < calls s)%nat
}.

(** Goroutine [tid] runs the call [callers !! tid]. *)
Definition origin (callers : list (string * (nat -> result))) (s : t) : Prop :=
  forall tid g, threads s !! tid = Some g ->
    exists c, callers !! tid = Some c /\ t_key g = c.1 /\ t_fn g = c.2.

(** With one key and overlapping calls there is at most one request, and it
    stays in the table as long as some goroutine has not looked the key up. *)
Definition single (key : string) (s : t) : Prop :=
  (length (heap s) <= 1)%nat /\
  (existsb not_entered (threads s) = true -> (0 < length (heap s))%nat ->
   is_Some (inflight s !! key)).

(** *** Further invariants: keys, liveness and statistics *)

(** The goroutines that hold a pointer to a request called [Do] with the
    same key. *)
Definition same_key (s : t) : Prop :=
  forall t1 t2 g1 g2 q,
    threads s !! t1 = Some g1 -> threads s !! t2 = Some g2 ->
    refers (t_pc g1) = Some q -> refers (t_pc g2) = Some q ->
    t_key g1 = t_key g2.

(** The result of a closed request is the result of an invocation of the
    [fn] of its leader, which has returned. *)
Definition leader_returned (s : t) : Prop :=
  forall q r, heap s !! q = Some r -> done r = true ->
    exists tid g c, threads s !! tid = Some g /\
      t_pc g = Returned q (res r) /\ res r = t_fn g c /\ (c < calls s)%nat.

(** A request that is not closed has a leader on its way to close it. *)
Definition has_leader (s : t) : Prop :=
  forall q r, heap s !! q = Some r -> done r = false ->
    exists tid g, threads s !! tid = Some g /\ leads (t_pc g) = Some q.

Definition started (g : goroutine) : bool :=
  match t_pc g with Start => false | _ => true end.

Definition looked_up (g : goroutine) : bool := negb (not_entered g).

Definition uint64 (n : Z) : Z := n mod 18446744073709551616.

(** What the three counters count: the calls that have begun, and among
    those that have looked the key up the ones that found a request in
    flight rather than creating one. *)
Definition stats_ok (s : t) : Prop :=
  TotalRequests (stats s) = uint64 (Z.of_nat (countb started (threads s))) /\
  CoalescedRequests (stats s) =
    uint64 (Z.of_nat (countb looked_up (threads s)) - Z.of_nat (length (heap s))) /\
  SavedRequests (stats s) = CoalescedRequests (stats s) /\
  (length (heap s) <= countb looked_up (threads s))%nat.

(** The number of steps a goroutine has left at most. *)
Definition rank (p : pc) : nat :=
  match p with
  | Start => 6
  | Entered => 5
  | Calling _ => 4
  | Running _ _ => 3
  | Deleting _ => 2
  | Closing _ => 1
  | Waiting _ => 1
  | Returned _ _ => 0
  end.

Definition remaining (s : t) : nat :=
  list_sum (map (fun g => rank (t_pc g)) (threads s)).

(** [Stats] loads the three counters. *)
Definition Stats (s : t) : CoalescingStats :=
  Build_CoalescingStats (TotalRequests (stats s)) (CoalescedRequests (stats s))
    (SavedRequests (stats s)).

(** What holds of every state a schedule can reach. *)
Definition reachable_facts (s : t) : Prop :=
  inv s /\ same_key s /\ leader_returned s /\ has_leader s /\ stats_ok s.

End RequestCoalescer.

(** ** Example deployments

    The configurations of the repository's tests: three nodes replicated
    with [N = 3], [W = 2], [R = 2]. *)

Module Examples.

Definition node (dir : string) : NodeServer.t :=
  NodeServer.Build (LocalFSBackend.Build dir) ∅ LocalFSBackend.no_faults 1.

Definition cluster3 : ClusterBackend.t :=
  ClusterBackend.Build
    (HashRing.NewHashRing ["node1"; "node2"; "node3"]%string 3) 3 2 2.

(** Nodes 1 and 2 are up and empty; node 3 is unreachable. *)
Definition world_node3_down : world :=
  {[ "node1"%string := node "/data1"; "node2"%string := node "/data2" ]}.


Definition digits : list byte := Bytes.of_string "0123456789".

(** A node holding the ten digits under [b/k], and a deployment of it. *)
Definition node_digits : NodeServer.t :=
  (NodeServer.handlePut (node "/data1") "b" "k" digits "text/plain" "").1.

Definition world_digits : world := {[ "node1"%string := node_digits ]}.

(** An erasure-coded deployment with one data shard and no parity, after a
    Put of the ten digits without a Content-MD5 header. *)
Definition ec1 : ECBackend.t := ECBackend.Build ["node1"%string] 1 0 IdentityEncoder.

Definition world_ec_digits : world :=
  (ECBackend.Put ec1 None {[ "node1"%string := node "/data1" ]} "b" "k" digits
     "text/plain" "").1.

(** The upload of the repository's validation test: parts 1 and 2 staged
    on a manager whose backend is a node. *)
Definition part1 : list byte := Bytes.of_string "part1".
Definition part2 : list byte := Bytes.of_string "part2".
Definition etag_of (data : list byte) : string :=
  Strings.quote (Hex.EncodeToString (MD5.Sum data)).

Definition manager_two_parts : MultipartManager.t NodeServer.t :=
  let m := MultipartManager.NewMultipartManager (node "/data1") in
  let m := MultipartManager.InitiateUpload m "u1" "test" "key" in
  let m := (MultipartManager.UploadPart m "u1" 1 part1).1 in
  (MultipartManager.UploadPart m "u1" 2 part2).1.

Definition upload_two_parts : MultipartManager.MultipartUpload :=
  default (MultipartManager.Build_MultipartUpload "" "" "" ∅)
    (MultipartManager.uploads manager_two_parts !! "u1"%string).

(** Three calls [Do("k", fn)], where the invocation number [i] of [fn]
    returns [i + 100]; a schedule in which the calls overlap and one in
    which each call ends before the next begins. *)
Definition callers3 : list (string * (nat -> RequestCoalescer.result)) :=
  let fn (i : nat) : RequestCoalescer.result :=
    (Some (Z.of_nat i + 100)%Z, None) in
  [("k"%string, fn); ("k"%string, fn); ("k"%string, fn)].

Definition overlapping : list nat := [0; 1; 2; 0; 1; 2; 0; 0; 0; 0; 1; 2]%nat.

Definition one_after_another : list nat :=
  [0; 0; 0; 0; 0; 0; 1; 1; 1; 1; 1; 1; 2; 2; 2; 2; 2; 2]%nat.

(** The same upload on a gateway, whose manager holds the replicated
    backend over three nodes, or the erasure-coded backend over one. *)
Definition world_three : world :=
  {[ "node1"%string := node "/data1"; "node2"%string := node "/data2";
     "node3"%string := node "/data3" ]}.

Definition gateway_two_parts
  : MultipartManager.t (ClusterBackend.t * world) :=
  let m := MultipartManager.NewMultipartManager (cluster3, world_three) in
  let m := MultipartManager.InitiateUpload m "u1" "test" "key" in
  let m := (MultipartManager.UploadPart m "u1" 1 part1).1 in
  (MultipartManager.UploadPart m "u1" 2 part2).1.

Definition gateway_ec_two_parts : MultipartManager.t (ECBackend.t * world) :=
  let m :=
    MultipartManager.NewMultipartManager
      (ec1, ({[ "node1"%string := node "/data1" ]} : world)) in
  let m := MultipartManager.InitiateUpload m "u1" "test" "key" in
  let m := (MultipartManager.UploadPart m "u1" 1 part1).1 in
  (MultipartManager.UploadPart m "u1" 2 part2).1.

End Examples.

(** * Properties *)

Example md5_empty :
  MD5.hexsum (Bytes.of_string "") = "d41d8cd98f00b204e9800998ecf8427e"%string.
Proof. vm_compute. reflexivity. Qed.

Example md5_hello :
  MD5.hexsum (Bytes.of_string "hello") = "5d41402abc4b2a76b9719d911017c592"%string.
Proof. vm_compute. reflexivity. Qed.

Example md5_test_data :
  MD5.hexsum (Bytes.of_string "test data") = "eb733a00c0c9d336e65691a37ab54293"%string.
Proof. vm_compute. reflexivity. Qed.

Example base64_md5_empty :
  Base64.EncodeToString (MD5.Sum []) = "1B2M2Y8AsgTpgAmY7PhCfg=="%string.
Proof. vm_compute. reflexivity. Qed.


(** ** The placement ring *)

Section HashRingFacts.

Import HashRing.

Implicit Types (hr : HashRing.t) (seen : gset string) (result : list string).

Lemma walk_prefix hr idx n steps i seen result :
  exists extra, walk hr idx n steps i seen result = result ++ extra.
Proof.
  revert i seen result.
  induction steps as [|steps IH]; intros i seen result; simpl.
  - exists []. by rewrite app_nil_r.
  - destruct (length result <? n)%nat; [|exists []; by rewrite app_nil_r].
    destruct (decide _) as [Hin|Hnin]; [apply IH|].
    destruct (IH (S i) ({[owner_at hr ((idx + i) mod length (ring hr))]} ∪ seen)
                (result ++ [owner_at hr ((idx + i) mod length (ring hr))]))
      as [extra ->].
    eexists. by rewrite <- app_assoc.
Qed.

Lemma walk_NoDup hr idx n steps i seen result :
  NoDup result -> (forall x, x ∈ seen <-> x ∈ result) ->
  NoDup (walk hr idx n steps i seen result).
Proof.
  revert i seen result.
  induction steps as [|steps IH]; intros i seen result Hnd Hseen; simpl; [done|].
  destruct (length result <? n)%nat; [|done].
  destruct (decide _) as [Hin|Hnin]; [by apply IH|].
  apply IH.
  - apply NoDup_app. split_and!; [done| |apply NoDup_singleton].
    intros x Hx Hx'. apply list_elem_of_singleton in Hx'. subst x.
    apply Hnin, Hseen, Hx.
  - intros x. rewrite elem_of_union, elem_of_singleton, elem_of_app,
      list_elem_of_singleton, Hseen. tauto.
Qed.

Lemma walk_length hr idx n steps i seen result :
  (length result <= n)%nat ->
  (length (walk hr idx n steps i seen result) <= n)%nat.
Proof.
  revert i seen result.
  induction steps as [|steps IH]; intros i seen result Hlen; simpl; [done|].
  destruct (length result <? n)%nat eqn:Hlt; [|done].
  apply Nat.ltb_lt in Hlt.
  destruct (decide _); apply IH; [done|].
  rewrite length_app. simpl. lia.
Qed.

(** Unless [n] nodes have been collected, the walk has seen the owner of
    every position it visited. *)
Lemma walk_visits hr idx n steps i seen result :
  (forall x, x ∈ seen <-> x ∈ result) ->
  let r := walk hr idx n steps i seen result in
  (length r < n)%nat ->
  forall j, (i <= j < i + steps)%nat ->
    owner_at hr ((idx + j) mod length (ring hr)) ∈ r.
Proof.
  revert i seen result.
  induction steps as [|steps IH]; intros i seen result Hseen; simpl;
    intros Hlen j Hj; [lia|].
  destruct (length result <? n)%nat eqn:Hlt.
  2:{ apply Nat.ltb_ge in Hlt. lia. }
  destruct (decide _) as [Hin|Hnin].
  - destruct (decide (j = i)) as [->|Hne].
    + destruct (walk_prefix hr idx n steps (S i) seen result) as [extra ->].
      apply elem_of_app. left. by apply Hseen.
    + apply (IH (S i) seen result Hseen Hlen). lia.
  - set (node := owner_at hr ((idx + i) mod length (ring hr))) in *.
    assert (Hseen' : forall x, x ∈ {[node]} ∪ seen <-> x ∈ result ++ [node]).
    { intros x. rewrite elem_of_union, elem_of_singleton, elem_of_app,
        list_elem_of_singleton, Hseen. tauto. }
    destruct (decide (j = i)) as [->|Hne].
    + destruct (walk_prefix hr idx n steps (S i) ({[node]} ∪ seen)
                  (result ++ [node])) as [extra ->].
      rewrite elem_of_app. left. rewrite elem_of_app. right.
      by apply list_elem_of_singleton.
    + apply (IH (S i) _ _ Hseen' Hlen). lia.
Qed.

(** The walk only returns owners of ring points. *)
Lemma walk_owners hr idx n steps i seen result :
  (0 < length (ring hr))%nat ->
  (forall x, x ∈ result -> x ∈ owners hr) ->
  forall x, x ∈ walk hr idx n steps i seen result -> x ∈ owners hr.
Proof.
  intros Hpos. revert i seen result.
  induction steps as [|steps IH]; intros i seen result Hres x; simpl; [by auto|].
  destruct (length result <? n)%nat; [|by auto].
  destruct (decide _); [by apply IH|].
  apply IH. intros y [Hy|Hy]%elem_of_app; [by auto|].
  apply list_elem_of_singleton in Hy. subst y.
  unfold owner_at, owners.
  apply list_elem_of_fmap. eexists. split; [reflexivity|].
  apply list_elem_of_In, nth_In, Nat.mod_upper_bound. lia.
Qed.

Lemma walk_ext hr hr' idx n steps i seen result :
  ring hr' = ring hr -> nodeMap hr' = nodeMap hr ->
  walk hr' idx n steps i seen result = walk hr idx n steps i seen result.
Proof.
  intros Hring Hmap. revert i seen result.
  induction steps as [|steps IH]; intros i seen result; simpl; [done|].
  unfold owner_at. rewrite Hring, Hmap.
  destruct (length result <? n)%nat; [|done].
  destruct (decide _); apply IH.
Qed.

Lemma GetNodes_ext hr hr' key n :
  nodes hr' = nodes hr -> ring hr' = ring hr -> nodeMap hr' = nodeMap hr ->
  GetNodes hr' key n = GetNodes hr key n.
Proof.
  intros Hn Hr Hm. unfold GetNodes, start_index. rewrite Hn, Hr.
  destruct (nodes hr); [done|]. by apply walk_ext.
Qed.

Lemma insert_sorted_Permutation x l : insert_sorted x l ≡ₚ x :: l.
Proof.
  induction l as [|y l IH]; simpl; [done|].
  destruct (x <=? y); [done|]. rewrite IH. apply Permutation_swap.
Qed.

Lemma sort_points_Permutation l : sort_points l ≡ₚ l.
Proof.
  induction l as [|x l IH]; simpl; [done|].
  by rewrite insert_sorted_Permutation, IH.
Qed.

Lemma insert_sorted_Sorted x l : Sorted Z.le l -> Sorted Z.le (insert_sorted x l).
Proof.
  induction 1 as [|y l Hs IH Hhd]; simpl.
  - by repeat constructor.
  - destruct (x <=? y) eqn:Hxy.
    + apply Z.leb_le in Hxy. by repeat constructor.
    + apply Z.leb_gt in Hxy. constructor; [done|].
      destruct Hhd as [|z l Hz]; simpl.
      * constructor. lia.
      * destruct (x <=? z); constructor; lia.
Qed.

Lemma sort_points_Sorted l : Sorted Z.le (sort_points l).
Proof.
  induction l as [|x l IH]; simpl; [constructor|by apply insert_sorted_Sorted].
Qed.

(** Whatever order [sort.Slice] leaves equal points in, the sorted ring is
    the same slice. *)
Lemma sorted_ring_unique l pts :
  Sorted Z.le l -> l ≡ₚ pts -> l = sort_points pts.
Proof.
  intros Hs Hp. apply (Sorted_unique Z.le); [done|apply sort_points_Sorted|].
  by rewrite sort_points_Permutation.
Qed.

Lemma add_point_owned (nds : list string) node acc i :
  node ∈ nds -> owned_by nds acc -> owned_by nds (add_point node acc i).
Proof.
  intros Hnode Hacc h. unfold add_point; simpl.
  destruct (decide (h = hashKey node i)) as [->|Hne].
  - intros _. exists node. by rewrite lookup_insert_eq.
  - intros [Hh|Hh]%elem_of_app.
    + rewrite lookup_insert_ne by done. by apply Hacc.
    + apply list_elem_of_singleton in Hh. done.
Qed.

Lemma fold_left_invariant {A B : Type} (f : A -> B -> A) (P : A -> Prop)
    (Q : B -> Prop) (l : list B) (acc : A) :
  (forall a b, Q b -> P a -> P (f a b)) -> Forall Q l -> P acc ->
  P (fold_left f l acc).
Proof.
  intros Hstep Hl. revert acc.
  induction Hl as [|b l Hb Hl IH]; intros acc Hacc; simpl; [done|].
  apply IH, Hstep; done.
Qed.

Lemma add_node_owned (nds : list string) node acc :
  node ∈ nds -> owned_by nds acc -> owned_by nds (add_node acc node).
Proof.
  intros Hnode Hacc. unfold add_node.
  apply (fold_left_invariant _ (owned_by nds) (fun _ => True)); [|by apply Forall_true|done].
  intros a i _ Ha. by apply add_point_owned.
Qed.

Lemma rebuild_loop_owned (nds l : list string) acc :
  (forall nd, nd ∈ l -> nd ∈ nds) -> owned_by nds acc ->
  owned_by nds (fold_left add_node l acc).
Proof.
  intros Hl Hacc.
  apply (fold_left_invariant _ (owned_by nds) (fun nd => nd ∈ nds)); [|by apply Forall_forall|done].
  intros a nd Hnd Ha. by apply add_node_owned.
Qed.

Lemma NewHashRing_nodes nds reps : nodes (NewHashRing nds reps) = nds.
Proof.
  unfold NewHashRing, rebuild. simpl. by destruct (fold_left _ _ _).
Qed.

Lemma NewHashRing_owners nds reps x :
  x ∈ owners (NewHashRing nds reps) -> x ∈ nds.
Proof.
  unfold NewHashRing, rebuild, owners. simpl.
  pose proof (rebuild_loop_owned nds nds ([], ∅)) as Hown.
  destruct (fold_left add_node nds ([], ∅)) as [pts owner]. simpl.
  intros (h & -> & Hh)%list_elem_of_fmap.
  rewrite sort_points_Permutation in Hh.
  destruct (Hown (fun _ H => H)) with (h := h) as (nd & Hnd & Hlk); [|done|].
  - intros h' Hh'. by apply elem_of_nil in Hh'.
  - simpl in Hlk. by rewrite Hlk.
Qed.

Lemma NewHashRing_replicas_irrelevant nds r1 r2 key n :
  GetNodes (NewHashRing nds r2) key n = GetNodes (NewHashRing nds r1) key n.
Proof.
  apply GetNodes_ext; unfold NewHashRing, rebuild; simpl;
    by destruct (fold_left _ _ _).
Qed.

Lemma GetNodes_NoDup hr key n : NoDup (GetNodes hr key n).
Proof.
  unfold GetNodes. destruct (nodes hr); [constructor|].
  apply walk_NoDup; [constructor|]. intros x. set_solver.
Qed.

Lemma GetNodes_length hr key n : (length (GetNodes hr key n) <= n)%nat.
Proof.
  unfold GetNodes. destruct (nodes hr) as [|nd nds]; simpl; [lia|].
  destruct (S (length nds) <? n)%nat eqn:Hlt.
  - apply Nat.ltb_lt in Hlt. etrans; [apply walk_length; simpl; lia|lia].
  - apply walk_length. simpl. lia.
Qed.

Lemma GetNodes_owners hr key n x : x ∈ GetNodes hr key n -> x ∈ owners hr.
Proof.
  unfold GetNodes. destruct (nodes hr); [by intros ?%elem_of_nil|].
  destruct (length (ring hr)) eqn:Hlen.
  - simpl. by intros ?%elem_of_nil.
  - rewrite <- Hlen. apply walk_owners; [lia|]. by intros ? ?%elem_of_nil.
Qed.

Lemma start_index_lt hr key :
  (0 < length (ring hr))%nat -> (start_index hr key < length (ring hr))%nat.
Proof.
  intros Hpos. unfold start_index.
  destruct (length (ring hr) <=? _)%nat eqn:Hle; [done|].
  by apply Nat.leb_gt in Hle.
Qed.

(** With [n] at least the number of nodes, the walk ends only when it has
    collected as many nodes as there are or has gone round the whole ring. *)
Lemma GetNodes_all hr key n x :
  (length (nodes hr) <= n)%nat ->
  x ∈ owners hr ->
  (length (GetNodes hr key n) < length (nodes hr))%nat ->
  x ∈ GetNodes hr key n.
Proof.
  intros Hn Hx. unfold GetNodes.
  destruct (nodes hr) as [|nd nds] eqn:Hnodes; [simpl; lia|].
  set (n' := if (length (nd :: nds) <? n)%nat then length (nd :: nds) else n).
  assert (Hn' : n' = length (nd :: nds)).
  { unfold n'. destruct (length (nd :: nds) <? n)%nat eqn:Hlt; [done|].
    apply Nat.ltb_ge in Hlt. lia. }
  rewrite Hn'. intros Hlen.
  apply list_elem_of_fmap in Hx as (h & -> & Hh).
  apply list_elem_of_In, (In_nth _ _ 0) in Hh as (p & Hp & Hnth).
  set (len := length (ring hr)) in *.
  set (idx := start_index hr key).
  assert (Hidx : (idx < len)%nat) by (apply start_index_lt; lia).
  pose proof (walk_visits hr idx (length (nd :: nds)) len 0 ∅ []) as Hv.
  simpl in Hv. specialize (Hv ltac:(set_solver) Hlen ((p + len - idx) mod len)%nat).
  assert (Hj : ((idx + (p + len - idx) mod len) mod len = p)%nat).
  { rewrite Nat.Div0.add_mod_idemp_r.
    replace (idx + (p + len - idx))%nat with (p + 1 * len)%nat by lia.
    rewrite Nat.Div0.mod_add. apply Nat.mod_small. lia. }
  fold len in Hv. rewrite Hj in Hv. unfold owner_at in Hv. rewrite Hnth in Hv.
  apply Hv. split; [lia|]. apply Nat.mod_upper_bound. lia.
Qed.

(** C8. For every key and every [N >= 1], [GetNodes] returns at most [N]
    pairwise distinct nodes; the list depends only on the node set the ring
    was built from (and not on the order in which the sort leaves equal
    points); and when [N] is at least the number of nodes, every node that
    owns a ring point is returned, so that all nodes are returned, each
    once, when none of them lost all its points to hash collisions. *)
Theorem GetNodes_distinct_deterministic_all (nds : list string) (reps : Z)
    (K : string) (N : nat) :
  (1 <= N)%nat ->
  let hr := NewHashRing nds reps in
  NoDup (GetNodes hr K N) /\
  (length (GetNodes hr K N) <= N)%nat /\
  (forall hr', nodes hr' = nodes hr -> nodeMap hr' = nodeMap hr ->
     Sorted Z.le (ring hr') -> ring hr' ≡ₚ ring hr ->
     GetNodes hr' K N = GetNodes hr K N) /\
  ((length nds <= N)%nat -> every_node_owns_a_point hr = true ->
   (forall nd, nd ∈ nds -> nd ∈ GetNodes hr K N) /\
   (NoDup nds -> length (GetNodes hr K N) = length nds)).
Proof.
  intros _ hr. split_and!.
  - apply GetNodes_NoDup.
  - apply GetNodes_length.
  - intros hr' Hn Hm Hs Hp. apply GetNodes_ext; [done| |done].
    subst hr. unfold NewHashRing, rebuild in *. simpl in *.
    destruct (fold_left add_node nds ([], ∅)) as [pts owner]. simpl in *.
    apply sorted_ring_unique; [done|]. by rewrite Hp, sort_points_Permutation.
  - intros HN Hown.
    assert (Hnodes : nodes hr = nds) by apply NewHashRing_nodes.
    assert (Hsub : forall x, x ∈ GetNodes hr K N -> x ∈ nds).
    { intros x Hx. eapply NewHashRing_owners, GetNodes_owners, Hx. }
    assert (Hall : forall nd, nd ∈ nds -> nd ∈ GetNodes hr K N).
    { intros nd Hnd.
      destruct (decide (length (GetNodes hr K N) < length nds)%nat) as [Hlt|Hge].
      - apply GetNodes_all; rewrite ?Hnodes; [done| |done].
        unfold every_node_owns_a_point in Hown.
        rewrite forallb_forall in Hown. rewrite Hnodes in Hown.
        specialize (Hown nd ltac:(by apply list_elem_of_In)).
        apply existsb_exists in Hown as (y & Hy & Heq).
        apply String.eqb_eq in Heq. subst y. by apply list_elem_of_In.
      - assert (Hperm : GetNodes hr K N ≡ₚ nds).
        { apply submseteq_length_Permutation; [|lia].
          apply NoDup_submseteq; [apply GetNodes_NoDup|done]. }
        by rewrite Hperm. }
    split; [done|]. intros Hnd. apply Nat.le_antisymm.
    + apply submseteq_length, NoDup_submseteq; [apply GetNodes_NoDup|done].
    + by apply submseteq_length, NoDup_submseteq.
Qed.

Lemma GetNodes_distinct_deterministic_all_witness :
  let hr := NewHashRing ["node1"; "node2"]%string 3 in
  NoDup (GetNodes hr "test/key" 5) /\
  length (GetNodes hr "test/key" 5) = 2%nat.
Proof.
  intros hr.
  destruct (GetNodes_distinct_deterministic_all ["node1"; "node2"]%string 3
              "test/key" 5 ltac:(lia)) as (Hnd & _ & _ & Hall).
  split; [exact Hnd|].
  destruct (Hall ltac:(simpl; lia) ltac:(vm_compute; reflexivity)) as [_ Hlen].
  apply Hlen. apply (bool_decide_unpack _). vm_compute. exact I.
Defined.

End HashRingFacts.

(** ** Replication coordinator *)

Section StringFacts.

Import Strings.


Lemma HasPrefix_occurs c sub s :
  Strings.HasPrefix s (String c sub) = true -> occurs c s = true.
Proof.
  destruct s as [|d s]; simpl; [done|].
  destruct (Ascii.eqb c d); [done|discriminate].
Qed.


Lemma occurs_uint c d :
  Fmt.is_digit c = false -> occurs c (NilEmpty.string_of_uint d) = false.
Proof.
  intros Hc. induction d; simpl; [done|..]; rewrite IHd;
    (apply orb_false_intro; [|done]); apply Ascii.eqb_neq; intros ->;
    discriminate Hc.
Qed.


Lemma append_cons c s1 s2 : String c s1 +:+ s2 = String c (s1 +:+ s2).
Proof. reflexivity. Qed.

Lemma append_nil_l s : "" +:+ s = s.
Proof. reflexivity. Qed.


Lemma append_assoc s1 s2 s3 : (s1 +:+ s2) +:+ s3 = s1 +:+ (s2 +:+ s3).
Proof.
  induction s1 as [|c s1 IH]; [done|]. by rewrite !append_cons, IH.
Qed.

Lemma append_inj_l a x y : a +:+ x = a +:+ y -> x = y.
Proof.
  induction a as [|c a IH]; [done|]. rewrite !append_cons.
  intros [= H]. by apply IH.
Qed.

Lemma length_append s1 s2 :
  String.length (s1 +:+ s2) = (String.length s1 + String.length s2)%nat.
Proof.
  induction s1 as [|c s1 IH]; [done|]. rewrite append_cons. simpl. by rewrite IH.
Qed.


Lemma append_suffix_neq s suffix : suffix <> "" -> s <> s +:+ suffix.
Proof.
  intros Hne Heq. apply (f_equal String.length) in Heq.
  rewrite length_append in Heq. destruct suffix; [done|]. simpl in Heq. lia.
Qed.

Lemma last_char_app s1 s2 : s2 <> "" -> last_char (s1 +:+ s2) = last_char s2.
Proof.
  intros Hne. induction s1 as [|c s1 IH]; [done|].
  rewrite append_cons. simpl. rewrite IH.
  destruct (s1 +:+ s2) eqn:Heq; [|done].
  destruct s1; [by rewrite append_nil_l in Heq|by rewrite append_cons in Heq].
Qed.

Lemma last_char_cons c s : s <> "" -> last_char (String c s) = last_char s.
Proof. by destruct s. Qed.

Lemma last_char_uint d :
  d <> Decimal.Nil ->
  exists c, last_char (NilEmpty.string_of_uint d) = Some c /\ Fmt.is_digit c = true.
Proof.
  induction d; intros Hne; [done|..];
    (destruct d as [|d'|d'|d'|d'|d'|d'|d'|d'|d'|d'];
     [simpl; eexists; split; [reflexivity|done]
     |destruct IHd as (c & Hc & Hdig); [done|];
      exists c; split; [|done]; rewrite <- Hc; reflexivity..]).
Qed.

Lemma pos_to_uint_nonnil p : Pos.to_uint p <> Decimal.Nil.
Proof.
  intros H. pose proof (DecimalPos.Unsigned.of_to p) as Hof.
  rewrite H in Hof. discriminate Hof.
Qed.

Lemma last_char_Itoa z :
  exists c, last_char (Strconv.Itoa z) = Some c /\ Fmt.is_digit c = true.
Proof.
  unfold Strconv.Itoa, NilZero.string_of_int, NilZero.string_of_uint.
  destruct z as [|p|p]; simpl.
  - eexists. split; [reflexivity|done].
  - pose proof (pos_to_uint_nonnil p) as Hne.
    destruct (last_char_uint _ Hne) as (c & Hc & Hd).
    exists c. split; [|done]. by destruct (Pos.to_uint p).
  - pose proof (pos_to_uint_nonnil p) as Hne.
    destruct (last_char_uint _ Hne) as (c & Hc & Hd).
    exists c. split; [|done].
    destruct (Pos.to_uint p) eqn:Hp; [done|..]; rewrite <- Hc; by simpl.
Qed.








End StringFacts.

Section ClusterFacts.

Import LocalFSBackend ClusterBackend.

Lemma successes_cons res l :
  successes (res :: l) = (if put_ok res then 1 else 0) + successes l.
Proof.
  unfold successes. rewrite filter_cons.
  destruct (decide _) as [Hok|Hok]; simpl.
  - rewrite Hok. lia.
  - destruct (put_ok res); [done|lia].
Qed.

(** The loop over the results channel counts the successes and keeps the
    first non-empty ETag among them. *)
Lemma put_loop_spec delivered acc :
  fold_left put_step delivered acc =
  (acc.1 + successes delivered,
   if String.eqb acc.2 "" then first_etag delivered else acc.2).
Proof.
  revert acc. induction delivered as [|res l IH]; intros [s e]; simpl.
  - unfold successes. simpl. rewrite Z.add_0_r.
    by destruct (String.eqb_spec e ""); subst.
  - rewrite successes_cons, IH. unfold put_step, first_etag, put_ok. simpl.
    destruct (p_err res) as [err|] eqn:Herr; simpl.
    + f_equal; lia.
    + f_equal; [lia|].
      destruct (String.eqb e "") eqn:He; simpl; rewrite ?He; [|done].
      by destruct (String.eqb (p_etag res) "").
Qed.






Lemma get_loop_none n delivered :
  length delivered = n ->
  (forall res, res ∈ delivered -> get_ok res = false) ->
  get_loop n delivered = Returned (get_fail 404 "NoSuchKey").
Proof.
  revert delivered. induction n as [|n IH]; intros [|res l] Hlen Hall;
    simpl in *; try done.
  rewrite (Hall res) by by left. apply IH; [lia|].
  intros r Hr. apply Hall. by right.
Qed.

Lemma get_loop_first n pre res post :
  (length pre < n)%nat ->
  (forall r, r ∈ pre -> get_ok r = false) -> get_ok res = true ->
  get_loop n (pre ++ res :: post) =
  Returned (GetResult (g_body res) (g_contentType res) (g_etag res)
              (g_size res) (g_status res) None).
Proof.
  revert n. induction pre as [|r pre IH]; intros [|n] Hlen Hpre Hres;
    simpl in *; try lia.
  - by rewrite Hres.
  - rewrite (Hpre r) by by left. apply IH; [lia| |done].
    intros r' Hr'. apply Hpre. by right.
Qed.

Lemma first_ok_split (delivered : list get_result) res :
  res ∈ delivered -> get_ok res = true ->
  exists pre r post, delivered = pre ++ r :: post /\ get_ok r = true /\
    forall r', r' ∈ pre -> get_ok r' = false.
Proof.
  induction delivered as [|x l IH]; intros Hin Hok; [by apply elem_of_nil in Hin|].
  destruct (get_ok x) eqn:Hx.
  - exists [], x, l. split_and!; [done..|]. by intros r' ?%elem_of_nil.
  - apply elem_of_cons in Hin as [->|Hin]; [congruence|].
    destruct (IH Hin Hok) as (pre & r & post & -> & Hr & Hpre).
    exists (x :: pre), r, post. split_and!; [done..|].
    intros r' [->|Hr']%elem_of_cons; auto.
Qed.

(** C2, as the code has it.  Once all N replicas have answered, a
    replicated Get surfaces NoSuchKey (404) exactly when no replica returned
    a success (a nil error with a status other than 404): when every
    replica reports 404, and equally when replicas failed with other
    errors.  Otherwise it returns the first success in delivery order. *)
Theorem Get_NoSuchKey_iff_no_success (c : ClusterBackend.t)
    (bucket key rangeSpec : string) (delivered : list get_result) :
  let N := length (put_nodes c bucket key) in
  (0 < N)%nat -> length delivered = N ->
  ((forall res, res ∈ delivered -> get_ok res = false) ->
   Get c bucket key rangeSpec delivered = Returned (get_fail 404 "NoSuchKey")) /\
  ((forall res, res ∈ delivered -> g_status res = 404) ->
   Get c bucket key rangeSpec delivered = Returned (get_fail 404 "NoSuchKey")) /\
  (forall pre res post, delivered = pre ++ res :: post ->
     (forall r, r ∈ pre -> get_ok r = false) -> get_ok res = true ->
     Get c bucket key rangeSpec delivered =
       Returned (GetResult (g_body res) (g_contentType res) (g_etag res)
                   (g_size res) (g_status res) None)) /\
  (Get c bucket key rangeSpec delivered = Returned (get_fail 404 "NoSuchKey") ->
   forall res, res ∈ delivered -> get_ok res = false).
Proof.
  intros N HN Hlen. unfold Get. fold N.
  assert ((N =? 0)%nat = false) as -> by (apply Nat.eqb_neq; lia).
  assert (Hnone : (forall res, res ∈ delivered -> get_ok res = false) ->
                  get_loop N delivered = Returned (get_fail 404 "NoSuchKey"))
    by (by apply get_loop_none).
  assert (Hfirst : forall pre res post, delivered = pre ++ res :: post ->
            (forall r, r ∈ pre -> get_ok r = false) -> get_ok res = true ->
            get_loop N delivered =
              Returned (GetResult (g_body res) (g_contentType res) (g_etag res)
                          (g_size res) (g_status res) None)).
  { intros pre res post -> Hpre Hres. apply get_loop_first; [|done..].
    rewrite length_app in Hlen. simpl in Hlen. lia. }
  split_and!; [done| |done|].
  - intros H404. apply Hnone. intros res Hres. unfold get_ok.
    rewrite (H404 res Hres). by destruct (g_err res).
  - intros Hret res Hres.
    destruct (get_ok res) eqn:Hok; [exfalso|done].
    destruct (first_ok_split delivered res Hres Hok)
      as (pre & r & post & Heq & Hr & Hpre).
    rewrite (Hfirst pre r post Heq Hpre Hr) in Hret. discriminate Hret.
Qed.

Lemma Get_NoSuchKey_iff_no_success_witness :
  Get Examples.cluster3 "b" "k" ""
    (node_gets Examples.cluster3 Examples.world_node3_down "b" "k" "") =
  Returned (get_fail 404 "NoSuchKey").
Proof.
  destruct (Get_NoSuchKey_iff_no_success Examples.cluster3 "b" "k" ""
              (node_gets Examples.cluster3 Examples.world_node3_down "b" "k" "")
              ltac:(vm_compute; lia) ltac:(vm_compute; reflexivity))
    as (H & _).
  apply H. apply Forall_forall. apply (bool_decide_unpack _).
  vm_compute. exact I.
Defined.

(** C2 as stated fails: node 3 refuses the connection (a 500, not a 404),
    no replica succeeds, and the read surfaces NoSuchKey (404). *)
Lemma Get_NoSuchKey_only_if_all_404_counterexample :
  let delivered :=
    node_gets Examples.cluster3 Examples.world_node3_down "b" "k" "" in
  Get Examples.cluster3 "b" "k" "" delivered =
    Returned (get_fail 404 "NoSuchKey") /\
  existsb (fun res => negb (g_status res =? 404)) delivered = true /\
  existsb get_ok delivered = false.
Proof. vm_compute. done. Qed.

End ClusterFacts.

(** ** JSON documents are read back as written *)

Section JsonFacts.

Import Strings Json.

Lemma HasPrefix_app lit rest : HasPrefix (lit +:+ rest) lit = true.
Proof.
  induction lit as [|c lit IH]; [by destruct rest|].
  rewrite append_cons. simpl. by rewrite Ascii.eqb_refl.
Qed.

Lemma drop_app lit rest : drop (String.length lit) (lit +:+ rest) = rest.
Proof.
  induction lit as [|c lit IH]; [by destruct rest|].
  rewrite append_cons. simpl. apply IH.
Qed.

Lemma expect_key_key first name rest :
  expect_key first name (key first name rest) = Some rest.
Proof.
  unfold expect_key, key, expect. by rewrite HasPrefix_app, drop_app.
Qed.

Lemma read_str_escape s rest :
  read_str (escape s +:+ String dquote rest) = Some (s, rest).
Proof.
  induction s as [|c s IH]; cbn [escape].
  - rewrite append_nil_l. cbn [read_str]. by rewrite Ascii.eqb_refl.
  - destruct (Ascii.eqb c dquote || Ascii.eqb c backslash) eqn:Hc.
    + rewrite !append_cons. cbn [read_str].
      assert (Ascii.eqb backslash dquote = false) as -> by done.
      rewrite Ascii.eqb_refl, Hc, IH. done.
    + apply orb_false_elim in Hc as [Hq Hb].
      rewrite append_cons. cbn [read_str]. by rewrite Hq, Hb, IH.
Qed.

Lemma read_string_str_then s rest :
  read_string (str_then s rest) = Some (s, rest).
Proof.
  unfold read_string, str_then. rewrite Ascii.eqb_refl. apply read_str_escape.
Qed.

Lemma span_digits_uint d rest :
  starts_with_digit rest = false ->
  span_digits (NilEmpty.string_of_uint d +:+ rest) =
  (NilEmpty.string_of_uint d, rest).
Proof.
  intros Hrest. induction d; simpl;
    [destruct rest; [done|]; simpl in *; by rewrite Hrest
    |by rewrite IHd..].
Qed.

Lemma scan_digits_acc d (acc : positive) :
  Fmt.scan_digits (NilEmpty.string_of_uint d) (Some (Z.pos acc)) =
  Some (Z.pos (Pos.of_uint_acc d acc)).
Proof.
  revert acc. induction d; intros acc; simpl; [done|..];
    rewrite <- IHd; do 2 f_equal;
    match goal with |- context [Z.of_nat (nat_of_ascii ?c)] =>
      let v := eval vm_compute in (Z.of_nat (nat_of_ascii c)) in
      change (Z.of_nat (nat_of_ascii c)) with v end; lia.
Qed.

Lemma scan_digits_zero d :
  d <> Decimal.Nil ->
  Fmt.scan_digits (NilEmpty.string_of_uint d) (Some 0) =
  Some (Z.of_N (Pos.of_uint d)).
Proof.
  induction d; intros Hne; [done|..]; simpl;
    [destruct d; [done|apply IHd; done..]|apply (scan_digits_acc d)..].
Qed.

Lemma scan_digits_None d :
  d <> Decimal.Nil ->
  Fmt.scan_digits (NilEmpty.string_of_uint d) None =
  Fmt.scan_digits (NilEmpty.string_of_uint d) (Some 0).
Proof. by destruct d. Qed.

Lemma scan_digits_pos p :
  Fmt.scan_digits (NilEmpty.string_of_uint (Pos.to_uint p)) None =
  Some (Z.pos p).
Proof.
  pose proof (pos_to_uint_nonnil p) as Hne.
  rewrite scan_digits_None, scan_digits_zero by done.
  by rewrite DecimalPos.Unsigned.of_to.
Qed.

Lemma uint_first_digit d :
  d <> Decimal.Nil ->
  exists c s, NilEmpty.string_of_uint d = String c s /\ Fmt.is_digit c = true.
Proof. destruct d; intros Hne; [done|simpl; eauto..]. Qed.

Lemma read_int_then z rest :
  starts_with_digit rest = false ->
  read_int (int_then z rest) = Some (z, rest).
Proof.
  intros Hrest. unfold int_then, Strconv.Itoa, NilZero.string_of_int,
    NilZero.string_of_uint.
  destruct z as [|p|p]; simpl.
  - unfold read_int. rewrite append_cons, append_nil_l. simpl.
    destruct rest; [done|]. simpl in *. rewrite Hrest. done.
  - pose proof (pos_to_uint_nonnil p) as Hne.
    pose proof (scan_digits_pos p) as Hscan.
    pose proof (span_digits_uint (Pos.to_uint p) rest Hrest) as Hspan.
    destruct (uint_first_digit _ Hne) as (c & s & Hs & Hc).
    destruct (Pos.to_uint p) eqn:Hp; [done|..];
      rewrite <- Hp in *; unfold read_int; rewrite Hs in *;
      rewrite append_cons in *;
      (destruct (Ascii.eqb_spec c "-") as [->|Hm]; [discriminate Hc|]);
      (assert (match c with
               | "-"%char => (true, s +:+ rest)
               | _ => (false, String c (s +:+ rest))
               end = (false, String c (s +:+ rest))) as ->
         by (destruct c as [[] [] [] [] [] [] [] []]; done));
      rewrite Hspan, Hscan; done.
  - pose proof (pos_to_uint_nonnil p) as Hne.
    pose proof (scan_digits_pos p) as Hscan.
    pose proof (span_digits_uint (Pos.to_uint p) rest Hrest) as Hspan.
    destruct (Pos.to_uint p) eqn:Hp; [done|..];
      rewrite <- Hp in *; unfold read_int; rewrite append_cons;
      rewrite Hspan, Hscan; done.
Qed.

Ltac bind_step := cbv beta iota delta [mbind option_bind].

Lemma LocalFS_Unmarshal_Marshal m :
  LocalFSBackend.Unmarshal (LocalFSBackend.Marshal m) = Some m.
Proof.
  unfold LocalFSBackend.Unmarshal, LocalFSBackend.Marshal, Bytes.to_string,
    Bytes.of_string.
  rewrite string_of_list_byte_of_string, expect_key_key. bind_step.
  rewrite read_string_str_then. bind_step. rewrite expect_key_key. bind_step.
  rewrite read_string_str_then. bind_step. rewrite expect_key_key. bind_step.
  rewrite read_int_then by done. bind_step. by destruct m.
Qed.


End JsonFacts.

(** ** Node-local store *)

Section LocalFSFacts.

Import Strings LocalFSBackend.

Lemma metadataPath_objectPath b bucket key :
  metadataPath b bucket key = objectPath b bucket key +:+ ".meta.json".
Proof.
  unfold metadataPath, objectPath, Filepath.Join3, Filepath.Join2.
  by rewrite !append_assoc.
Qed.

Lemma metadataPath_ne_objectPath b bucket key :
  metadataPath b bucket key <> objectPath b bucket key.
Proof.
  rewrite metadataPath_objectPath. intros H. symmetry in H.
  by apply append_suffix_neq in H.
Qed.

Lemma metadataPath_ne_tempPath b bucket key dir rnd :
  metadataPath b bucket key <> tempPath dir rnd.
Proof.
  intros H. apply (f_equal last_char) in H.
  rewrite metadataPath_objectPath, last_char_app in H by done.
  unfold tempPath, Filepath.Join2 in H.
  destruct (last_char_Itoa rnd) as (c & Hc & Hd).
  change (String Filepath.slash (".tmp-" +:+ Strconv.Itoa rnd)) with
    (String Filepath.slash ".tmp-" +:+ Strconv.Itoa rnd) in H.
  rewrite <- append_assoc, last_char_app, Hc in H.
  - simpl in H. injection H as <-. discriminate Hd.
  - intros Hnil. rewrite Hnil in Hc. discriminate Hc.
Qed.



(** [Put] touches only the object, its sidecar and the temp file. *)
Lemma Put_frame b io rnd files bucket key data contentType contentMD5 p :
  p <> objectPath b bucket key -> p <> metadataPath b bucket key ->
  p <> tempPath (Filepath.Dir (objectPath b bucket key)) rnd ->
  (Put b io rnd files bucket key data contentType contentMD5).1 !! p =
  files !! p.
Proof.
  intros Ho Hm Ht. unfold Put.
  repeat (case_match; cbn [fst snd]); try done;
    rewrite ?lookup_delete_ne, ?lookup_insert_ne by done;
    rewrite ?lookup_delete_ne, ?lookup_insert_ne by done;
    rewrite ?lookup_delete_ne, ?lookup_insert_ne by done; done.
Qed.

(** A successful [Put] leaves the body under the object path and the
    sidecar under the metadata path, unless the key is the temp name. *)
Lemma Put_stored b io rnd files bucket key data contentType contentMD5 files' etag :
  Put b io rnd files bucket key data contentType contentMD5 =
    (files', (etag, None)) ->
  objectPath b bucket key <>
    tempPath (Filepath.Dir (objectPath b bucket key)) rnd ->
  etag = quote (MD5.hexsum data) /\
  files' !! objectPath b bucket key = Some data /\
  files' !! metadataPath b bucket key =
    Some (Marshal (Metadata contentType etag (Z.of_nat (length data)))).
Proof.
  pose proof (metadataPath_ne_tempPath b bucket key
                (Filepath.Dir (objectPath b bucket key)) rnd) as Hmt.
  pose proof (metadataPath_ne_objectPath b bucket key) as Hmo.
  unfold Put. intros Hput Hot.
  repeat (case_match; cbn [fst snd] in *; try discriminate Hput).
  rewrite lookup_insert_ne, lookup_insert_eq in * by done.
  simplify_eq. split_and!; [done|..].
  - rewrite lookup_delete_ne by done. by rewrite lookup_insert_eq.
  - rewrite lookup_delete_ne, lookup_insert_ne, lookup_delete_ne by done.
    by rewrite lookup_insert_eq.
Qed.

Lemma Get_stored b files bucket key m d :
  files !! metadataPath b bucket key = Some (Marshal m) ->
  files !! objectPath b bucket key = Some d ->
  Get b files bucket key "" =
  GetResult (Some d) (ContentType m) (ETag m) (Size m) 200 None.
Proof.
  intros Hm Ho. unfold Get. by rewrite Hm, LocalFS_Unmarshal_Marshal, Ho.
Qed.



(** C6 at its failing inputs.  A bound that is not a number is read as 0, so
    [bytes=x-5] is served as bytes 0 to 5 instead of being rejected; a range
    the backend rejects with 416 leaves the node as a 500; and for the valid
    range [bytes=2-5] the gateway sends the Content-Range header
    [bytes bytes=2-5], where the node sends [bytes 2-5/*]. *)
Theorem Range_requests_at_failing_inputs :
  let b := NodeServer.backend Examples.node_digits in
  let files := NodeServer.files Examples.node_digits in
  parseRange "bytes=x-5" 10 = (0, 5, None) /\
  Get b files "b" "k" "bytes=x-5" =
    GetResult (Some (Bytes.of_string "012345")) "text/plain"
      (quote "781e5e245d69b566979b86e28d23f2c7") 6 206 None /\
  g_status (Get b files "b" "k" "bytes=5-10") = 416 /\
  NodeServer.status (NodeServer.handleGet Examples.node_digits "b" "k" "bytes=5-10")
    = 500 /\
  Get b files "b" "k" "bytes=2-5" =
    GetResult (Some (Bytes.of_string "2345")) "text/plain"
      (quote "781e5e245d69b566979b86e28d23f2c7") 4 206 None /\
  NodeServer.header (NodeServer.handleGet Examples.node_digits "b" "k" "bytes=2-5")
    !! "Content-Range" = Some "bytes 2-5/*" /\
  NodeServer.header
    (GatewayServer.handleGet "/b/k" "bytes=2-5"
       (HTTPBackend.Get Examples.world_digits "node1" "b" "k" "bytes=2-5"))
    !! "Content-Range" = Some "bytes bytes=2-5".
Proof. vm_compute. split_and!; reflexivity. Qed.

End LocalFSFacts.

(** ** Nodes over HTTP *)

Section HTTPFacts.

Import Strings LocalFSBackend NodeServer.








End HTTPFacts.

(** ** Erasure-coding coordinator *)

Section ECFacts.

Import LocalFSBackend ECBackend.







(** C7 at its failing input.  An erasure-coded Get never looks at the range:
    whatever the range, the result is that of a Get without one, so a Get of
    [bytes=2-5] on the ten digits returns all ten bytes with status 200. *)
Theorem ECBackend_Get_ignores_range :
  (forall ec w bucket key rangeSpec,
     ECBackend.Get ec w bucket key rangeSpec = ECBackend.Get ec w bucket key "") /\
  ECBackend.Get Examples.ec1 Examples.world_ec_digits "b" "k" "bytes=2-5" =
    GetResult (Some Examples.digits) "text/plain"
      (Strings.quote EmptyString) 10 200 None.
Proof. split; [reflexivity|vm_compute; reflexivity]. Qed.

End ECFacts.

(** ** Multipart manager *)

Section MultipartFacts.

Import MultipartManager.

Context {B : Type} `{Backend B}.

Implicit Types (m : MultipartManager.t B) (upload : MultipartUpload)
  (parts pre post : list CompletePart) (seen : gset Z).

Lemma seen_step seen (n prevNum : Z) :
  (forall x, x ∈ seen -> x <= prevNum) -> prevNum <= n ->
  forall x, x ∈ {[n]} ∪ seen -> x <= n.
Proof.
  intros Hseen Hle x [->%elem_of_singleton|Hx]%elem_of_union; [lia|].
  apply Hseen in Hx. lia.
Qed.

(** Part numbers seen so far never exceed the previous number, so the
    membership test of the loop never fires. *)
Lemma validate_loop_seen_irrelevant upload seen prevNum parts :
  (forall x, x ∈ seen -> x <= prevNum) ->
  validate_loop upload seen prevNum parts = validate_loop upload ∅ prevNum parts.
Proof.
  revert seen prevNum.
  induction parts as [|part rest IH]; intros seen prevNum Hseen; simpl; [done|].
  destruct (cpPartNumber part <=? prevNum) eqn:Hle; [done|].
  apply Z.leb_gt in Hle.
  rewrite !bool_decide_eq_false_2.
  2:{ apply not_elem_of_empty. }
  2:{ intros Hin. apply Hseen in Hin. lia. }
  destruct (Parts upload !! cpPartNumber part) as [stored|]; [|done].
  destruct (negb _); [done|].
  rewrite (IH ({[cpPartNumber part]} ∪ seen)), (IH ({[cpPartNumber part]} ∪ ∅));
    [done|..].
  - apply (seen_step _ _ prevNum); [|lia]. by intros x ?%not_elem_of_empty.
  - apply (seen_step _ _ prevNum); [done|lia].
Qed.

Lemma last_cons_default {A : Type} (l : list A) (a d : A) :
  List.last (a :: l) d = List.last l a.
Proof.
  revert a d. induction l as [|b l IH]; intros a d; [done|].
  change (List.last (a :: b :: l) d) with (List.last (b :: l) d).
  by rewrite (IH b d), (IH b a).
Qed.

Lemma last_number_cons prevNum part rest :
  last_number prevNum (part :: rest) = last_number (cpPartNumber part) rest.
Proof. unfold last_number. simpl map. apply last_cons_default. Qed.

(** A prefix that passes validation leaves the loop at its last number,
    which bounds every number of the prefix. *)
Lemma validate_loop_prefix upload prevNum pre rest :
  validate_loop upload ∅ prevNum pre = None ->
  validate_loop upload ∅ prevNum (pre ++ rest) =
    validate_loop upload ∅ (last_number prevNum pre) rest /\
  prevNum <= last_number prevNum pre /\
  (forall q, q ∈ pre -> prevNum < cpPartNumber q <= last_number prevNum pre).
Proof.
  revert prevNum. induction pre as [|part pre IH]; intros prevNum Hpre.
  - split_and!; [done|unfold last_number; simpl; lia|].
    intros q Hq. by apply elem_of_nil in Hq.
  - simpl in Hpre |- *. rewrite last_number_cons.
    destruct (cpPartNumber part <=? prevNum) eqn:Hle; [done|].
    apply Z.leb_gt in Hle.
    rewrite bool_decide_eq_false_2 in Hpre |- * by apply not_elem_of_empty.
    destruct (Parts upload !! cpPartNumber part) as [stored|]; [|done].
    destruct (negb _); [done|].
    assert (Hstep : forall x : Z, x ∈ ({[cpPartNumber part]} ∪ ∅ : gset Z) ->
                                  x <= cpPartNumber part).
    { apply (seen_step _ _ prevNum); [|lia]. by intros x ?%not_elem_of_empty. }
    rewrite validate_loop_seen_irrelevant in Hpre |- * by done.
    destruct (IH _ Hpre) as (Heq & Hlast & Hall).
    split_and!; [done|lia|].
    intros q [->|Hq]%elem_of_cons; [lia|]. specialize (Hall q Hq). lia.
Qed.

(** What passes validation is strictly increasing and matches the stored
    entries. *)
Lemma validate_loop_None upload prevNum parts :
  validate_loop upload ∅ prevNum parts = None ->
  StronglySorted Z.lt (map cpPartNumber parts) /\
  Forall (fun part =>
            exists stored, Parts upload !! cpPartNumber part = Some stored /\
              ETag stored = cpETag part) parts.
Proof.
  revert prevNum. induction parts as [|part rest IH]; intros prevNum Hv.
  - split; constructor.
  - simpl in Hv.
    destruct (cpPartNumber part <=? prevNum) eqn:Hle; [done|].
    rewrite bool_decide_eq_false_2 in Hv by apply not_elem_of_empty.
    destruct (Parts upload !! cpPartNumber part) as [stored|] eqn:Hst; [|done].
    destruct (String.eqb_spec (ETag stored) (cpETag part)) as [Het|Het];
      simpl in Hv; [|done].
    rewrite validate_loop_seen_irrelevant in Hv.
    2:{ apply (seen_step _ _ prevNum); [|lia]. by intros x ?%not_elem_of_empty. }
    destruct (IH _ Hv) as (Hsorted & Hall).
    destruct (validate_loop_prefix upload (cpPartNumber part) rest [] Hv)
      as (_ & _ & Hbound).
    split.
    + constructor; [done|]. apply Forall_forall. intros n Hn.
      apply list_elem_of_In, in_map_iff in Hn as (q & <- & Hq).
      by apply Hbound, list_elem_of_In.
    + constructor; eauto.
Qed.

Lemma assemble_present m uploadID parts :
  Forall (fun part => is_Some (scratch m !! (uploadID, cpPartNumber part))) parts ->
  assemble m uploadID parts =
  Some (concat (map (part_file m uploadID) parts),
        concat (map MD5.Sum (map (part_file m uploadID) parts))).
Proof.
  induction 1 as [|part rest [pf Hpf] Hrest IH]; simpl; [done|].
  unfold part_file at 1 3. by rewrite Hpf, IH.
Qed.

Lemma upload_on_disk_lookup m uploadID upload n stored :
  upload_on_disk m uploadID upload = true ->
  Parts upload !! n = Some stored ->
  exists data, scratch m !! (uploadID, n) = Some data /\
    ETag stored = Strings.quote (Hex.EncodeToString (MD5.Sum data)).
Proof.
  unfold upload_on_disk. rewrite forallb_forall. intros Hall Hst.
  specialize (Hall (n, stored)). unfold part_on_disk in Hall. simpl in Hall.
  destruct (scratch m !! (uploadID, n)) as [data|].
  - exists data. split; [done|]. apply String.eqb_eq, Hall.
    by apply list_elem_of_In, elem_of_map_to_list.
  - discriminate Hall. by apply list_elem_of_In, elem_of_map_to_list.
Qed.

Lemma upload_on_disk_intro m uploadID upload :
  (forall n info, Parts upload !! n = Some info ->
     part_on_disk m uploadID n info = true) ->
  upload_on_disk m uploadID upload = true.
Proof.
  intros Hall. unfold upload_on_disk. apply forallb_forall.
  intros [n info] Hin. apply Hall. by apply elem_of_map_to_list, list_elem_of_In.
Qed.

Lemma upload_on_disk_elim m uploadID upload n info :
  upload_on_disk m uploadID upload = true ->
  Parts upload !! n = Some info -> part_on_disk m uploadID n info = true.
Proof.
  unfold upload_on_disk. rewrite forallb_forall. intros Hall Hn.
  apply (Hall (n, info)). by apply list_elem_of_In, elem_of_map_to_list.
Qed.

(** Uploads are staged from the start and stay so through Initiate and
    UploadPart. *)
Lemma staged_New (b : B) : staged (NewMultipartManager b).
Proof. intros uploadID upload Hup. simpl in Hup. by apply lookup_empty_Some in Hup. Qed.

Lemma staged_InitiateUpload m uploadID bucket key :
  staged m -> staged (InitiateUpload m uploadID bucket key).
Proof.
  intros Hm id upload. unfold InitiateUpload. simpl.
  destruct (decide (uploadID = id)) as [->|Hne].
  - rewrite lookup_insert_eq. intros [= <-]. apply upload_on_disk_intro.
    intros n info Hn. simpl in Hn. by apply lookup_empty_Some in Hn.
  - rewrite lookup_insert_ne by done. intros Hup.
    apply upload_on_disk_intro. intros n info Hn.
    apply (upload_on_disk_elim _ _ _ _ _ (Hm _ _ Hup) Hn).
Qed.

Lemma staged_UploadPart m uploadID partNumber data :
  staged m -> staged (UploadPart m uploadID partNumber data).1.
Proof.
  intros Hm. unfold UploadPart.
  destruct (uploads m !! uploadID) as [upload|] eqn:Hup; [|done].
  destruct (_ || _); [done|]. destruct (negb _); [done|]. simpl.
  intros id upload'. simpl.
  destruct (decide (uploadID = id)) as [->|Hne].
  - rewrite lookup_insert_eq. intros [= <-]. apply upload_on_disk_intro.
    simpl. intros n info. unfold part_on_disk. simpl.
    destruct (decide (partNumber = n)) as [->|Hn].
    + rewrite !lookup_insert_eq. intros [= <-]. simpl. apply String.eqb_refl.
    + rewrite !lookup_insert_ne by congruence. intros Hinfo.
      apply (upload_on_disk_elim _ _ _ _ _ (Hm _ _ Hup) Hinfo).
  - rewrite lookup_insert_ne by done. intros Hup'.
    apply upload_on_disk_intro. intros n info Hn. unfold part_on_disk. simpl.
    rewrite lookup_insert_ne by congruence.
    apply (upload_on_disk_elim _ _ _ _ _ (Hm _ _ Hup') Hn).
Qed.

Lemma validateParts_loop upload parts :
  validateParts upload parts = None ->
  parts <> [] /\ validate_loop upload ∅ 0 parts = None.
Proof. by destruct parts. Qed.

(** On a backend whose Put succeeds with the context it is given, as the
    node-local store of the tests does: a Complete of an upload whose parts
    are staged, with a part list that passes validation, hands the backend
    the concatenation of the referenced part files, which the validated
    list names in increasing part-number order, and returns the quoted hex
    MD5 of the concatenated raw part digests followed by a dash and the
    number of parts; each listed ETag is the quoted hex MD5 of its part. *)
Theorem CompleteUpload_concatenates_parts m uploadID upload parts b' etag' :
  uploads m !! uploadID = Some upload ->
  upload_on_disk m uploadID upload = true ->
  validateParts upload parts = None ->
  let bodies := map (part_file m uploadID) parts in
  bPut (backend m) (Bucket upload) (Key upload) (concat bodies)
    "application/octet-stream" "" = (b', (etag', None)) ->
  CompleteUpload m uploadID parts =
    (cleanup (MultipartManager.Build (uploads m) (dirs m) (scratch m) b') uploadID,
     (composite_etag bodies, None)) /\
  StronglySorted Z.lt (map cpPartNumber parts) /\
  Forall (fun part =>
            scratch m !! (uploadID, cpPartNumber part) =
              Some (part_file m uploadID part) /\
            cpETag part =
              Strings.quote
                (Hex.EncodeToString (MD5.Sum (part_file m uploadID part))))
    parts /\
  complete_status (CompleteUpload m uploadID parts).2 = (EmptyString, 200).
Proof.
  intros Hup Hdisk Hval bodies Hput.
  destruct (validateParts_loop _ _ Hval) as [Hne Hloop].
  destruct (validate_loop_None _ _ _ Hloop) as [Hsorted Hstored].
  assert (Hparts : Forall (fun part =>
            scratch m !! (uploadID, cpPartNumber part) =
              Some (part_file m uploadID part) /\
            cpETag part =
              Strings.quote
                (Hex.EncodeToString (MD5.Sum (part_file m uploadID part))))
            parts).
  { eapply Forall_impl; [exact Hstored|].
    intros part (stored & Hst & Het). simpl.
    destruct (upload_on_disk_lookup _ _ _ _ _ Hdisk Hst) as (data & Hdata & He).
    unfold part_file. rewrite Hdata. simpl. split; [done|]. by rewrite <- Het. }
  assert (Hcomplete : CompleteUpload m uploadID parts =
            (cleanup (MultipartManager.Build (uploads m) (dirs m) (scratch m) b')
               uploadID, (composite_etag bodies, None))).
  { unfold CompleteUpload. rewrite Hup, Hval, assemble_present.
    - fold bodies. rewrite Hput. unfold composite_etag, bodies.
      by rewrite length_map.
    - eapply Forall_impl; [exact Hparts|]. intros part [Hf _]. by rewrite Hf. }
  split_and!; [done..|]. by rewrite Hcomplete.
Qed.

(** C4 at its failing input.  In the upload of the validation test a list
    naming part 1 twice is rejected with InvalidPartOrder, and so is every
    list that repeats a part number after a prefix that passes validation:
    the order test precedes the duplicate test and subsumes it.  The other
    rejections are as listed: a number below its predecessor gives
    InvalidPartOrder, a number or ETag without a matching stored entry gives
    InvalidPart, and so does the empty list. *)
Theorem validateParts_duplicate_gives_InvalidPartOrder :
  validateParts Examples.upload_two_parts
    [Build_CompletePart 1 (Examples.etag_of Examples.part1);
     Build_CompletePart 1 (Examples.etag_of Examples.part1)] =
    Some "InvalidPartOrder"%string /\
  (forall upload pre part post,
     validateParts upload pre = None ->
     (exists q, q ∈ pre /\ cpPartNumber q = cpPartNumber part) ->
     validateParts upload (pre ++ part :: post) = Some "InvalidPartOrder"%string) /\
  (forall upload pre part post,
     validateParts upload pre = None ->
     cpPartNumber part <= last_number 0 pre ->
     validateParts upload (pre ++ part :: post) = Some "InvalidPartOrder"%string) /\
  (forall upload pre part post,
     pre = [] \/ validateParts upload pre = None ->
     last_number 0 pre < cpPartNumber part ->
     (forall stored, Parts upload !! cpPartNumber part = Some stored ->
        ETag stored <> cpETag part) ->
     validateParts upload (pre ++ part :: post) = Some "InvalidPart"%string) /\
  (forall upload, validateParts upload [] = Some "InvalidPart"%string).
Proof.
  assert (Horder : forall upload pre part post,
            validateParts upload pre = None ->
            cpPartNumber part <= last_number 0 pre ->
            validateParts upload (pre ++ part :: post) = Some "InvalidPartOrder"%string).
  { intros upload pre part post Hpre Hle.
    destruct (validateParts_loop _ _ Hpre) as [Hne Hloop].
    destruct (validate_loop_prefix upload 0 pre (part :: post) Hloop)
      as (Heq & _ & _).
    unfold validateParts. destruct pre as [|p0 pre]; [done|].
    rewrite <- app_comm_cons, app_comm_cons, Heq. simpl.
    by apply Z.leb_le in Hle as ->. }
  split_and!.
  - vm_compute. reflexivity.
  - intros upload pre part post Hpre (q & Hq & Heq). apply Horder; [done|].
    destruct (validateParts_loop _ _ Hpre) as [Hne Hloop].
    destruct (validate_loop_prefix upload 0 pre [] Hloop) as (_ & _ & Hb).
    specialize (Hb q Hq). lia.
  - exact Horder.
  - intros upload pre part post Hpre Hlt Hst.
    assert (Hstep : validate_loop upload ∅ (last_number 0 pre) (part :: post) =
                    Some "InvalidPart"%string).
    { simpl. apply Z.leb_gt in Hlt as ->.
      rewrite bool_decide_eq_false_2 by apply not_elem_of_empty.
      destruct (Parts upload !! cpPartNumber part) as [stored|] eqn:E; [|done].
      specialize (Hst stored eq_refl).
      by apply String.eqb_neq in Hst as ->. }
    destruct Hpre as [->|Hpre]; [exact Hstep|].
    destruct (validateParts_loop _ _ Hpre) as [Hne Hloop].
    destruct (validate_loop_prefix upload 0 pre (part :: post) Hloop)
      as (Heq & _ & _).
    unfold validateParts. destruct pre as [|p0 pre]; [done|].
    rewrite <- app_comm_cons, app_comm_cons, Heq. exact Hstep.
  - done.
Qed.

End MultipartFacts.

Lemma CompleteUpload_concatenates_parts_witness :
  (MultipartManager.CompleteUpload Examples.manager_two_parts "u1"
     [MultipartManager.Build_CompletePart 1 (Examples.etag_of Examples.part1);
      MultipartManager.Build_CompletePart 2 (Examples.etag_of Examples.part2)]).2 =
  (Strings.quote "620e8b191a353bdc9189840bb3904928-2", None).
Proof.
  set (parts :=
         [MultipartManager.Build_CompletePart 1 (Examples.etag_of Examples.part1);
          MultipartManager.Build_CompletePart 2 (Examples.etag_of Examples.part2)]).
  set (put := bPut (MultipartManager.backend Examples.manager_two_parts)
                "test" "key" (Examples.part1 ++ Examples.part2)
                "application/octet-stream" "").
  assert (Hup : MultipartManager.uploads Examples.manager_two_parts !! "u1"%string =
                Some Examples.upload_two_parts) by (vm_compute; reflexivity).
  assert (Hput : bPut (MultipartManager.backend Examples.manager_two_parts)
                   (MultipartManager.Bucket Examples.upload_two_parts)
                   (MultipartManager.Key Examples.upload_two_parts)
                   (concat (map (MultipartManager.part_file
                                   Examples.manager_two_parts "u1") parts))
                   "application/octet-stream" "" =
                 (put.1, (put.2.1, None))) by (vm_compute; reflexivity).
  destruct (CompleteUpload_concatenates_parts Examples.manager_two_parts "u1"
              Examples.upload_two_parts parts put.1 put.2.1 Hup
              ltac:(vm_compute; reflexivity) ltac:(vm_compute; reflexivity) Hput)
    as (-> & _).
  vm_compute. reflexivity.
Defined.

(** ** Complete on the backends of a gateway *)

Section CompleteOnGateway.

Import LocalFSBackend MultipartManager.

(** For a backend that ignores its context, such as the node-local store,
    this is [CompleteUpload]. *)
Lemma CompleteUploadOn_ignoring {B : Type} `{Backend B} (m : MultipartManager.t B)
    uploadID parts :
  CompleteUploadOn (fun _ => bPut) m uploadID parts =
  CompleteUpload m uploadID parts.
Proof. reflexivity. Qed.

(** Under a context in use the fan-out is the one of [node_puts], and a Put
    run to its end returns what [ClusterBackend.Put] returns once every
    node has delivered. *)
Lemma node_puts_context_live c w bucket key data ct md5 :
  ClusterBackend.node_puts_context HTTPBackend.live_Context c w bucket key
    data ct md5 =
  ClusterBackend.node_puts c w bucket key data ct md5.
Proof. reflexivity. Qed.

Lemma node_puts_context_length ctx c w bucket key data ct md5 :
  length (ClusterBackend.node_puts_context ctx c w bucket key data ct md5).2 =
  length (ClusterBackend.put_nodes c bucket key).
Proof.
  unfold ClusterBackend.node_puts_context.
  assert (Hgen : forall (ns : list string) (acc : world * list ClusterBackend.put_result),
            length (fold_left
              (fun a n =>
                 let '(nodes', (etag, err)) :=
                   HTTPBackend.PutContext ctx a.1 n bucket key data ct md5 in
                 (nodes', a.2 ++ [ClusterBackend.PutResult n etag err]))
              ns acc).2 = (length acc.2 + length ns)%nat).
  { induction ns as [|n ns IH]; intros acc; simpl; [lia|].
    rewrite IH.
    destruct (HTTPBackend.PutContext ctx acc.1 n bucket key data ct md5)
      as [w' [etag err]].
    simpl. rewrite length_app. simpl. lia. }
  by rewrite Hgen.
Qed.

Lemma PutContext_Put ctx c w bucket key data ct md5 :
  ClusterBackend.Put c bucket key (inl data)
    (ClusterBackend.node_puts_context ctx c w bucket key data ct md5).2 =
  Returned (ClusterBackend.PutContext ctx c w bucket key data ct md5).2.
Proof.
  unfold ClusterBackend.Put, ClusterBackend.PutContext.
  destruct (length (ClusterBackend.put_nodes c bucket key) =? 0)%nat; [done|].
  rewrite node_puts_context_length, Nat.ltb_irrefl.
  rewrite <- (node_puts_context_length ctx c w bucket key data ct md5),
    firstn_all.
  destruct (ClusterBackend.node_puts_context ctx c w bucket key data ct md5)
    as [w' delivered].
  simpl. destruct (fold_left ClusterBackend.put_step delivered (0, ""%string))
    as [successes firstETag].
  by destruct (successes <? ClusterBackend.w c).
Qed.

(** With a nil context no node is reached. *)
Lemma node_puts_context_nil c w bucket key data ct md5 :
  ClusterBackend.node_puts_context HTTPBackend.nil_Context c w bucket key
    data ct md5 =
  (w, map (fun n => ClusterBackend.PutResult n EmptyString
                      (Some "net/http: nil Context"%string))
        (ClusterBackend.put_nodes c bucket key)).
Proof.
  unfold ClusterBackend.node_puts_context.
  assert (Hgen : forall (ns : list string) (acc : list ClusterBackend.put_result),
            fold_left
              (fun (a : world * list ClusterBackend.put_result) n =>
                 let '(nodes', (etag, err)) :=
                   HTTPBackend.PutContext HTTPBackend.nil_Context a.1 n bucket
                     key data ct md5 in
                 (nodes', a.2 ++ [ClusterBackend.PutResult n etag err]))
              ns (w, acc) =
            (w, acc ++
                map (fun n => ClusterBackend.PutResult n EmptyString
                                (Some "net/http: nil Context"%string)) ns)).
  { induction ns as [|n ns IH]; intros acc; simpl; [by rewrite app_nil_r|].
    by rewrite IH, <- app_assoc. }
  apply Hgen.
Qed.

Lemma successes_none (l : list ClusterBackend.put_result) :
  (forall res, res ∈ l -> ClusterBackend.p_err res <> None) ->
  ClusterBackend.successes l = 0.
Proof.
  induction l as [|res l IH]; intros Hall; [done|].
  rewrite successes_cons, IH by (intros r Hr; apply Hall; by right).
  unfold ClusterBackend.put_ok. specialize (Hall res ltac:(by left)).
  by destruct (ClusterBackend.p_err res).
Qed.

(** A replicated Put under a nil context fails when the write quorum is at
    least one, and leaves the nodes as they are. *)
Lemma Cluster_PutContext_nil c w bucket key data ct md5 :
  1 <= ClusterBackend.w c ->
  ClusterBackend.PutContext HTTPBackend.nil_Context c w bucket key data ct md5 =
  (w, (EmptyString,
       Some (if (length (ClusterBackend.put_nodes c bucket key) =? 0)%nat
             then "no nodes available"%string
             else ("write quorum not met: 0/" +:+
                   Strconv.Itoa (ClusterBackend.w c))%string))).
Proof.
  intros Hw. unfold ClusterBackend.PutContext.
  destruct (length (ClusterBackend.put_nodes c bucket key) =? 0)%nat; [done|].
  rewrite node_puts_context_nil, put_loop_spec, successes_none.
  - cbn [fst snd]. change (0 + 0) with 0.
    destruct (Z.ltb_spec 0 (ClusterBackend.w c)); [done|lia].
  - by intros res (n & -> & _)%list_elem_of_fmap.
Qed.

Lemma put_shards_context_nil ec w bucket key idx shards :
  (ECBackend.put_shards_context HTTPBackend.nil_Context ec w bucket key idx
     shards).1 = w.
Proof.
  revert idx. induction shards as [|shard rest IH]; intros idx; simpl; [done|].
  destruct (ECBackend.nodes ec !! idx) as [node|]; [|done].
  specialize (IH (S idx)).
  destruct (ECBackend.put_shards_context _ ec w bucket key (S idx) rest)
    as [w'' err']. done.
Qed.

(** An erasure-coded Put under a nil context fails and leaves the nodes as
    they are. *)
Lemma EC_PutContext_nil ec tmp w bucket key data ct md5 :
  exists e,
    ECBackend.PutContext HTTPBackend.nil_Context ec tmp w bucket key data ct md5 =
      (w, (EmptyString, Some e)).
Proof.
  unfold ECBackend.PutContext. destruct tmp as [e|]; [by exists e|].
  destruct (@Split (ECBackend.encoder ec) data) as [shards|e];
    [|by exists e].
  destruct (@Encode (ECBackend.encoder ec) shards) as [shards'|e];
    [|by exists e].
  simpl.
  pose proof (put_shards_context_nil ec w bucket key 0 shards') as Hw.
  destruct (ECBackend.put_shards_context _ ec w bucket key 0 shards')
    as [w2 err1]. simpl in Hw. subst w2.
  by exists "net/http: nil Context"%string.
Qed.

(** A Complete whose backend Put fails leaves the manager as it is when the
    backend is. *)
Lemma CompleteUploadOn_valid {B : Type}
    (put : HTTPBackend.Context -> B -> string -> string -> list byte ->
           string -> string -> B * (string * error))
    (m : MultipartManager.t B) uploadID upload parts :
  uploads m !! uploadID = Some upload ->
  validateParts upload parts = None ->
  (forall bucket key data ct md5, exists e,
     put HTTPBackend.nil_Context (backend m) bucket key data ct md5 =
       (backend m, (EmptyString, Some e))) ->
  exists e,
    CompleteUploadOn put m uploadID parts = (m, (EmptyString, Some e)) /\
    (e = "open: no such file or directory"%string \/
     exists data,
       put HTTPBackend.nil_Context (backend m) (Bucket upload) (Key upload)
         data "application/octet-stream" "" =
         (backend m, (EmptyString, Some e))).
Proof.
  intros Hup Hval Hput. unfold CompleteUploadOn. rewrite Hup, Hval.
  destruct (assemble m uploadID parts) as [[final sums]|];
    [|exists "open: no such file or directory"%string; split; [done|by left]].
  destruct (Hput (Bucket upload) (Key upload) final
              "application/octet-stream"%string ""%string) as [e He].
  rewrite He. exists e. split; [by destruct m|]. right. by exists final.
Qed.

End CompleteOnGateway.

(** C3 at its failing input.  A gateway is built with the replicated or the
    erasure-coded backend, and [CompleteUpload] calls their [Put] with a nil
    context, which the HTTP client refuses before it sends anything.  So on
    a gateway a Complete with a valid, in-order part list stores no object
    and returns no composite ETag: on the replicated backend (write quorum
    at least one) it is answered with InternalError (500), on the
    erasure-coded backend with an error as well, and the manager and the
    nodes are as before.  For the upload of the validation test, parts 1 and
    2 listed in order with their ETags: the error is [write quorum not met:
    0/2] on three replicas and [net/http: nil Context] under erasure
    coding, both with status 500. *)
Theorem CompleteUpload_fails_on_gateway_backends :
  (forall (m : MultipartManager.t (ClusterBackend.t * world)) uploadID upload
          parts,
     MultipartManager.uploads m !! uploadID = Some upload ->
     MultipartManager.validateParts upload parts = None ->
     1 <= ClusterBackend.w (MultipartManager.backend m).1 ->
     exists e,
       MultipartManager.CompleteUploadOn ClusterBackend.put m uploadID parts =
         (m, (EmptyString, Some e)) /\
       MultipartManager.complete_status (EmptyString, Some e) =
         ("InternalError"%string, 500)) /\
  (forall tmp (m : MultipartManager.t (ECBackend.t * world)) uploadID upload
          parts,
     MultipartManager.uploads m !! uploadID = Some upload ->
     MultipartManager.validateParts upload parts = None ->
     exists e,
       MultipartManager.CompleteUploadOn (ECBackend.put tmp) m uploadID parts =
         (m, (EmptyString, Some e))) /\
  (let parts :=
     [MultipartManager.Build_CompletePart 1 (Examples.etag_of Examples.part1);
      MultipartManager.Build_CompletePart 2 (Examples.etag_of Examples.part2)] in
   MultipartManager.validateParts Examples.upload_two_parts parts = None /\
   MultipartManager.uploads Examples.gateway_two_parts !! "u1"%string =
     Some Examples.upload_two_parts /\
   MultipartManager.uploads Examples.gateway_ec_two_parts !! "u1"%string =
     Some Examples.upload_two_parts /\
   MultipartManager.CompleteUploadOn ClusterBackend.put
     Examples.gateway_two_parts "u1" parts =
     (Examples.gateway_two_parts,
      (EmptyString, Some "write quorum not met: 0/2"%string)) /\
   MultipartManager.CompleteUploadOn (ECBackend.put None)
     Examples.gateway_ec_two_parts "u1" parts =
     (Examples.gateway_ec_two_parts,
      (EmptyString, Some "net/http: nil Context"%string)) /\
   MultipartManager.complete_status
     (EmptyString, Some "write quorum not met: 0/2"%string) =
     ("InternalError"%string, 500) /\
   MultipartManager.complete_status
     (EmptyString, Some "net/http: nil Context"%string) =
     ("InternalError"%string, 500)).
Proof.
  split_and!.
  - intros m uploadID upload parts Hup Hval Hw.
    destruct (CompleteUploadOn_valid ClusterBackend.put m uploadID upload parts
                Hup Hval) as (e & Hres & He).
    { intros bucket key data ct md5. unfold ClusterBackend.put.
      rewrite Cluster_PutContext_nil by done. simpl.
      rewrite <- surjective_pairing. by eexists. }
    exists e. split; [done|]. destruct He as [->|(data & He)]; [done|].
    unfold ClusterBackend.put in He.
    rewrite Cluster_PutContext_nil in He by done. simpl in He.
    injection He as _ <-.
    by destruct (length _ =? 0)%nat.
  - intros tmp m uploadID upload parts Hup Hval.
    destruct (CompleteUploadOn_valid (ECBackend.put tmp) m uploadID upload parts
                Hup Hval) as (e & Hres & _); [|by exists e].
    intros bucket key data ct md5. unfold ECBackend.put.
    destruct (EC_PutContext_nil (MultipartManager.backend m).1 tmp
                (MultipartManager.backend m).2 bucket key data ct md5)
      as (e & ->).
    simpl. exists e. by rewrite <- surjective_pairing.
  - intros parts. split_and!; vm_compute; reflexivity.
Qed.


(** ** Request coalescer *)

Section CoalescerFacts.

Import RequestCoalescer.

Implicit Types (s : RequestCoalescer.t) (g : goroutine) (p : pc) (tid q : nat).

(** Moving one goroutine changes a count by that goroutine alone. *)
Lemma countb_insert {A : Type} (f : A -> bool) (l : list A) i x y :
  l !! i = Some x ->
  (countb f (<[i := y]> l) + (if f x then 1 else 0) =
   countb f l + (if f y then 1 else 0))%nat.
Proof.
  revert i. induction l as [|a l IH]; intros [|i] Hi; simpl in *; try done.
  - injection Hi as ->. lia.
  - specialize (IH i Hi). lia.
Qed.

(** The goroutines after a move: the one that moved, the others as they
    were. *)
Lemma move_lookup_inv s tid g p tid' g' :
  threads s !! tid = Some g ->
  move s tid g p !! tid' = Some g' ->
  (tid' = tid /\ g' = set_pc g p) \/
  (tid' <> tid /\ threads s !! tid' = Some g').
Proof.
  intros Hg. unfold move. destruct (decide (tid' = tid)) as [->|Hne].
  - rewrite list_lookup_insert_eq by (by eapply lookup_lt_Some).
    intros [= <-]. by left.
  - rewrite list_lookup_insert_ne by done. by right.
Qed.

Lemma move_lookup_keep s tid g p tid' g' :
  threads s !! tid = Some g ->
  threads s !! tid' = Some g' ->
  exists g'', move s tid g p !! tid' = Some g'' /\
    t_key g'' = t_key g' /\ t_fn g'' = t_fn g' /\ (tid' <> tid -> g'' = g').
Proof.
  intros Hg Hg'. unfold move. destruct (decide (tid' = tid)) as [->|Hne].
  - exists (set_pc g p). rewrite list_lookup_insert_eq by (by eapply lookup_lt_Some).
    assert (g' = g) as -> by congruence. done.
  - exists g'. rewrite list_lookup_insert_ne by done. done.
Qed.

Lemma move_lookup_eq s tid g p :
  threads s !! tid = Some g -> move s tid g p !! tid = Some (set_pc g p).
Proof.
  intros Hg. unfold move. apply list_lookup_insert_eq. by eapply lookup_lt_Some.
Qed.

Lemma move_lookup_ne s tid g p tid' :
  tid' <> tid -> move s tid g p !! tid' = threads s !! tid'.
Proof. intros Hne. unfold move. by apply list_lookup_insert_ne. Qed.

Lemma calling_move s tid g p :
  threads s !! tid = Some g ->
  (countb is_calling (move s tid g p) +
   match t_pc g with Calling _ => 1 | _ => 0 end =
   countb is_calling (threads s) +
   match p with Calling _ => 1 | _ => 0 end)%nat.
Proof.
  intros Hg.
  pose proof (countb_insert is_calling (threads s) tid g (set_pc g p) Hg) as Hc.
  unfold move. replace (if is_calling g then 1 else 0)%nat
    with (match t_pc g with Calling _ => 1 | _ => 0 end)%nat in Hc
    by (unfold is_calling; by destruct (t_pc g)).
  replace (if is_calling (set_pc g p) then 1 else 0)%nat
    with (match p with Calling _ => 1 | _ => 0 end)%nat in Hc
    by (unfold is_calling; simpl; by destruct p).
  done.
Qed.

Lemma alter_lookup_inv {A : Type} (f : A -> A) q (h : list A) q' r' :
  alter f q h !! q' = Some r' ->
  exists r, h !! q' = Some r /\
    ((q' = q /\ r' = f r) \/ (q' <> q /\ r' = r)).
Proof.
  destruct (decide (q' = q)) as [->|Hne].
  - rewrite list_lookup_alter_eq. destruct (h !! q) as [r|]; [|done].
    intros [= <-]. exists r. auto.
  - rewrite list_lookup_alter_ne by done. intros Hr. exists r'. auto.
Qed.

(** The invariant holds before any goroutine has moved. *)
Lemma inv_init callers : inv (NewRequestCoalescer callers).
Proof.
  assert (Hpc : forall tid g,
            threads (NewRequestCoalescer callers) !! tid = Some g -> t_pc g = Start).
  { unfold NewRequestCoalescer. simpl.
    induction callers as [|c callers IH]; intros [|tid] g Hg; simpl in Hg;
      try done.
    - by injection Hg as <-.
    - by eapply IH. }
  split.
  - intros tid g q Hg Hq. apply Hpc in Hg. rewrite Hg in Hq. done.
  - intros tid1 tid2 g1 g2 q Hg1 _ Hq. apply Hpc in Hg1. rewrite Hg1 in Hq. done.
  - intros q r tid g Hr. done.
  - intros tid g q v Hg Hq. apply Hpc in Hg. rewrite Hg in Hq. done.
  - intros k q Hk. done.
  - intros tid g q Hg Hq. apply Hpc in Hg. rewrite Hg in Hq. done.
  - clear Hpc. simpl. induction callers as [|c callers IH]; simpl; [done|].
    simpl in IH. lia.
  - intros tid g q c Hg Hq. apply Hpc in Hg. rewrite Hg in Hq. done.
  - intros tid g q Hg Hq. apply Hpc in Hg. rewrite Hg in Hq. done.
  - intros q r Hr. done.
Qed.

(** Case analysis on which goroutine a look-up after a move finds. *)
Ltac thr Hg :=
  repeat match goal with
  | H : move _ _ _ _ !! _ = Some _ |- _ =>
      destruct (move_lookup_inv _ _ _ _ _ _ Hg H) as [[-> ->]|[? ?]]; clear H
  end.

(** Each step of [Do] keeps the invariant. *)
Lemma inv_step_Start s tid g :
  inv s -> threads s !! tid = Some g -> t_pc g = Start ->
  forall st, inv (Build (inflight s) (heap s) st (move s tid g Entered) (calls s)).
Proof.
  intros I Hg Hpc st. split; simpl.
  - intros tid' g' q H Hq. thr Hg; [done|]. eapply inv_bound; eauto.
  - intros t1 t2 g1 g2 q H1 H2 Hq1 Hq2. thr Hg; try done.
    eapply inv_unique; eauto.
  - intros q r tid' g' Hr Hd H. thr Hg; [done|]. eapply inv_done; eauto.
  - intros tid' g' q v H Hq. thr Hg; [done|]. eapply inv_returned; eauto.
  - intros k q Hk. destruct (inv_table s I k q Hk) as (t0 & g0 & H0 & Hk0 & Hq0).
    destruct (move_lookup_keep s tid g Entered t0 g0 Hg H0)
      as (g1 & H1 & ? & ? & Hne).
    exists t0, g1. split; [done|]. 
    assert (t0 <> tid)
      by (intros ->; rewrite Hg in H0; injection H0 as <-; by rewrite Hpc in Hq0).
    rewrite (Hne ltac:(done)). done.
  - intros tid' g' q H Hq. thr Hg; [done|]. eapply inv_registered; eauto.
  - pose proof (calling_move s tid g Entered Hg) as Hc. rewrite Hpc in Hc.
    pose proof (inv_calls s I). lia.
  - intros tid' g' q c H Hq. thr Hg; [done|]. eapply inv_running; eauto.
  - intros tid' g' q H Hq. thr Hg; [done|]. eapply inv_stored; eauto.
  - intros q r Hr Hd.
    destruct (inv_done_stored s I q r Hr Hd)
      as (t0 & g0 & c & H0 & Hres & Hc).
    destruct (move_lookup_keep s tid g Entered t0 g0 Hg H0)
      as (g1 & H1 & ? & Hfn & Hne).
    exists t0, g1, c. rewrite Hfn. done.
Qed.

Ltac keep_thread Hg H0 p :=
  let g1 := fresh "g1" in
  let H1 := fresh "H1" in
  let Hk := fresh "Hk" in
  let Hf := fresh "Hf" in
  let Hne := fresh "Hne" in
  destruct (move_lookup_keep _ _ _ p _ _ Hg H0) as (g1 & H1 & Hk & Hf & Hne).

Lemma inv_step_Waiting s tid g q r :
  inv s -> threads s !! tid = Some g -> t_pc g = Waiting q ->
  heap s !! q = Some r -> done r = true ->
  inv (Build (inflight s) (heap s) (stats s)
         (move s tid g (Returned q (res r))) (calls s)).
Proof.
  intros I Hg Hpc Hr Hd. split; simpl.
  - intros tid' g' q' H Hq. thr Hg; [|eapply inv_bound; eauto].
    simpl in Hq. injection Hq as <-. by eapply lookup_lt_Some.
  - intros t1 t2 g1 g2 q' H1 H2 Hq1 Hq2. thr Hg; try done.
    eapply inv_unique; eauto.
  - intros q' r' tid' g' Hr' Hd' H. thr Hg; [done|]. eapply inv_done; eauto.
  - intros tid' g' q' v H Hq. thr Hg; [|eapply inv_returned; eauto].
    simpl in Hq. injection Hq as <- <-. eauto.
  - intros k q' Hk. destruct (inv_table s I k q' Hk) as (t0 & g0 & H0 & Hk0 & Hq0).
    keep_thread Hg H0 (Returned q (res r)).
    assert (t0 <> tid)
      by (intros ->; rewrite Hg in H0; injection H0 as <-; by rewrite Hpc in Hq0).
    exists t0, g1. rewrite (Hne ltac:(done)) in *. done.
  - intros tid' g' q' H Hq. thr Hg; [done|]. eapply inv_registered; eauto.
  - pose proof (calling_move s tid g (Returned q (res r)) Hg) as Hc. rewrite Hpc in Hc.
    pose proof (inv_calls s I). lia.
  - intros tid' g' q' c H Hq. thr Hg; [done|]. eapply inv_running; eauto.
  - intros tid' g' q' H Hq. thr Hg; [done|]. eapply inv_stored; eauto.
  - intros q' r' Hr' Hd'.
    destruct (inv_done_stored s I q' r' Hr' Hd')
      as (t0 & g0 & c & H0 & Hres & Hc).
    keep_thread Hg H0 (Returned q (res r)).
    exists t0, g1, c. rewrite Hf. done.
Qed.

Lemma inv_step_Calling s tid g q :
  inv s -> threads s !! tid = Some g -> t_pc g = Calling q ->
  inv (Build (inflight s) (heap s) (stats s)
         (move s tid g (Running q (calls s))) (S (calls s))).
Proof.
  intros I Hg Hpc. split; simpl.
  - intros tid' g' q' H Hq. thr Hg; [|eapply inv_bound; eauto].
    simpl in Hq. injection Hq as <-. eapply inv_bound; eauto. by rewrite Hpc.
  - intros t1 t2 g1 g2 q' H1 H2 Hq1 Hq2. thr Hg; try done.
    + simpl in Hq2. injection Hq2 as <-.
      eapply (inv_unique s I t1 tid); eauto. by rewrite Hpc.
    + simpl in Hq1. injection Hq1 as <-. symmetry.
      eapply (inv_unique s I t2 tid); eauto. by rewrite Hpc.
    + eapply inv_unique; eauto.
  - intros q' r' tid' g' Hr' Hd' H. thr Hg; [|eapply inv_done; eauto].
    simpl. intros [= <-]. eapply (inv_done s I q r' tid g); eauto. by rewrite Hpc.
  - intros tid' g' q' v H Hq. thr Hg; [done|]. eapply inv_returned; eauto.
  - intros k q' Hk. destruct (inv_table s I k q' Hk) as (t0 & g0 & H0 & Hk0 & Hq0).
    keep_thread Hg H0 (Running q (calls s)).
    exists t0, g1. split; [done|]. split; [congruence|].
    destruct (decide (t0 = tid)) as [->|Hn].
    + rewrite (move_lookup_eq _ _ _ _ Hg) in H1. injection H1 as <-.
      rewrite Hg in H0. injection H0 as <-. rewrite Hpc in Hq0. done.
    + by rewrite (Hne Hn).
  - intros tid' g' q' H Hq. thr Hg; [|eapply inv_registered; eauto].
    simpl in *. injection Hq as <-. eapply inv_registered; eauto. by rewrite Hpc.
  - pose proof (calling_move s tid g (Running q (calls s)) Hg) as Hc. rewrite Hpc in Hc.
    pose proof (inv_calls s I). lia.
  - intros tid' g' q' c H Hq. thr Hg.
    + simpl in Hq. injection Hq as <- <-. lia.
    + pose proof (inv_running s I _ _ _ _ ltac:(eassumption) Hq). lia.
  - intros tid' g' q' H Hq. thr Hg; [done|].
    destruct (inv_stored s I _ _ _ ltac:(eassumption) Hq)
      as (r0 & c & ? & ? & ?).
    exists r0, c. repeat split; auto.
  - intros q' r' Hr' Hd'.
    destruct (inv_done_stored s I q' r' Hr' Hd')
      as (t0 & g0 & c & H0 & Hres & Hc).
    keep_thread Hg H0 (Running q (calls s)).
    exists t0, g1, c. rewrite Hf. repeat split; auto.
Qed.

Lemma registered_leads p q : registered p = Some q -> leads p = Some q.
Proof. by destruct p. Qed.

Lemma leads_refers p q : leads p = Some q -> refers p = Some q.
Proof. by destruct p. Qed.

Lemma stored_leads p q : stored p = Some q -> leads p = Some q.
Proof. by destruct p. Qed.

Lemma lookup_snoc_inv {A : Type} (h : list A) (x : A) q r :
  (h ++ [x]) !! q = Some r ->
  h !! q = Some r \/ (q = length h /\ r = x).
Proof.
  intros Hq. apply lookup_app_Some in Hq as [Hq|[Hle Hq]]; [by left|].
  right. destruct (q - length h)%nat as [|n] eqn:Hn; simpl in Hq; [|done].
  injection Hq as <-. split; [lia|done].
Qed.

Lemma inv_step_Deleting s tid g q :
  inv s -> threads s !! tid = Some g -> t_pc g = Deleting q ->
  inv (Build (delete (t_key g) (inflight s)) (heap s) (stats s)
         (move s tid g (Closing q)) (calls s)).
Proof.
  intros I Hg Hpc. split; simpl.
  - intros tid' g' q' H Hq. thr Hg; [|eapply inv_bound; eauto].
    simpl in Hq. injection Hq as <-. eapply inv_bound; eauto. by rewrite Hpc.
  - intros t1 t2 g1 g2 q' H1 H2 Hq1 Hq2. thr Hg; try done.
    + simpl in Hq2. injection Hq2 as <-.
      eapply (inv_unique s I t1 tid); eauto. by rewrite Hpc.
    + simpl in Hq1. injection Hq1 as <-. symmetry.
      eapply (inv_unique s I t2 tid); eauto. by rewrite Hpc.
    + eapply inv_unique; eauto.
  - intros q' r' tid' g' Hr' Hd' H. thr Hg; [|eapply inv_done; eauto].
    simpl. intros [= <-]. eapply (inv_done s I q r' tid g); eauto. by rewrite Hpc.
  - intros tid' g' q' v H Hq. thr Hg; [done|]. eapply inv_returned; eauto.
  - intros k q' Hk. apply lookup_delete_Some in Hk as [Hkne Hk].
    destruct (inv_table s I k q' Hk) as (t0 & g0 & H0 & Hk0 & Hq0).
    keep_thread Hg H0 (Closing q).
    assert (t0 <> tid) as Hn by (intros ->; congruence).
    specialize (Hne Hn); subst g1. by exists t0, g0.
  - intros tid' g' q' H Hq. thr Hg; [done|].
    pose proof (inv_registered s I _ _ _ ltac:(eassumption) Hq) as Hin.
    rewrite lookup_delete_ne; [done|]. intros Hkey.
    assert (inflight s !! t_key g = Some q) as Hin'
      by (eapply inv_registered; eauto; by rewrite Hpc).
    rewrite Hkey in Hin'. assert (q' = q) as -> by congruence.
    assert (tid' = tid); [|done].
    eapply (inv_unique s I tid' tid); eauto using registered_leads.
    by rewrite Hpc.
  - pose proof (calling_move s tid g (Closing q) Hg) as Hc. rewrite Hpc in Hc.
    pose proof (inv_calls s I). lia.
  - intros tid' g' q' c H Hq. thr Hg; [done|]. eapply inv_running; eauto.
  - intros tid' g' q' H Hq. thr Hg; [|eapply inv_stored; eauto].
    simpl in Hq. injection Hq as <-. simpl.
    eapply (inv_stored s I tid g q); eauto. by rewrite Hpc.
  - intros q' r' Hr' Hd'.
    destruct (inv_done_stored s I q' r' Hr' Hd')
      as (t0 & g0 & c & H0 & Hres & Hc).
    keep_thread Hg H0 (Closing q).
    exists t0, g1, c. rewrite Hf. done.
Qed.

Lemma inv_step_Running s tid g q c :
  inv s -> threads s !! tid = Some g -> t_pc g = Running q c ->
  inv (Build (inflight s)
         (alter (fun r => Build_inflightRequest (done r) (t_fn g c) (waiters r))
            q (heap s))
         (stats s) (move s tid g (Deleting q)) (calls s)).
Proof.
  intros I Hg Hpc.
  assert (Hlead : leads (t_pc g) = Some q) by (by rewrite Hpc).
  split; simpl.
  - intros tid' g' q' H Hq. rewrite length_alter. thr Hg; [|eapply inv_bound; eauto].
    simpl in Hq. injection Hq as <-. eapply inv_bound; eauto using leads_refers.
  - intros t1 t2 g1 g2 q' H1 H2 Hq1 Hq2. thr Hg; try done.
    + simpl in Hq2. injection Hq2 as <-.
      eapply (inv_unique s I t1 tid); eauto.
    + simpl in Hq1. injection Hq1 as <-. symmetry.
      eapply (inv_unique s I t2 tid); eauto.
    + eapply inv_unique; eauto.
  - intros q' r' tid' g' Hr' Hd' H.
    apply alter_lookup_inv in Hr' as (r & Hr & [[-> ->]|[Hne ->]]); simpl in Hd'.
    + thr Hg; [|eapply inv_done; eauto].
      intros _. by eapply (inv_done s I q r tid g).
    + thr Hg; [|eapply inv_done; eauto].
      simpl. intros [= <-]. done.
  - intros tid' g' q' v H Hq. thr Hg; [done|].
    destruct (inv_returned s I _ _ _ _ ltac:(eassumption) Hq)
      as (r & Hr & Hd & Hv).
    exists r. split; [|done]. rewrite list_lookup_alter_ne; [done|].
    intros <-. by eapply (inv_done s I q r tid g).
  - intros k q' Hk.
    destruct (inv_table s I k q' Hk) as (t0 & g0 & H0 & Hk0 & Hq0).
    keep_thread Hg H0 (Deleting q).
    exists t0, g1. split; [done|]. split; [congruence|].
    destruct (decide (t0 = tid)) as [->|Hn].
    + rewrite (move_lookup_eq _ _ _ _ Hg) in H1. injection H1 as <-.
      rewrite Hg in H0. injection H0 as <-. rewrite Hpc in Hq0. done.
    + by rewrite (Hne Hn).
  - intros tid' g' q' H Hq. thr Hg; [|eapply inv_registered; eauto].
    simpl in *. injection Hq as <-. eapply inv_registered; eauto. by rewrite Hpc.
  - rewrite length_alter.
    pose proof (calling_move s tid g (Deleting q) Hg) as Hc. rewrite Hpc in Hc.
    pose proof (inv_calls s I). lia.
  - intros tid' g' q' c' H Hq. thr Hg; [done|]. eapply inv_running; eauto.
  - intros tid' g' q' H Hq. thr Hg.
    + simpl in Hq. injection Hq as <-. simpl.
      destruct (lookup_lt_is_Some_2 (heap s) q) as [r Hr].
      { eapply inv_bound; eauto using leads_refers. }
      eexists _, c. rewrite list_lookup_alter_eq, Hr. simpl.
      split; [done|]. split; [done|]. eapply inv_running; eauto.
    + destruct (inv_stored s I _ _ _ ltac:(eassumption) Hq)
        as (r0 & c0 & Hr0 & ? & ?).
      exists r0, c0. split; [|done]. rewrite list_lookup_alter_ne; [done|].
      intros <-. match goal with Hn : tid' <> tid |- _ => apply Hn end.
      eapply (inv_unique s I tid' tid); eauto using stored_leads.
  - intros q' r' Hr' Hd'.
    apply alter_lookup_inv in Hr' as (r & Hr & [[-> ->]|[Hne ->]]); simpl in Hd'.
    + by destruct (inv_done s I q r tid g).
    + destruct (inv_done_stored s I q' r Hr Hd')
        as (t0 & g0 & c0 & H0 & Hres & Hc).
      keep_thread Hg H0 (Deleting q).
      exists t0, g1, c0. rewrite Hf. done.
Qed.

Lemma inv_step_Closing s tid g q r :
  inv s -> threads s !! tid = Some g -> t_pc g = Closing q ->
  heap s !! q = Some r ->
  inv (Build (inflight s)
         (alter (fun r => Build_inflightRequest true (res r) (waiters r))
            q (heap s))
         (stats s) (move s tid g (Returned q (res r))) (calls s)).
Proof.
  intros I Hg Hpc Hr.
  assert (Hlead : leads (t_pc g) = Some q) by (by rewrite Hpc).
  split; simpl.
  - intros tid' g' q' H Hq. rewrite length_alter. thr Hg; [|eapply inv_bound; eauto].
    simpl in Hq. injection Hq as <-. eapply inv_bound; eauto using leads_refers.
  - intros t1 t2 g1 g2 q' H1 H2 Hq1 Hq2. thr Hg; try done.
    eapply inv_unique; eauto.
  - intros q' r' tid' g' Hr' Hd' H. thr Hg; [done|].
    apply alter_lookup_inv in Hr' as (r0 & Hr0 & [[-> ->]|[Hne ->]]); simpl in Hd'.
    + intros Hq. match goal with Hn : tid' <> tid |- _ => apply Hn end.
      eapply (inv_unique s I tid' tid); eauto.
    + eapply inv_done; eauto.
  - intros tid' g' q' v H Hq. thr Hg.
    + simpl in Hq. injection Hq as <- <-.
      eexists. rewrite list_lookup_alter_eq, Hr. simpl. done.
    + destruct (inv_returned s I _ _ _ _ ltac:(eassumption) Hq)
        as (r0 & Hr0 & Hd & Hv).
      destruct (decide (q' = q)) as [->|Hne].
      * eexists. rewrite list_lookup_alter_eq, Hr0. simpl. done.
      * exists r0. by rewrite list_lookup_alter_ne.
  - intros k q' Hk.
    destruct (inv_table s I k q' Hk) as (t0 & g0 & H0 & Hk0 & Hq0).
    keep_thread Hg H0 (Returned q (res r)).
    assert (t0 <> tid) as Hn
      by (intros ->; rewrite Hg in H0; injection H0 as <-; by rewrite Hpc in Hq0).
    specialize (Hne Hn); subst g1. by exists t0, g0.
  - intros tid' g' q' H Hq. thr Hg; [done|]. eapply inv_registered; eauto.
  - rewrite length_alter.
    pose proof (calling_move s tid g (Returned q (res r)) Hg) as Hc.
    rewrite Hpc in Hc. pose proof (inv_calls s I). lia.
  - intros tid' g' q' c' H Hq. thr Hg; [done|]. eapply inv_running; eauto.
  - intros tid' g' q' H Hq. thr Hg; [done|].
    destruct (inv_stored s I _ _ _ ltac:(eassumption) Hq)
      as (r0 & c0 & Hr0 & ? & ?).
    destruct (decide (q' = q)) as [->|Hne].
    + eexists _, c0. rewrite list_lookup_alter_eq, Hr0. simpl. done.
    + exists r0, c0. by rewrite list_lookup_alter_ne.
  - intros q' r' Hr' Hd'.
    apply alter_lookup_inv in Hr' as (r0 & Hr0 & [[-> ->]|[Hne ->]]); simpl in *.
    + destruct (inv_stored s I tid g q Hg) as (r1 & c1 & Hr1 & Hres & Hc1);
        [by rewrite Hpc|].
      exists tid, (set_pc g (Returned q (res r))), c1.
      rewrite (move_lookup_eq _ _ _ _ Hg). simpl.
      assert (r0 = r1) as -> by congruence. done.
    + destruct (inv_done_stored s I q' r0 Hr0 Hd')
        as (t0 & g0 & c0 & H0 & Hres & Hc).
      keep_thread Hg H0 (Returned q (res r)).
      exists t0, g1, c0. rewrite Hf. done.
Qed.

Lemma inv_step_Entered_hit s tid g q :
  inv s -> threads s !! tid = Some g -> t_pc g = Entered ->
  inflight s !! t_key g = Some q ->
  forall st,
  inv (Build (inflight s)
         (alter (fun r => Build_inflightRequest (done r) (res r)
                            (add_int32 (waiters r))) q (heap s))
         st (move s tid g (Waiting q)) (calls s)).
Proof.
  intros I Hg Hpc Hin st. split; simpl.
  - intros tid' g' q' H Hq. rewrite length_alter. thr Hg; [|eapply inv_bound; eauto].
    simpl in Hq. injection Hq as <-.
    destruct (inv_table s I _ _ Hin) as (t0 & g0 & H0 & _ & Hq0).
    eapply inv_bound; eauto using leads_refers, registered_leads.
  - intros t1 t2 g1 g2 q' H1 H2 Hq1 Hq2. thr Hg; try done.
    eapply inv_unique; eauto.
  - intros q' r' tid' g' Hr' Hd' H. thr Hg; [done|].
    apply alter_lookup_inv in Hr' as (r0 & Hr0 & [[-> ->]|[Hne ->]]); simpl in Hd';
      eapply inv_done; eauto.
  - intros tid' g' q' v H Hq. thr Hg; [done|].
    destruct (inv_returned s I _ _ _ _ ltac:(eassumption) Hq)
      as (r0 & Hr0 & Hd & Hv).
    destruct (decide (q' = q)) as [->|Hne].
    + eexists. rewrite list_lookup_alter_eq, Hr0. simpl. done.
    + exists r0. by rewrite list_lookup_alter_ne.
  - intros k q' Hk.
    destruct (inv_table s I k q' Hk) as (t0 & g0 & H0 & Hk0 & Hq0).
    keep_thread Hg H0 (Waiting q).
    assert (t0 <> tid) as Hn
      by (intros ->; rewrite Hg in H0; injection H0 as <-; by rewrite Hpc in Hq0).
    specialize (Hne Hn); subst g1. by exists t0, g0.
  - intros tid' g' q' H Hq. thr Hg; [done|]. eapply inv_registered; eauto.
  - rewrite length_alter.
    pose proof (calling_move s tid g (Waiting q) Hg) as Hc.
    rewrite Hpc in Hc. pose proof (inv_calls s I). lia.
  - intros tid' g' q' c' H Hq. thr Hg; [done|]. eapply inv_running; eauto.
  - intros tid' g' q' H Hq. thr Hg; [done|].
    destruct (inv_stored s I _ _ _ ltac:(eassumption) Hq)
      as (r0 & c0 & Hr0 & ? & ?).
    destruct (decide (q' = q)) as [->|Hne].
    + eexists _, c0. rewrite list_lookup_alter_eq, Hr0. simpl. done.
    + exists r0, c0. by rewrite list_lookup_alter_ne.
  - intros q' r' Hr' Hd'.
    apply alter_lookup_inv in Hr' as (r0 & Hr0 & [[-> ->]|[Hne ->]]); simpl in *;
      destruct (inv_done_stored s I _ r0 Hr0 Hd') as (t0 & g0 & c0 & H0 & Hres & Hc);
      keep_thread Hg H0 (Waiting q);
      exists t0, g1, c0; rewrite Hf; done.
Qed.

Lemma inv_step_Entered_miss s tid g :
  inv s -> threads s !! tid = Some g -> t_pc g = Entered ->
  inflight s !! t_key g = None ->
  inv (Build (<[t_key g := length (heap s)]> (inflight s))
         (heap s ++ [Build_inflightRequest false (None, None) 0])
         (stats s) (move s tid g (Calling (length (heap s)))) (calls s)).
Proof.
  intros I Hg Hpc Hin. split; simpl.
  - intros tid' g' q' H Hq. rewrite length_app. simpl. thr Hg.
    + simpl in Hq. injection Hq as <-. lia.
    + pose proof (inv_bound s I _ _ _ ltac:(eassumption) Hq). lia.
  - intros t1 t2 g1 g2 q' H1 H2 Hq1 Hq2. thr Hg; try done.
    + simpl in Hq2. injection Hq2 as <-.
      pose proof (inv_bound s I _ _ _ ltac:(eassumption) (leads_refers _ _ Hq1)).
      lia.
    + simpl in Hq1. injection Hq1 as <-.
      pose proof (inv_bound s I _ _ _ ltac:(eassumption) (leads_refers _ _ Hq2)).
      lia.
    + eapply inv_unique; eauto.
  - intros q' r' tid' g' Hr' Hd' H.
    apply lookup_snoc_inv in Hr' as [Hr'|[-> ->]]; [|done].
    thr Hg; [|eapply inv_done; eauto].
    simpl. intros [= <-]. apply lookup_lt_Some in Hr'. lia.
  - intros tid' g' q' v H Hq. thr Hg; [done|].
    destruct (inv_returned s I _ _ _ _ ltac:(eassumption) Hq)
      as (r0 & Hr0 & Hd & Hv).
    exists r0. split; [|done]. by apply lookup_app_l_Some.
  - intros k q' Hk. destruct (decide (k = t_key g)) as [->|Hkne].
    + rewrite lookup_insert_eq in Hk. injection Hk as <-.
      exists tid, (set_pc g (Calling (length (heap s)))).
      by rewrite (move_lookup_eq _ _ _ _ Hg).
    + rewrite lookup_insert_ne in Hk by done.
      destruct (inv_table s I k q' Hk) as (t0 & g0 & H0 & Hk0 & Hq0).
      keep_thread Hg H0 (Calling (length (heap s))).
      assert (t0 <> tid) as Hn
        by (intros ->; rewrite Hg in H0; injection H0 as <-; by rewrite Hpc in Hq0).
      specialize (Hne Hn); subst g1. by exists t0, g0.
  - intros tid' g' q' H Hq. thr Hg.
    + simpl in *. injection Hq as <-. by rewrite lookup_insert_eq.
    + pose proof (inv_registered s I _ _ _ ltac:(eassumption) Hq) as Hin'.
      rewrite lookup_insert_ne; [done|]. intros Hkey. congruence.
  - rewrite length_app. simpl.
    pose proof (calling_move s tid g (Calling (length (heap s))) Hg) as Hc.
    rewrite Hpc in Hc. pose proof (inv_calls s I). lia.
  - intros tid' g' q' c' H Hq. thr Hg; [done|]. eapply inv_running; eauto.
  - intros tid' g' q' H Hq. thr Hg; [done|].
    destruct (inv_stored s I _ _ _ ltac:(eassumption) Hq)
      as (r0 & c0 & Hr0 & ? & ?).
    exists r0, c0. split; [|done]. by apply lookup_app_l_Some.
  - intros q' r' Hr' Hd'.
    apply lookup_snoc_inv in Hr' as [Hr'|[-> ->]]; [|done].
    destruct (inv_done_stored s I _ _ Hr' Hd')
      as (t0 & g0 & c0 & H0 & Hres & Hc).
    keep_thread Hg H0 (Calling (length (heap s))).
    exists t0, g1, c0. rewrite Hf. done.
Qed.

Lemma inv_step s tid s' : inv s -> step tid s = Some s' -> inv s'.
Proof.
  intros I. unfold step.
  destruct (threads s !! tid) as [g|] eqn:Hg; simpl; [|done].
  destruct (t_pc g) as [| |q|q|q c|q|q|q v] eqn:Hpc.
  - intros [= <-]. by apply inv_step_Start.
  - destruct (inflight s !! t_key g) as [q|] eqn:Hin; intros [= <-].
    + by apply inv_step_Entered_hit.
    + by apply inv_step_Entered_miss.
  - destruct (heap s !! q) as [r|] eqn:Hr; simpl; [|done].
    destruct (done r) eqn:Hd; intros [= <-]. by apply inv_step_Waiting.
  - intros [= <-]. by apply inv_step_Calling.
  - intros [= <-]. by apply inv_step_Running.
  - intros [= <-]. by apply inv_step_Deleting.
  - destruct (heap s !! q) as [r|] eqn:Hr; simpl; intros [= <-].
    by apply inv_step_Closing.
  - done.
Qed.

Lemma inv_step_or_stay s tid : inv s -> inv (step_or_stay s tid).
Proof.
  intros I. unfold step_or_stay.
  destruct (step tid s) as [s'|] eqn:Hs; simpl; [by eapply inv_step|done].
Qed.

Lemma inv_run sched s : inv s -> inv (run sched s).
Proof.
  revert s. induction sched as [|tid sched IH]; intros s I; simpl; [done|].
  apply IH. by apply inv_step_or_stay.
Qed.

(** With one key and overlapping calls, at most one request is created. *)
Lemma existsb_lookup {A : Type} (f : A -> bool) (l : list A) :
  existsb f l = true <-> exists i x, l !! i = Some x /\ f x = true.
Proof.
  rewrite existsb_exists. split.
  - intros (x & Hx & Hf). apply list_elem_of_In, list_elem_of_lookup in Hx as [i Hi].
    eauto.
  - intros (i & x & Hi & Hf). exists x. split; [|done].
    apply list_elem_of_In, list_elem_of_lookup. eauto.
Qed.

Lemma forallb_lookup {A : Type} (f : A -> bool) (l : list A) i x :
  forallb f l = true -> l !! i = Some x -> f x = true.
Proof.
  rewrite forallb_forall. intros Hall Hi. apply Hall.
  apply list_elem_of_In, list_elem_of_lookup. eauto.
Qed.

Lemma step_threads s tid s' :
  step tid s = Some s' ->
  exists g p, threads s !! tid = Some g /\ threads s' = move s tid g p /\
    (p = Start \/ p = Entered -> t_pc g = Start).
Proof.
  unfold step. destruct (threads s !! tid) as [g|] eqn:Hg; simpl; [|done].
  destruct (t_pc g) as [| |q|q|q c|q|q|q v] eqn:Hpc.
  - intros [= <-]. exists g, Entered. done.
  - destruct (inflight s !! t_key g) as [q|]; intros [= <-]; eexists g, _;
      (split; [done|split; [done|]]); by intros [|].
  - destruct (heap s !! q) as [r|]; simpl; [|done].
    destruct (done r); intros [= <-]. eexists g, _.
    (split; [done|split; [done|]]); by intros [|].
  - intros [= <-]. eexists g, _. (split; [done|split; [done|]]); by intros [|].
  - intros [= <-]. eexists g, _. (split; [done|split; [done|]]); by intros [|].
  - intros [= <-]. eexists g, _. (split; [done|split; [done|]]); by intros [|].
  - destruct (heap s !! q) as [r|]; simpl; intros [= <-]. eexists g, _.
    (split; [done|split; [done|]]); by intros [|].
  - done.
Qed.

Lemma not_entered_step s tid s' :
  step tid s = Some s' ->
  existsb not_entered (threads s') = true ->
  existsb not_entered (threads s) = true.
Proof.
  intros Hs. destruct (step_threads _ _ _ Hs) as (g & p & Hg & -> & Hp).
  rewrite !existsb_lookup. intros (i & x & Hi & Hx).
  destruct (move_lookup_inv _ _ _ _ _ _ Hg Hi) as [[-> ->]|[Hne Hi']].
  - exists tid, g. split; [done|]. unfold not_entered in *. simpl in Hx.
    rewrite Hp; [done|]. destruct p; auto; done.
  - eauto.
Qed.

Lemma origin_init callers : origin callers (NewRequestCoalescer callers).
Proof.
  unfold origin, NewRequestCoalescer. simpl.
  induction callers as [|c callers IH]; intros [|tid] g Hg; simpl in Hg;
    try done.
  - injection Hg as <-. by exists c.
  - by apply IH.
Qed.

Lemma origin_step callers s tid s' :
  origin callers s -> step tid s = Some s' -> origin callers s'.
Proof.
  intros Ho Hs. destruct (step_threads _ _ _ Hs) as (g & p & Hg & Hth & _).
  intros i x Hi. rewrite Hth in Hi.
  destruct (move_lookup_inv _ _ _ _ _ _ Hg Hi) as [[-> ->]|[Hne Hi']].
  - apply (Ho tid g Hg).
  - by apply Ho.
Qed.

Lemma length_threads_step s tid s' :
  step tid s = Some s' -> length (threads s') = length (threads s).
Proof.
  intros Hs. destruct (step_threads _ _ _ Hs) as (g & p & Hg & -> & _).
  unfold move. by rewrite length_insert.
Qed.

Lemma length_threads_run sched s :
  length (threads (run sched s)) = length (threads s).
Proof.
  revert s. induction sched as [|tid sched IH]; intros s; simpl; [done|].
  rewrite IH. unfold step_or_stay.
  destruct (step tid s) as [s'|] eqn:Hs; simpl; [|done].
  by eapply length_threads_step.
Qed.

Lemma single_step key s tid s' :
  inv s -> (forall i g, threads s !! i = Some g -> t_key g = key) ->
  single key s -> step tid s = Some s' ->
  (forall g q, threads s !! tid = Some g -> t_pc g = Deleting q ->
     existsb not_entered (threads s) = false) ->
  single key s'.
Proof.
  intros I Hkey [Hlen Htab] Hs Hconc.
  pose proof (not_entered_step _ _ _ Hs) as Hne.
  revert Hs Hne. unfold step.
  destruct (threads s !! tid) as [g|] eqn:Hg; simpl; [|done].
  pose proof (Hkey _ _ Hg) as Hk.
  destruct (t_pc g) as [| |q|q|q c|q|q|q v] eqn:Hpc.
  - intros [= <-] Hne. split; simpl in *; auto.
  - destruct (inflight s !! t_key g) as [q|] eqn:Hin; intros [= <-] Hne;
      simpl in *.
    + split; simpl; rewrite length_alter; auto.
    + assert (length (heap s) = 0%nat) as Hz.
      { destruct (decide (0 < length (heap s))%nat) as [Hpos|]; [|lia].
        destruct Htab as [q Hq]; [|done|congruence].
        apply existsb_lookup. exists tid, g. split; [done|].
        unfold not_entered. by rewrite Hpc. }
      split; simpl; rewrite ?length_app, ?Hz; simpl; [lia|].
      intros _ _. rewrite Hk, lookup_insert_eq. eauto.
  - destruct (heap s !! q) as [r|]; simpl; [|done].
    destruct (done r); intros [= <-] Hne. split; simpl in *; auto.
  - intros [= <-] Hne. split; simpl in *; auto.
  - intros [= <-] Hne. split; simpl in *; rewrite length_alter; auto.
  - intros [= <-] Hne. split; simpl in *; [done|].
    intros Hex. apply Hne in Hex. rewrite (Hconc g q) in Hex; done.
  - destruct (heap s !! q) as [r|]; simpl; intros [= <-] Hne.
    split; simpl in *; rewrite length_alter; auto.
  - done.
Qed.

Lemma run_single callers key sched s :
  Forall (fun c => c.1 = key) callers ->
  inv s -> origin callers s -> single key s -> concurrent sched s = true ->
  inv (run sched s) /\ origin callers (run sched s) /\ single key (run sched s).
Proof.
  intros Hall. revert s.
  induction sched as [|tid sched IH]; intros s I Ho Hsi Hc; simpl; [done|].
  simpl in Hc. apply andb_true_iff in Hc as [Hnow Hrest].
  apply IH; [by apply inv_step_or_stay| | |done]; unfold step_or_stay;
    destruct (step tid s) as [s'|] eqn:Hs; simpl; try done.
  - by eapply origin_step.
  - eapply single_step; eauto.
    + intros i g Hg. destruct (Ho i g Hg) as (c & Hc & -> & _).
      rewrite Forall_lookup in Hall. by apply (Hall i c).
    + intros g q Hg Hpc. rewrite Hg in Hnow. simpl in Hnow.
      rewrite Hpc in Hnow. by apply negb_true_iff.
Qed.

Lemma single_init key callers : single key (NewRequestCoalescer callers).
Proof. split; simpl; [lia|]. intros _ Hpos. lia. Qed.

Lemma countb_returned (l : list goroutine) :
  forallb has_returned l = true -> countb is_calling l = 0%nat.
Proof.
  induction l as [|g l IH]; simpl; [done|].
  intros [Hg Hl]%andb_true_iff. rewrite (IH Hl).
  unfold has_returned in Hg. unfold is_calling. by destruct (t_pc g).
Qed.

(** C9.  Goroutines call [Do]; the scheduler interleaves their steps in any
    order.  In every state that can be reached: (1) for a given key at most
    one [fn] runs at a time; (2) callers that return from the same in-flight
    request return the same value and error; (3) a waiter can only resume
    from a request whose key has left the in-flight table, and the table
    never leads to a completed request, so a caller that looks the key up
    later starts a fresh request; (4) when the callers all use one key and
    their calls overlap, that is, each of them has looked the key up before
    the leader removes it, and all of them have returned, [fn] has been
    invoked exactly once and every caller has returned the result of that
    invocation. *)
Theorem Do_single_flight (callers : list (string * (nat -> result)))
    (sched : list nat) :
  let init := NewRequestCoalescer callers in
  let s := run sched init in
  (forall i j gi gj,
     threads s !! i = Some gi -> threads s !! j = Some gj ->
     is_running gi = true -> is_running gj = true ->
     t_key gi = t_key gj -> i = j) /\
  (forall i j gi gj q v w,
     threads s !! i = Some gi -> threads s !! j = Some gj ->
     t_pc gi = Returned q v -> t_pc gj = Returned q w -> v = w) /\
  ((forall i gi q s',
      threads s !! i = Some gi -> t_pc gi = Waiting q -> step i s = Some s' ->
      forall k, inflight s !! k <> Some q) /\
   (forall k q r,
      inflight s !! k = Some q -> heap s !! q = Some r -> done r = false)) /\
  (forall key,
     Forall (fun c => c.1 = key) callers -> callers <> [] ->
     concurrent sched init = true -> all_returned s = true ->
     calls s = 1%nat /\
     exists c, c ∈ callers /\
       forall j gj, threads s !! j = Some gj -> t_pc gj = Returned 0 (c.2 0%nat)).
Proof.
  intros init s.
  assert (I : inv s) by apply inv_run, inv_init.
  assert (Hfresh : forall k q r,
            inflight s !! k = Some q -> heap s !! q = Some r -> done r = false).
  { intros k q r Hk Hr. destruct (done r) eqn:Hd; [|done].
    destruct (inv_table s I k q Hk) as (t0 & g0 & H0 & _ & Hq0).
    by destruct (inv_done s I q r t0 g0 Hr Hd H0 (registered_leads _ _ Hq0)). }
  split_and!.
  - intros i j gi gj Hi Hj Hri Hrj Hk.
    unfold is_running in *.
    destruct (t_pc gi) as [| | | |qi ci| | |] eqn:Hpi; try done.
    destruct (t_pc gj) as [| | | |qj cj| | |] eqn:Hpj; try done.
    assert (inflight s !! t_key gi = Some qi) as Hini
      by (eapply inv_registered; eauto; by rewrite Hpi).
    assert (inflight s !! t_key gj = Some qj) as Hinj
      by (eapply inv_registered; eauto; by rewrite Hpj).
    rewrite Hk in Hini. assert (qi = qj) as -> by congruence.
    eapply (inv_unique s I i j gi gj qj); eauto; by rewrite ?Hpi, ?Hpj.
  - intros i j gi gj q v w Hi Hj Hpi Hpj.
    destruct (inv_returned s I _ _ _ _ Hi Hpi) as (r & Hr & _ & <-).
    destruct (inv_returned s I _ _ _ _ Hj Hpj) as (r' & Hr' & _ & <-).
    congruence.
  - intros i gi q s' Hi Hpi Hs k Hk. unfold step in Hs. rewrite Hi in Hs.
    simpl in Hs. rewrite Hpi in Hs.
    destruct (heap s !! q) as [r|] eqn:Hr; simpl in Hs; [|done].
    destruct (done r) eqn:Hd; [|done]. by rewrite (Hfresh k q r Hk Hr) in Hd.
  - exact Hfresh.
  - intros key Hall Hne Hconc Hret.
    destruct (run_single callers key sched init Hall (inv_init _)
                (origin_init _) (single_init _ _) Hconc)
      as (_ & Ho & [Hlen _]).
    fold s in Ho, Hlen.
    assert (Hq0 : forall j gj, threads s !! j = Some gj ->
              exists v r, t_pc gj = Returned 0 v /\ heap s !! 0%nat = Some r /\
                done r = true /\ res r = v).
    { intros j gj Hj. pose proof (forallb_lookup _ _ _ _ Hret Hj) as Hr.
      unfold has_returned in Hr.
      destruct (t_pc gj) as [| | | | | | |q v] eqn:Hpj; try done.
      destruct (inv_returned s I _ _ _ _ Hj Hpj) as (r & Hr0 & Hd & Hv).
      assert (q = 0%nat) as -> by (apply lookup_lt_Some in Hr0; lia).
      by exists v, r. }
    destruct (lookup_lt_is_Some_2 (threads s) 0%nat) as [g0 Hg0].
    { subst s. rewrite length_threads_run. unfold init. simpl.
      rewrite length_map. destruct callers; [done|simpl; lia]. }
    destruct (Hq0 _ _ Hg0) as (v0 & r0 & Hp0 & Hr0 & Hd0 & Hv0).
    pose proof (inv_calls s I) as Hcalls.
    rewrite (countb_returned _ Hret) in Hcalls.
    assert (length (heap s) = 1%nat) as Hone
      by (apply lookup_lt_Some in Hr0; lia).
    split; [lia|].
    destruct (inv_done_stored s I _ _ Hr0 Hd0)
      as (t1 & g1 & c1 & H1 & Hres & Hc1).
    destruct (Ho _ _ H1) as (c & Hc & _ & Hfn).
    exists c. split; [by eapply list_elem_of_lookup_2|].
    intros j gj Hj. destruct (Hq0 _ _ Hj) as (v & r & Hp & Hr & _ & Hv).
    rewrite Hp. f_equal. assert (r = r0) as -> by congruence.
    rewrite <- Hv, Hres, Hfn. f_equal. lia.
Qed.

Lemma Do_single_flight_witness :
  let s := run Examples.overlapping (NewRequestCoalescer Examples.callers3) in
  calls s = 1%nat /\
  forall j gj, threads s !! j = Some gj ->
    t_pc gj = Returned 0 (Some 100%Z, None).
Proof.
  intros s.
  destruct (Do_single_flight Examples.callers3 Examples.overlapping)
    as (_ & _ & _ & Hone).
  destruct (Hone "k"%string) as (Hcalls & c & Hc & Hall).
  - repeat constructor.
  - discriminate.
  - vm_compute. reflexivity.
  - vm_compute. reflexivity.
  - split; [exact Hcalls|]. intros j gj Hj. rewrite (Hall j gj Hj).
    unfold Examples.callers3 in Hc.
    repeat (apply elem_of_cons in Hc as [->|Hc]; [reflexivity|]).
    by apply elem_of_nil in Hc.
Defined.

(** Calls that do not overlap are not coalesced: each runs [fn] again. *)
Example Do_one_after_another :
  let s := run Examples.one_after_another
             (NewRequestCoalescer Examples.callers3) in
  calls s = 3%nat /\ all_returned s = true /\
  map t_pc (threads s) =
    [Returned 0 (Some 100%Z, None); Returned 1 (Some 101%Z, None);
     Returned 2 (Some 102%Z, None)] /\
  concurrent Examples.one_after_another
    (NewRequestCoalescer Examples.callers3) = false.
Proof. vm_compute. done. Qed.

End CoalescerFacts.

(** * Further properties of the code *)

(** ** More on the node-local store *)

Section FmtFacts.

Import Strings.

Lemma Split_no_sep s sep : occurs sep s = false -> Split s sep = [s].
Proof.
  induction s as [|c s IH]; simpl; [done|].
  intros [Hc Hs]%orb_false_elim. rewrite Ascii.eqb_sym, Hc, (IH Hs). done.
Qed.

Lemma Split_app_sep s1 s2 sep :
  occurs sep s1 = false ->
  Split (s1 +:+ String sep s2) sep = s1 :: Split s2 sep.
Proof.
  induction s1 as [|c s1 IH]; intros Hs.
  - rewrite append_nil_l. simpl. by rewrite Ascii.eqb_refl.
  - simpl in Hs. apply orb_false_elim in Hs as [Hc Hs].
    rewrite append_cons. simpl. rewrite Ascii.eqb_sym, Hc, (IH Hs). done.
Qed.

Lemma Split_cons_sep s sep : Split (String sep s) sep = "" :: Split s sep.
Proof. simpl. by rewrite Ascii.eqb_refl. Qed.

Lemma Itoa_nonneg_first z :
  0 <= z ->
  exists c s, Strconv.Itoa z = String c s /\ Fmt.is_digit c = true.
Proof.
  intros Hz. unfold Strconv.Itoa, NilZero.string_of_int, NilZero.string_of_uint.
  destruct z as [|p|p]; [by exists "0"%char, ""%string| |lia].
  simpl. pose proof (pos_to_uint_nonnil p) as Hne.
  destruct (uint_first_digit _ Hne) as (c & s & Hs & Hc).
  exists c, s. split; [|done]. by destruct (Pos.to_uint p).
Qed.

Lemma scan_digits_Itoa z :
  0 <= z -> Fmt.scan_digits (Strconv.Itoa z) None = Some z.
Proof.
  intros Hz. unfold Strconv.Itoa, NilZero.string_of_int, NilZero.string_of_uint.
  destruct z as [|p|p]; [done| |lia].
  simpl. pose proof (pos_to_uint_nonnil p) as Hne.
  pose proof (scan_digits_pos p) as Hscan.
  by destruct (Pos.to_uint p).
Qed.

Lemma Sscanf_d_Itoa z v :
  0 <= z <= 9223372036854775807 -> Fmt.Sscanf_d (Strconv.Itoa z) v = z.
Proof.
  intros Hz. unfold Fmt.Sscanf_d.
  destruct (Itoa_nonneg_first z) as (c & s & Hs & Hc); [lia|].
  pose proof (scan_digits_Itoa z ltac:(lia)) as Hscan. rewrite Hs in *.
  assert (Fmt.is_blank c = false) as Hb.
  { destruct c as [[] [] [] [] [] [] [] []]; try done. }
  simpl. rewrite Hb.
  assert (match c with
          | "-"%char => (true, s)
          | "+"%char => (false, s)
          | _ => (false, String c s)
          end = (false, String c s)) as ->.
  { destruct c as [[] [] [] [] [] [] [] []]; try done. }
  rewrite Hscan. unfold Fmt.in_int64.
  destruct (Z.leb_spec (-9223372036854775808) z); [|lia].
  destruct (Z.leb_spec z 9223372036854775807); [|lia]. done.
Qed.

Lemma occurs_Itoa_nonneg c z :
  Fmt.is_digit c = false -> 0 <= z -> occurs c (Strconv.Itoa z) = false.
Proof.
  intros Hc Hz. unfold Strconv.Itoa, NilZero.string_of_int, NilZero.string_of_uint.
  destruct z as [|p|p]; [|simpl|lia].
  - simpl. destruct (Ascii.eqb_spec c "0"); [by subst|done].
  - pose proof (occurs_uint c (Pos.to_uint p) Hc) as Ho.
    pose proof (pos_to_uint_nonnil p) as Hne.
    by destruct (Pos.to_uint p).
Qed.

End FmtFacts.

Section PathFacts.

Import Strings LocalFSBackend.

Lemma metadataPath_ne_objectPath_suffix b bucket key :
  objectPath b bucket key <> metadataPath b bucket (key +:+ ".meta.json").
Proof.
  rewrite !metadataPath_objectPath.
  change (objectPath b bucket (key +:+ ".meta.json")) with
    (metadataPath b bucket key).
  rewrite metadataPath_objectPath, append_assoc.
  apply append_suffix_neq. done.
Qed.

End PathFacts.

Section RangeFacts.

Import Strings LocalFSBackend.

(** X: what [parseRange] returns.  An accepted range lies inside the object:
    [0 <= start <= end < size]; a rejected one comes with both bounds zero
    and one of the two messages; nothing is accepted for an empty object or
    without the [bytes=] prefix. *)
Theorem parseRange_sound (rangeSpec : string) (size : Z) :
  (forall start end_,
     parseRange rangeSpec size = (start, end_, None) ->
     0 <= start <= end_ /\ end_ < size /\
     HasPrefix rangeSpec "bytes=" = true) /\
  (forall start end_ e,
     parseRange rangeSpec size = (start, end_, Some e) ->
     start = 0 /\ end_ = 0 /\
     (e = "invalid range"%string \/ e = "range not satisfiable"%string)) /\
  (size <= 0 -> exists e, parseRange rangeSpec size = (0, 0, Some e)).
Proof.
  unfold parseRange.
  destruct (HasPrefix rangeSpec "bytes=") eqn:Hp; cbn [negb].
  2:{ split_and!; [done| |by eauto]. intros ? ? ? [= <- <- <-]. auto. }
  destruct (Split _ _) as [|p0 [|p1 [|p2 ps]]].
  1,2,4: split_and!; [done| |by eauto]; intros ? ? ? [= <- <- <-]; auto.
  set (range := if String.eqb p0 "" then _ else _).
  destruct range as [[s e]|] eqn:Hr.
  2:{ split_and!; [done| |by eauto]. intros ? ? ? [= <- <- <-]. auto. }
  destruct ((s <? 0) || (size <=? e) || (e <? s)) eqn:Hchk.
  - split_and!; [done| |by eauto]. intros ? ? ? [= <- <- <-]. auto.
  - apply orb_false_elim in Hchk as [[H1 H2]%orb_false_elim H3].
    apply Z.ltb_ge in H1, H3. apply Z.leb_gt in H2.
    split_and!; [|done|].
    + intros ? ? [= <- <-]. lia.
    + intros Hsize. lia.
Qed.

(** X: well-formed ranges are accepted and read as written.  For an object
    of [size] bytes (an [int64]), [bytes=a-b] with [0 <= a <= b < size] is
    the range [a..b]; [bytes=a-] runs to the last byte; [bytes=-n] is the
    last [n] bytes, the whole object when [n] exceeds its size. *)
Theorem parseRange_well_formed (size : Z) :
  0 < size <= 9223372036854775807 ->
  (forall a b, 0 <= a <= b -> b < size ->
     parseRange ("bytes=" +:+ Strconv.Itoa a +:+ "-" +:+ Strconv.Itoa b) size =
       (a, b, None)) /\
  (forall a, 0 <= a < size ->
     parseRange ("bytes=" +:+ Strconv.Itoa a +:+ "-") size = (a, size - 1, None)) /\
  (forall n, 0 < n <= 9223372036854775807 ->
     parseRange ("bytes=-" +:+ Strconv.Itoa n) size =
       (Z.max 0 (size - n), size - 1, None)).
Proof.
  intros Hsize.
  assert (Hdash : forall z, 0 <= z -> occurs "-" (Strconv.Itoa z) = false)
    by (intros z Hz; by apply occurs_Itoa_nonneg).
  assert (Hne : forall z, 0 <= z -> String.eqb (Strconv.Itoa z) "" = false).
  { intros z Hz. destruct (Itoa_nonneg_first z Hz) as (c & s & -> & _). done. }
  split_and!.
  - intros a b Hab Hb. unfold parseRange.
    rewrite HasPrefix_app. cbn [negb]. unfold TrimPrefix.
    rewrite HasPrefix_app, drop_app.
    change ("-" +:+ Strconv.Itoa b) with (String "-" (Strconv.Itoa b)).
    rewrite Split_app_sep, Split_no_sep by (apply Hdash; lia).
    rewrite !Hne by lia. rewrite !Sscanf_d_Itoa by lia.
    destruct (Z.ltb_spec a 0); [lia|]. destruct (Z.leb_spec size b); [lia|].
    destruct (Z.ltb_spec b a); [lia|]. done.
  - intros a Ha. unfold parseRange.
    rewrite HasPrefix_app. cbn [negb]. unfold TrimPrefix.
    rewrite HasPrefix_app, drop_app.
    rewrite Split_app_sep by (apply Hdash; lia). cbn [Split].
    rewrite Hne by lia. cbn [String.eqb]. rewrite Sscanf_d_Itoa by lia.
    destruct (Z.ltb_spec a 0); [lia|].
    destruct (Z.leb_spec size (size - 1)); [lia|].
    destruct (Z.ltb_spec (size - 1) a); [lia|]. done.
  - intros n Hn. unfold parseRange.
    change ("bytes=-" +:+ Strconv.Itoa n) with
      ("bytes=" +:+ String "-" (Strconv.Itoa n)).
    rewrite HasPrefix_app. cbn [negb]. unfold TrimPrefix.
    rewrite HasPrefix_app, drop_app.
    rewrite Split_cons_sep, Split_no_sep by (apply Hdash; lia).
    cbn [String.eqb]. rewrite Hne by lia. rewrite Sscanf_d_Itoa by lia.
    destruct (Z.ltb_spec (size - n) 0).
    + rewrite Z.max_l by lia. cbn [Z.ltb Z.compare orb].
      destruct (Z.leb_spec size (size - 1)); [lia|].
      destruct (Z.ltb_spec (size - 1) 0); [lia|]. done.
    + rewrite Z.max_r by lia.
      destruct (Z.ltb_spec (size - n) 0); [lia|].
      destruct (Z.leb_spec size (size - 1)); [lia|].
      destruct (Z.ltb_spec (size - 1) (size - n)); [lia|]. done.
Qed.

Lemma parseRange_well_formed_witness :
  parseRange "bytes=2-5" 10 = (2, 5, None) /\
  parseRange "bytes=7-" 10 = (7, 9, None) /\
  parseRange "bytes=-3" 10 = (7, 9, None) /\
  parseRange "bytes=-30" 10 = (0, 9, None).
Proof.
  destruct (parseRange_well_formed 10 ltac:(lia)) as (H1 & H2 & H3).
  split_and!.
  - apply (H1 2 5); lia.
  - apply (H2 7); lia.
  - apply (H3 3); lia.
  - apply (H3 30); lia.
Defined.

End RangeFacts.

Section LocalFSMore.

Import LocalFSBackend.

(** X: read-your-writes on a node.  After a Put that succeeds, whatever the
    store held before, a Get without a range returns the bytes written with
    the content type given, the quoted hex MD5 as ETag, the length as size
    and status 200, and Head reports the same metadata.  The content type
    is one the metadata codec writes without a [\u] escape; the key is not
    the name drawn for the temp file. *)
Theorem LocalFS_Put_then_Get (b : LocalFSBackend.t) (io : faults) (rnd : Z)
    (files files' : FS) (bucket key : string) (data : list byte)
    (contentType contentMD5 etag : string) :
  Put b io rnd files bucket key data contentType contentMD5 =
    (files', (etag, None)) ->
  Json.plain contentType = true ->
  objectPath b bucket key <>
    tempPath (Filepath.Dir (objectPath b bucket key)) rnd ->
  etag = Strings.quote (MD5.hexsum data) /\
  Get b files' bucket key "" =
    GetResult (Some data) contentType etag (Z.of_nat (length data)) 200 None /\
  Head b files' bucket key =
    (contentType, etag, Z.of_nat (length data), true, None).
Proof.
  intros Hput _ Hne.
  destruct (Put_stored _ _ _ _ _ _ _ _ _ _ _ Hput Hne) as (-> & Hobj & Hmeta).
  split; [done|]. split.
  - by rewrite (Get_stored _ _ _ _ _ _ Hmeta Hobj).
  - unfold Head. by rewrite Hmeta, LocalFS_Unmarshal_Marshal.
Qed.

Lemma LocalFS_Put_then_Get_witness :
  let put :=
    Put (LocalFSBackend.Build "/data") no_faults 42 ∅ "bucket" "key1"
      (Bytes.of_string "hello") "text/plain" "" in
  Get (LocalFSBackend.Build "/data") put.1 "bucket" "key1" "" =
    GetResult (Some (Bytes.of_string "hello")) "text/plain"
      (Strings.quote "5d41402abc4b2a76b9719d911017c592") 5 200 None.
Proof.
  intros put.
  assert (Hput : Put (LocalFSBackend.Build "/data") no_faults 42 ∅ "bucket"
                   "key1" (Bytes.of_string "hello") "text/plain" "" =
                 (put.1, (Strings.quote "5d41402abc4b2a76b9719d911017c592", None)))
    by (vm_compute; reflexivity).
  destruct (LocalFS_Put_then_Get _ _ _ _ _ _ _ _ _ _ _ Hput)
    as (_ & Hget & _); [reflexivity|vm_compute; discriminate|].
  exact Hget.
Defined.

(** X: a ranged read after a write.  After a Put that succeeds, a Get whose
    range [parseRange] accepts for the object's length as [start..end]
    returns exactly the bytes at those positions, [end - start + 1] of them,
    with that number as size and status 206; a range it rejects gives
    status 416 with no body. *)
Theorem LocalFS_Put_then_ranged_Get (b : LocalFSBackend.t) (io : faults)
    (rnd : Z) (files files' : FS) (bucket key : string) (data : list byte)
    (contentType contentMD5 etag rangeSpec : string) :
  Put b io rnd files bucket key data contentType contentMD5 =
    (files', (etag, None)) ->
  Json.plain contentType = true ->
  objectPath b bucket key <>
    tempPath (Filepath.Dir (objectPath b bucket key)) rnd ->
  rangeSpec <> EmptyString ->
  match parseRange rangeSpec (Z.of_nat (length data)) with
  | (start, end_, None) =>
      let slice := take (Z.to_nat (end_ - start + 1)) (drop (Z.to_nat start) data) in
      Get b files' bucket key rangeSpec =
        GetResult (Some slice) contentType etag (end_ - start + 1) 206 None /\
      Z.of_nat (length slice) = end_ - start + 1 /\
      (forall i, (i < length slice)%nat ->
         slice !! i = data !! (Z.to_nat start + i)%nat)
  | (_, _, Some e) =>
      Get b files' bucket key rangeSpec = get_fail 416 e
  end.
Proof.
  intros Hput _ Hne Hr.
  destruct (Put_stored _ _ _ _ _ _ _ _ _ _ _ Hput Hne) as (-> & Hobj & Hmeta).
  pose proof (parseRange_sound rangeSpec (Z.of_nat (length data))) as (Hok & _ & _).
  unfold Get. rewrite Hmeta, LocalFS_Unmarshal_Marshal, Hobj.
  apply String.eqb_neq in Hr. rewrite Hr. cbn [negb Size ContentType ETag].
  destruct (parseRange rangeSpec (Z.of_nat (length data))) as [[start end_] [e|]];
    [done|].
  destruct (Hok start end_ eq_refl) as (Hse & Hend & _).
  split; [done|]. split.
  - rewrite length_take, length_drop. lia.
  - intros i Hi. rewrite lookup_take_lt, lookup_drop; [done|].
    rewrite length_take in Hi. lia.
Qed.

Lemma LocalFS_Put_then_ranged_Get_witness :
  Get (NodeServer.backend Examples.node_digits)
    (NodeServer.files Examples.node_digits) "b" "k" "bytes=2-5" =
  GetResult (Some (Bytes.of_string "2345")) "text/plain"
    (Strings.quote "781e5e245d69b566979b86e28d23f2c7") 4 206 None.
Proof.
  assert (Hput : Put (LocalFSBackend.Build "/data1") no_faults 1 ∅ "b" "k"
                   Examples.digits "text/plain" "" =
                 (NodeServer.files Examples.node_digits,
                  (Strings.quote "781e5e245d69b566979b86e28d23f2c7", None)))
    by (vm_compute; reflexivity).
  pose proof (LocalFS_Put_then_ranged_Get _ _ _ _ _ _ _ _ _ _ _ "bytes=2-5" Hput
                ltac:(reflexivity) ltac:(vm_compute; discriminate)
                ltac:(discriminate)) as H.
  replace (parseRange "bytes=2-5" (Z.of_nat (length Examples.digits)))
    with (2, 5, @None string) in H by (vm_compute; reflexivity).
  destruct H as (H & _). exact H.
Defined.

(** X: Delete.  After a Delete, a Get of the key answers NoSuchKey with
    status 404 and no body, whatever the range, and Head reports that the
    object does not exist without an error.  Delete changes no other path,
    and deleting again, or deleting a key that was never stored, changes
    nothing. *)
Theorem LocalFS_Delete_then_Get (b : LocalFSBackend.t) (files : FS)
    (bucket key rangeSpec : string) :
  let files' := Delete b files bucket key in
  Get b files' bucket key rangeSpec = get_fail 404 "NoSuchKey" /\
  Head b files' bucket key = (EmptyString, EmptyString, 0, false, None) /\
  (forall p, p <> objectPath b bucket key -> p <> metadataPath b bucket key ->
     files' !! p = files !! p) /\
  Delete b files' bucket key = files' /\
  (files !! objectPath b bucket key = None ->
   files !! metadataPath b bucket key = None -> files' = files).
Proof.
  intros files'. subst files'. unfold Delete, Get, Head.
  rewrite !lookup_delete_eq. split_and!; [done..| | |].
  - intros p Ho Hm. by rewrite !lookup_delete_ne.
  - apply map_eq. intros p. rewrite !lookup_delete.
    by repeat case_decide.
  - intros Ho Hm. rewrite (delete_id files) by done. by rewrite delete_id.
Qed.

(** X: a Put that fails.  Whatever goes wrong, the temp file does not stay
    behind and no ETag is returned.  Unless the step that fails is the write
    of the sidecar or the final rename, the store is left exactly as it was.
    When the write of the sidecar fails, every other path is as it was and
    the sidecar is untouched (the file could not be opened) or truncated to
    a prefix of the new metadata; when the rename fails, the new sidecar has
    already replaced the old one while the object file is still the old
    one. *)
Theorem LocalFS_Put_failure (b : LocalFSBackend.t) (io : faults) (rnd : Z)
    (files : FS) (bucket key : string) (data : list byte)
    (contentType contentMD5 : string) :
  let tmpPath := tempPath (Filepath.Dir (objectPath b bucket key)) rnd in
  let metaData :=
    Marshal (Metadata contentType (Strings.quote (MD5.hexsum data))
               (Z.of_nat (length data))) in
  let res := Put b io rnd files bucket key data contentType contentMD5 in
  res.1 !! tmpPath = files !! tmpPath /\
  (res.2.2 <> None -> res.2.1 = EmptyString) /\
  (res.2.2 <> None -> f_writemeta io = None -> f_rename io = None ->
   res.1 = files) /\
  (forall wf, f_writemeta io = Some wf ->
     res.2.2 = Some ("write metadata failed: " +:+ wf_err wf) ->
     res.1 =
       match wf_written wf with
       | None => files
       | Some n => <[metadataPath b bucket key := take n metaData]> files
       end) /\
  (forall e, f_rename io = Some e -> res.2.2 = Some ("rename failed: " +:+ e) ->
     res.1 = <[metadataPath b bucket key := metaData]> files).
Proof.
  intros tmpPath metaData res. subst res. unfold Put. fold tmpPath.
  pose proof (metadataPath_ne_tempPath b bucket key
                (Filepath.Dir (objectPath b bucket key)) rnd) as Hmt.
  fold tmpPath in Hmt.
  destruct (f_mkdir io) as [e1|] eqn:E1.
  { cbn [fst snd]. split_and!; done. }
  destruct (f_create io) as [e2|] eqn:E2.
  { cbn [fst snd]. split_and!; done. }
  destruct (files !! tmpPath) as [old|] eqn:Hfresh.
  { cbn [fst snd]. split_and!; try done; intros ? _ [= H];
      apply (f_equal (fun s => String.get 0 s)) in H; discriminate H. }
  assert (Hback : forall d1 d2,
            delete tmpPath (<[tmpPath := d1]> (<[tmpPath := d2]> files)) = files).
  { intros d1 d2. by rewrite insert_insert_eq, delete_insert_id. }
  destruct (f_copy io) as [e3|] eqn:E3.
  { cbn [fst snd]. rewrite delete_insert_id by done.
    split_and!; done. }
  destruct (f_sync io) as [e4|] eqn:E4.
  { cbn [fst snd]. rewrite Hback. split_and!; done. }
  destruct (f_close io) as [e5|] eqn:E5.
  { cbn [fst snd]. rewrite Hback. split_and!; done. }
  destruct (negb (String.eqb contentMD5 "") && _) eqn:Hmd5.
  { cbn [fst snd]. rewrite Hback. split_and!; try done. }
  destruct (f_writemeta io) as [wf|] eqn:E6.
  { cbn [fst snd]. split_and!; try done.
    - apply lookup_delete_eq.
    - intros wf' [= <-] _. destruct (wf_written wf) as [n|]; [|by rewrite Hback].
      rewrite delete_insert_ne by done. by rewrite Hback. }
  rewrite lookup_insert_ne, lookup_insert_eq by done.
  destruct (f_rename io) as [e7|] eqn:E7; cbn [fst snd].
  - split_and!; try done.
    + apply lookup_delete_eq.
    + intros e [= <-] _. rewrite delete_insert_ne by done.
      by rewrite Hback.
  - split_and!; try done. apply lookup_delete_eq.
Qed.

(** X: keys that alias a sidecar.  The sidecar of [key] is the file
    [key.meta.json], which is also where the object named [key.meta.json]
    lives: a successful Put of that object leaves its bytes in the place of
    the metadata of [key], while the object file of [key] stays as it was. *)
Theorem LocalFS_sidecar_aliasing (b : LocalFSBackend.t) (io : faults) (rnd : Z)
    (files files' : FS) (bucket key : string) (data : list byte)
    (contentType contentMD5 etag : string) :
  Put b io rnd files bucket (key +:+ ".meta.json") data contentType contentMD5 =
    (files', (etag, None)) ->
  objectPath b bucket key <>
    tempPath (Filepath.Dir (objectPath b bucket (key +:+ ".meta.json"))) rnd ->
  files' !! metadataPath b bucket key = Some data /\
  files' !! objectPath b bucket key = files !! objectPath b bucket key.
Proof.
  intros Hput Hot.
  assert (Halias : objectPath b bucket (key +:+ ".meta.json") =
                   metadataPath b bucket key) by done.
  split.
  - apply Put_stored in Hput as (_ & Hobj & _); [by rewrite <- Halias|].
    rewrite Halias. apply metadataPath_ne_tempPath.
  - replace files' with
      (Put b io rnd files bucket (key +:+ ".meta.json") data contentType
         contentMD5).1 by by rewrite Hput.
    apply Put_frame; [|apply metadataPath_ne_objectPath_suffix|done].
    rewrite Halias. intros E. by apply (metadataPath_ne_objectPath b bucket key).
Qed.

Lemma LocalFS_sidecar_aliasing_witness :
  let b := LocalFSBackend.Build "/data" in
  let fs1 :=
    (Put b no_faults 1 ∅ "b" "k" (Bytes.of_string "hello") "text/plain" "").1 in
  let fs2 :=
    (Put b no_faults 2 fs1 "b" "k.meta.json" (Bytes.of_string "oops")
       "text/plain" "").1 in
  g_status (Get b fs1 "b" "k" "") = 200 /\
  fs2 !! metadataPath b "b" "k" = Some (Bytes.of_string "oops") /\
  g_status (Get b fs2 "b" "k" "") = 500.
Proof.
  intros b fs1 fs2. split; [vm_compute; reflexivity|].
  assert (Hput : exists etag,
             Put b no_faults 2 fs1 "b" ("k" +:+ ".meta.json")
               (Bytes.of_string "oops") "text/plain" "" = (fs2, (etag, None))).
  { eexists. vm_compute. reflexivity. }
  destruct Hput as [etag Hput].
  destruct (LocalFS_sidecar_aliasing _ _ _ _ _ _ _ _ _ _ _ Hput
              ltac:(vm_compute; discriminate)) as [Hmeta _].
  split; [exact Hmeta|]. unfold Get. rewrite Hmeta. reflexivity.
Defined.

(** X: a Put leaves the other objects alone.  Whatever its outcome, a Put
    changes at most three paths, the object, its sidecar and the temp name;
    an object whose own object and sidecar paths are none of these reads
    back afterwards exactly as before, through Get with any range and
    through Head. *)
Theorem LocalFS_Put_other_object (b : LocalFSBackend.t) (io : faults) (rnd : Z)
    (files : FS) (bucket key : string) (data : list byte)
    (contentType contentMD5 bucket' key' rangeSpec : string) :
  let touched :=
    [objectPath b bucket key; metadataPath b bucket key;
     tempPath (Filepath.Dir (objectPath b bucket key)) rnd] in
  objectPath b bucket' key' ∉ touched ->
  metadataPath b bucket' key' ∉ touched ->
  let files' := (Put b io rnd files bucket key data contentType contentMD5).1 in
  Get b files' bucket' key' rangeSpec = Get b files bucket' key' rangeSpec /\
  Head b files' bucket' key' = Head b files bucket' key'.
Proof.
  intros touched Ho Hm files'. subst touched files'.
  rewrite !not_elem_of_cons in Ho, Hm.
  destruct Ho as (Ho1 & Ho2 & Ho3 & _). destruct Hm as (Hm1 & Hm2 & Hm3 & _).
  unfold Get, Head. by rewrite !Put_frame.
Qed.

Lemma LocalFS_Put_other_object_witness :
  let b := LocalFSBackend.Build "/data" in
  let fs1 :=
    (Put b no_faults 1 ∅ "b" "k" (Bytes.of_string "hello") "text/plain" "").1 in
  let fs2 :=
    (Put b no_faults 2 fs1 "b" "other" (Bytes.of_string "oops")
       "text/plain" "").1 in
  Get b fs2 "b" "k" "" = Get b fs1 "b" "k" "".
Proof.
  intros b fs1 fs2.
  destruct (LocalFS_Put_other_object b no_faults 2 fs1 "b" "other"
              (Bytes.of_string "oops") "text/plain" "" "b" "k" "") as [H _].
  - rewrite !not_elem_of_cons.
    split_and!; [vm_compute; discriminate..|apply not_elem_of_nil].
  - rewrite !not_elem_of_cons.
    split_and!; [vm_compute; discriminate..|apply not_elem_of_nil].
  - exact H.
Defined.

End LocalFSMore.

(** ** More on the placement ring *)

Section HashRingMore.

Import HashRing.

Implicit Types (hr : HashRing.t) (seen : gset string) (result : list string).

Lemma to_Z_bounded b : 0 <= Bytes.to_Z b < 256.
Proof.
  unfold Bytes.to_Z. pose proof (Byte.to_N_bounded b). lia.
Qed.

Lemma hashKey_bounded key i : 0 <= hashKey key i < 4294967296.
Proof.
  unfold hashKey. destruct (MD5.Sum _) as [|b0 [|b1 [|b2 [|b3 l]]]]; try lia.
  unfold Bytes.be32, Bytes.le32.
  pose proof (to_Z_bounded b0). pose proof (to_Z_bounded b1).
  pose proof (to_Z_bounded b2). pose proof (to_Z_bounded b3). lia.
Qed.

Lemma fold_left_cons {A B : Type} (f : A -> B -> A) (x : B) (l : list B) (a : A) :
  fold_left f (x :: l) a = fold_left f l (f a x).
Proof. reflexivity. Qed.

Lemma add_points_length node (l : list nat) acc :
  length (fold_left (add_point node) l acc).1 = (length acc.1 + length l)%nat.
Proof.
  revert acc. induction l as [|i l IH]; intros acc; simpl; [lia|].
  rewrite IH. unfold add_point. simpl. rewrite length_app. simpl. lia.
Qed.

Lemma add_node_length acc node :
  length (add_node acc node).1 = (length acc.1 + virtualNodes)%nat.
Proof. unfold add_node. by rewrite add_points_length, length_seq. Qed.

Lemma add_nodes_length (l : list string) acc :
  length (fold_left add_node l acc).1 =
  (length acc.1 + virtualNodes * length l)%nat.
Proof.
  revert acc. induction l as [|nd l IH]; intros acc.
  - cbn [fold_left length]. lia.
  - rewrite fold_left_cons, IH, add_node_length, length_cons. lia.
Qed.

Lemma add_node_bounded acc node :
  bounded_points acc -> bounded_points (add_node acc node).
Proof.
  unfold add_node.
  apply (fold_left_invariant _ bounded_points (fun _ => True));
    [|by apply Forall_true].
  intros a i _ Ha h. unfold add_point. simpl.
  intros [Hh|Hh]%elem_of_app; [by apply Ha|].
  apply list_elem_of_singleton in Hh as ->. apply hashKey_bounded.
Qed.

Lemma ring_NewHashRing nds reps :
  ring (NewHashRing nds reps) = sort_points (fold_left add_node nds ([], ∅)).1 /\
  nodeMap (NewHashRing nds reps) = (fold_left add_node nds ([], ∅)).2.
Proof.
  unfold NewHashRing, rebuild. simpl.
  by destruct (fold_left add_node nds ([], ∅)).
Qed.

Lemma NewHashRing_ring_and_members_aux (nds : list string) (reps : Z) :
  let hr := NewHashRing nds reps in
  length (ring hr) = (150 * length nds)%nat /\
  Sorted Z.le (ring hr) /\
  (forall h, h ∈ ring hr ->
     0 <= h < 4294967296 /\ exists nd, nd ∈ nds /\ nodeMap hr !! h = Some nd).
Proof.
  intros hr. destruct (ring_NewHashRing nds reps) as [Hring Hmap].
  fold hr in Hring, Hmap.
  assert (Hown : owned_by nds (fold_left add_node nds ([], ∅))).
  { apply rebuild_loop_owned; [done|]. intros h Hh. by apply elem_of_nil in Hh. }
  assert (Hbnd : bounded_points (fold_left add_node nds ([], ∅))).
  { apply (fold_left_invariant _ bounded_points (fun _ => True));
      [|by apply Forall_true|].
    - intros a nd _. apply add_node_bounded.
    - intros h Hh. by apply elem_of_nil in Hh. }
  split_and!.
  - rewrite Hring, sort_points_Permutation, add_nodes_length. simpl length.
    unfold virtualNodes. lia.
  - rewrite Hring. apply sort_points_Sorted.
  - intros h Hh. rewrite Hring, sort_points_Permutation in Hh. split.
    + by apply Hbnd.
    + rewrite Hmap. by apply Hown.
Qed.

(** X: the ring that [NewHashRing] builds.  It holds 150 points for each
    node given, sorted in non-decreasing order, each a 32-bit value owned by
    one of the nodes; and [GetNodes] only ever returns nodes the ring was
    built from, none at all for an empty node list or when asked for zero
    nodes. *)
Theorem NewHashRing_ring_and_members (nds : list string) (reps : Z)
    (key : string) (n : nat) :
  let hr := NewHashRing nds reps in
  length (ring hr) = (150 * length nds)%nat /\
  Sorted Z.le (ring hr) /\
  (forall h, h ∈ ring hr ->
     0 <= h < 4294967296 /\ exists nd, nd ∈ nds /\ nodeMap hr !! h = Some nd) /\
  (forall x, x ∈ GetNodes hr key n -> x ∈ nds) /\
  (nds = [] \/ n = 0%nat -> GetNodes hr key n = []).
Proof.
  intros hr.
  destruct (NewHashRing_ring_and_members_aux nds reps) as (Hlen & Hs & Hpts).
  split_and!; [done..| |].
  - intros x Hx. eapply NewHashRing_owners, GetNodes_owners, Hx.
  - intros [-> | ->].
    + unfold GetNodes, hr. by rewrite NewHashRing_nodes.
    + pose proof (GetNodes_length hr key 0) as Hle.
      destruct (GetNodes hr key 0); [done|simpl in Hle; lia].
Qed.

Lemma walk_mono hr idx n m steps i seen result :
  (n <= m)%nat ->
  exists extra,
    walk hr idx m steps i seen result =
    walk hr idx n steps i seen result ++ extra.
Proof.
  intros Hnm. revert i seen result.
  induction steps as [|steps IH]; intros i seen result; simpl.
  - exists []. by rewrite app_nil_r.
  - destruct (length result <? n)%nat eqn:Hn.
    + apply Nat.ltb_lt in Hn.
      assert ((length result <? m)%nat = true) as -> by (apply Nat.ltb_lt; lia).
      destruct (decide _); apply IH.
    + destruct (length result <? m)%nat; [|exists []; by rewrite app_nil_r].
      destruct (decide _) as [Hin|Hnin]; [apply walk_prefix|].
      destruct (walk_prefix hr idx m steps (S i)
                  ({[owner_at hr ((idx + i) mod length (ring hr))]} ∪ seen)
                  (result ++ [owner_at hr ((idx + i) mod length (ring hr))]))
        as [extra ->].
      eexists. by rewrite <- app_assoc.
Qed.

(** X: how many nodes [GetNodes] returns, and which.  On a ring where every
    node owns a point and the nodes are pairwise distinct, a request for
    [n] nodes returns exactly [min n (number of nodes)] of them; and in any
    ring the nodes returned for [n] are the first ones of those returned
    for any larger number, so that raising the replica count keeps the
    replicas an object already has. *)
Theorem GetNodes_count_and_prefix (hr : HashRing.t) (key : string) (n m : nat) :
  (n <= m)%nat ->
  (exists extra, GetNodes hr key m = GetNodes hr key n ++ extra) /\
  (every_node_owns_a_point hr = true -> NoDup (nodes hr) ->
   length (GetNodes hr key n) = Nat.min n (length (nodes hr))).
Proof.
  intros Hnm. split.
  - unfold GetNodes. destruct (nodes hr) as [|nd nds]; [by exists []|].
    apply walk_mono.
    destruct (length (nd :: nds) <? n)%nat eqn:Hn,
             (length (nd :: nds) <? m)%nat eqn:Hm;
      rewrite ?Nat.ltb_lt, ?Nat.ltb_ge in *; lia.
  - intros Hown Hnd.
    destruct (nodes hr) as [|nd nds] eqn:Hnodes.
    { unfold GetNodes. rewrite Hnodes. simpl. lia. }
    set (n' := if (length (nd :: nds) <? n)%nat then length (nd :: nds) else n).
    assert (Hn' : n' = Nat.min n (length (nd :: nds))).
    { unfold n'. destruct (length (nd :: nds) <? n)%nat eqn:Hlt;
        rewrite ?Nat.ltb_lt, ?Nat.ltb_ge in *; lia. }
    assert (Hget : GetNodes hr key n =
                   walk hr (start_index hr key) n' (length (ring hr)) 0 ∅ []).
    { unfold GetNodes. by rewrite Hnodes. }
    rewrite <- Hn'.
    pose proof (walk_length hr (start_index hr key) n' (length (ring hr)) 0 ∅ []
                  ltac:(simpl; lia)) as Hle.
    rewrite <- Hget in Hle.
    destruct (decide (length (GetNodes hr key n) < n')%nat) as [Hlt|Hge]; [|lia].
    exfalso.
    pose proof (walk_visits hr (start_index hr key) n' (length (ring hr)) 0 ∅ []
                  ltac:(set_solver)) as Hall.
    simpl in Hall. rewrite <- Hget in Hall. specialize (Hall Hlt).
    assert (Hsub : forall x, x ∈ nd :: nds -> x ∈ GetNodes hr key n).
    { intros x Hx. unfold every_node_owns_a_point in Hown.
      rewrite forallb_forall in Hown. rewrite Hnodes in Hown.
      specialize (Hown x ltac:(by apply list_elem_of_In)).
      apply existsb_exists in Hown as (y & Hy & Heq).
      apply String.eqb_eq in Heq. subst y.
      apply list_elem_of_In, list_elem_of_fmap in Hy as (h & -> & Hh).
      apply list_elem_of_In, (In_nth _ _ 0) in Hh as (p & Hp & Hnth).
      set (len := length (ring hr)) in *.
      set (idx := start_index hr key) in *.
      assert (Hidx : (idx < len)%nat) by (apply start_index_lt; lia).
      specialize (Hall ((p + len - idx) mod len)%nat).
      assert (Hj : ((idx + (p + len - idx) mod len) mod len = p)%nat).
      { rewrite Nat.Div0.add_mod_idemp_r.
        replace (idx + (p + len - idx))%nat with (p + 1 * len)%nat by lia.
        rewrite Nat.Div0.mod_add. apply Nat.mod_small. lia. }
      rewrite Hj in Hall. unfold owner_at in Hall. rewrite Hnth in Hall.
      apply Hall. split; [lia|]. apply Nat.mod_upper_bound. lia. }
    assert (length (nd :: nds) <= length (GetNodes hr key n))%nat
      by (by apply submseteq_length, NoDup_submseteq).
    lia.
Qed.

Lemma GetNodes_count_and_prefix_witness :
  let hr := NewHashRing ["node1"; "node2"; "node3"]%string 3 in
  (exists extra,
     GetNodes hr "test/key" 3 = GetNodes hr "test/key" 2 ++ extra) /\
  length (GetNodes hr "test/key" 2) = 2%nat.
Proof.
  intros hr.
  destruct (GetNodes_count_and_prefix hr "test/key" 2 3 ltac:(lia))
    as [Hpre Hlen].
  split; [exact Hpre|].
  rewrite Hlen; [reflexivity|vm_compute; reflexivity|].
  apply (bool_decide_unpack _). vm_compute. exact I.
Defined.

End HashRingMore.

Section SearchFacts.

Import HashRing.

Lemma search_loop_spec (f : nat -> bool) (n : nat) :
  (forall a b, (a <= b)%nat -> (b < n)%nat -> f a = true -> f b = true) ->
  forall fuel i j,
    (i <= j <= n)%nat -> (j - i <= fuel)%nat ->
    (forall k, (k < i)%nat -> f k = false) ->
    (forall k, (j <= k < n)%nat -> f k = true) ->
    let r := search_loop fuel f i j in
    (i <= r <= j)%nat /\
    (forall k, (k < r)%nat -> f k = false) /\
    (forall k, (r <= k < n)%nat -> f k = true).
Proof.
  intros Hmono. induction fuel as [|fuel IH]; intros i j Hij Hfuel Hlo Hhi;
    cbn [search_loop].
  - assert (i = j) as -> by lia. split; [lia|by split].
  - destruct (i <? j)%nat eqn:Hlt.
    2:{ apply Nat.ltb_ge in Hlt. assert (i = j) as -> by lia.
        split; [lia|by split]. }
    apply Nat.ltb_lt in Hlt.
    assert (Hh : (i <= (i + j) / 2 < j)%nat).
    { split.
      - apply Nat.div_le_lower_bound; lia.
      - apply Nat.Div0.div_lt_upper_bound; lia. }
    set (h := ((i + j) / 2)%nat) in *. clearbody h.
    destruct (f h) eqn:Hf; cbn [negb].
    + destruct (IH i h) as (Hr & Hl & Hu); [lia|lia|done| |].
      * intros k Hk. apply (Hmono h); [lia|lia|done].
      * split; [lia|by split].
    + destruct (IH (h + 1)%nat j) as (Hr & Hl & Hu); [lia|lia| |done|].
      * intros k Hk. destruct (f k) eqn:Hfk; [|done].
        rewrite (Hmono k h) in Hf; [done|lia|lia|done].
      * split; [lia|by split].
Qed.

Lemma StronglySorted_nth (l : list Z) a b :
  StronglySorted Z.le l -> (a <= b)%nat -> (b < length l)%nat ->
  nth a l 0 <= nth b l 0.
Proof.
  intros Hs. revert a b. induction Hs as [|x l Hs IH Hx]; intros a b Hab Hb.
  - simpl in Hb. lia.
  - destruct a as [|a], b as [|b]; simpl in *; [lia| |lia|apply IH; lia].
    rewrite Forall_forall in Hx. apply Hx, list_elem_of_In, nth_In. lia.
Qed.

(** X: the primary replica.  On the ring built from a non-empty node list,
    the first node [GetNodes] returns is the owner of the first ring point,
    in ring order, whose value is at least the hash of the key, and the
    owner of the lowest point when every point lies below the hash: the
    binary search finds the successor of the key on the ring, wrapping
    around at the end. *)
Theorem GetNodes_primary_is_successor (nds : list string) (reps : Z)
    (key : string) (n : nat) :
  nds <> [] -> (1 <= n)%nat ->
  let hr := NewHashRing nds reps in
  let h := hashKey key 0 in
  exists i p rest,
    (i < length (ring hr))%nat /\
    GetNodes hr key n = p :: rest /\
    nodeMap hr !! nth i (ring hr) 0 = Some p /\ p ∈ nds /\
    (forall j, (j < i)%nat -> nth j (ring hr) 0 < h) /\
    (h <= nth i (ring hr) 0 \/
     i = 0%nat /\ forall j, (j < length (ring hr))%nat -> nth j (ring hr) 0 < h).
Proof.
  intros Hne Hn hr h.
  destruct (NewHashRing_ring_and_members_aux nds reps)
    as (Hlen & Hsorted & Hpts).
  fold hr in Hlen, Hsorted, Hpts.
  assert (Hpos : (0 < length (ring hr))%nat).
  { rewrite Hlen. destruct nds; [done|simpl; lia]. }
  set (len := length (ring hr)) in *.
  set (f := fun i : nat => h <=? nth i (ring hr) 0).
  assert (Hmono : forall a b, (a <= b)%nat -> (b < len)%nat ->
                    f a = true -> f b = true).
  { intros a b Hab Hb. unfold f. rewrite !Z.leb_le. intros Ha.
    assert (Hss : StronglySorted Z.le (ring hr)).
    { apply Sorted_StronglySorted; [|done]. intros x y z. apply Z.le_trans. }
    pose proof (StronglySorted_nth (ring hr) a b Hss Hab Hb). lia. }
  destruct (search_loop_spec f len Hmono len 0%nat len)
    as (Hr & Hlo & Hhi); [lia|lia|intros; lia|intros; lia|].
  fold (Search len f) in Hr, Hlo, Hhi.
  set (idx := start_index hr key).
  assert (Hidx : idx = if (len <=? Search len f)%nat then 0%nat else Search len f)
    by done.
  assert (Hlt : (idx < len)%nat) by (by apply start_index_lt).
  assert (Hsucc : (forall j, (j < idx)%nat -> nth j (ring hr) 0 < h) /\
                  (h <= nth idx (ring hr) 0 \/
                   idx = 0%nat /\
                   forall j, (j < len)%nat -> nth j (ring hr) 0 < h)).
  { rewrite Hidx. destruct (len <=? Search len f)%nat eqn:Hle.
    - apply Nat.leb_le in Hle. split; [intros; lia|]. right. split; [done|].
      intros j Hj. specialize (Hlo j ltac:(lia)). unfold f in Hlo.
      by apply Z.leb_gt in Hlo.
    - apply Nat.leb_gt in Hle. split.
      + intros j Hj. specialize (Hlo j Hj). unfold f in Hlo.
        by apply Z.leb_gt in Hlo.
      + left. specialize (Hhi (Search len f) ltac:(lia)). unfold f in Hhi.
        by apply Z.leb_le in Hhi. }
  destruct (Hpts (nth idx (ring hr) 0)) as (_ & p & Hp & Hown).
  { apply list_elem_of_In, nth_In. done. }
  assert (Howner : owner_at hr idx = p) by (unfold owner_at; by rewrite Hown).
  assert (Hget : exists rest, GetNodes hr key n = p :: rest).
  { pose proof (NewHashRing_nodes nds reps) as Hnodes. fold hr in Hnodes.
    unfold GetNodes. rewrite Hnodes.
    destruct nds as [|nd nds']; [done|].
    set (n' := if (length (nd :: nds') <? n)%nat then _ else n).
    assert (Hn' : (0 < n')%nat).
    { unfold n'. destruct (_ <? _)%nat; [simpl; lia|lia]. }
    fold len idx. destruct len as [|steps] eqn:Hl; [lia|].
    cbn [walk]. simpl length.
    destruct (0 <? n')%nat eqn:H0; [|apply Nat.ltb_ge in H0; lia].
    rewrite Nat.add_0_r, Nat.mod_small by lia. rewrite Howner.
    destruct (decide (p ∈ (∅ : gset string))) as [Hin|_]; [set_solver|].
    destruct (walk_prefix hr idx n' steps 1 ({[p]} ∪ ∅) ([] ++ [p]))
      as [extra ->].
    by exists extra. }
  destruct Hget as [rest Hget].
  destruct Hsucc as [Hbelow Hat].
  exists idx, p, rest. repeat (split; [done|]). done.
Qed.

Lemma GetNodes_primary_is_successor_witness :
  exists p rest,
    GetNodes (NewHashRing ["node1"; "node2"; "node3"]%string 3) "test/key" 1 =
      p :: rest /\
    p ∈ ["node1"; "node2"; "node3"]%string.
Proof.
  destruct (GetNodes_primary_is_successor ["node1"; "node2"; "node3"]%string 3
              "test/key" 1 ltac:(discriminate) ltac:(lia))
    as (i & p & rest & _ & Hget & _ & Hp & _).
  exists p, rest. split; [exact Hget|exact Hp].
Defined.

End SearchFacts.

(** ** More on the multipart manager *)

Section MultipartMore.

Import MultipartManager.

Context {B : Type} `{Backend B}.

Implicit Types (m : MultipartManager.t B) (upload : MultipartUpload)
  (parts : list CompletePart) (seen : gset Z).

Lemma cleanup_scratch_same m uploadID n :
  scratch (cleanup m uploadID) !! (uploadID, n) = None.
Proof.
  unfold cleanup. simpl. apply map_lookup_filter_None. right.
  intros x _ Hne. by apply Hne.
Qed.


Lemma validate_loop_iff upload prevNum parts :
  validate_loop upload ∅ prevNum parts = None <->
  StronglySorted Z.lt (prevNum :: map cpPartNumber parts) /\
  Forall (part_matches upload) parts.
Proof.
  revert prevNum. induction parts as [|part rest IH]; intros prevNum.
  - simpl. split; [|done]. intros _. split; [|constructor].
    constructor; constructor.
  - cbn [validate_loop map].
    destruct (Z.leb_spec (cpPartNumber part) prevNum) as [Hle|Hlt].
    { split; [done|]. intros [Hs _].
      apply StronglySorted_inv in Hs as [_ Hall].
      apply Forall_cons in Hall as [Hlt _]. lia. }
    rewrite bool_decide_eq_false_2 by apply not_elem_of_empty.
    destruct (Parts upload !! cpPartNumber part) as [stored|] eqn:Hst.
    2:{ split; [done|]. intros [_ Hall].
        apply Forall_cons in Hall as [(s & Hs & _) _]. congruence. }
    destruct (String.eqb_spec (ETag stored) (cpETag part)) as [Het|Het];
      cbn [negb].
    2:{ split; [done|]. intros [_ Hall].
        apply Forall_cons in Hall as [(s & Hs & He) _]. congruence. }
    rewrite validate_loop_seen_irrelevant.
    2:{ apply (seen_step _ _ prevNum); [|lia]. by intros x ?%not_elem_of_empty. }
    rewrite IH. split.
    + intros [Hs Hall]. split.
      * constructor; [done|]. constructor; [lia|].
        apply StronglySorted_inv in Hs as [_ Hgt].
        eapply Forall_impl; [exact Hgt|]. simpl. intros; lia.
      * constructor; [by exists stored|done].
    + intros [Hs Hall]. apply StronglySorted_inv in Hs as [Hs _].
      apply Forall_cons in Hall as [_ Hall]. done.
Qed.

(** X: what [validateParts] accepts.  A part list passes validation exactly
    when it is not empty, its part numbers are positive and strictly
    increasing, and every entry names a part that has been uploaded with
    the ETag recorded for it; otherwise the error is InvalidPart or
    InvalidPartOrder. *)
Theorem validateParts_accepts_iff upload parts :
  (validateParts upload parts = None <->
   parts <> [] /\
   StronglySorted Z.lt (0 :: map cpPartNumber parts) /\
   Forall (part_matches upload) parts) /\
  (forall e, validateParts upload parts = Some e ->
     e = "InvalidPart"%string \/ e = "InvalidPartOrder"%string).
Proof.
  split.
  - destruct parts as [|part rest].
    + simpl. split; [done|]. by intros [? _].
    + change (validateParts upload (part :: rest)) with
        (validate_loop upload ∅ 0 (part :: rest)).
      rewrite validate_loop_iff. split; [by intros []|by intros (_ & ? & ?)].
  - destruct parts as [|part rest]; [intros e [= <-]; by left|].
    change (validateParts upload (part :: rest)) with
      (validate_loop upload ∅ 0 (part :: rest)).
    generalize (part :: rest) (∅ : gset Z) 0. clear part rest.
    intros l. induction l as [|part rest IH]; intros seen prev e; [done|].
    simpl. destruct (_ <=? _); [intros [= <-]; by right|].
    destruct (bool_decide _); [intros [= <-]; by left|].
    destruct (Parts upload !! _); [|intros [= <-]; by left].
    destruct (negb _); [intros [= <-]; by left|]. apply IH.
Qed.


(** X: a completed upload cannot be used again.  [CompleteUpload] removes
    the scratch directory but leaves the upload in the table.  After a
    Complete that succeeded, every further Complete of the same upload
    fails, with the parts that were accepted as an internal error (500) and
    never as NoSuchUpload, and so does every further UploadPart; neither
    changes the manager. *)
Theorem CompleteUpload_not_repeatable m m' uploadID parts etag :
  CompleteUpload m uploadID parts = (m', (etag, None)) ->
  uploads m' !! uploadID = uploads m !! uploadID /\
  is_Some (uploads m' !! uploadID) /\
  (forall parts',
     exists e, CompleteUpload m' uploadID parts' = (m', (EmptyString, Some e)) /\
       e <> "NoSuchUpload"%string) /\
  complete_status (CompleteUpload m' uploadID parts).2 =
    ("InternalError"%string, 500) /\
  (forall n data,
     exists e, UploadPart m' uploadID n data = (m', (EmptyString, Some e)) /\
       e <> "NoSuchUpload"%string).
Proof.
  unfold CompleteUpload at 1.
  destruct (uploads m !! uploadID) as [upload|] eqn:Hup; [|done].
  destruct (validateParts upload parts) as [e|] eqn:Hval; [done|].
  destruct (assemble m uploadID parts) as [[final sums]|]; [|done].
  destruct (bPut _ _ _ _ _ _) as [b' [e' [err|]]]; [done|].
  intros [= <- <-].
  set (m' := cleanup _ uploadID).
  assert (Hup' : uploads m' !! uploadID = Some upload) by done.
  assert (Hgone : forall parts', parts' <> [] -> assemble m' uploadID parts' = None).
  { assert (Hs : forall n, scratch m' !! (uploadID, n) = None)
      by (intros n; apply cleanup_scratch_same).
    intros [|part rest] Hne; [done|]. cbn [assemble]. by rewrite Hs. }
  assert (Hagain : forall parts',
            exists e, CompleteUpload m' uploadID parts' =
                        (m', (EmptyString, Some e)) /\
              (validateParts upload parts' = None ->
               e = "open: no such file or directory"%string) /\
              e <> "NoSuchUpload"%string).
  { intros parts'. unfold CompleteUpload. rewrite Hup'.
    destruct (validateParts upload parts') as [e|] eqn:Hval'.
    - exists e. split_and!; [done..|].
      destruct (proj2 (validateParts_accepts_iff upload parts') e Hval')
        as [-> | ->]; done.
    - rewrite Hgone; [by eexists|]. intros ->. done. }
  split_and!; [done|by rewrite Hup'| | |].
  - intros parts'. destruct (Hagain parts') as (e & He & _ & Hne). by exists e.
  - destruct (Hagain parts) as (e & -> & He & _). by rewrite (He Hval).
  - intros n data. unfold UploadPart. rewrite Hup'.
    destruct (_ || _); [by eexists|].
    rewrite bool_decide_eq_false_2; [by eexists|].
    unfold m', cleanup. simpl.
    rewrite elem_of_difference, elem_of_singleton. tauto.
Qed.

(** The manager after a series of part uploads, and the part list a client
    builds from the ETags returned. *)
Lemma upload_all_spec uploadID (ups : list (Z * list byte)) m upload :
  uploads m !! uploadID = Some upload -> uploadID ∈ dirs m ->
  Forall (fun u => 1 <= u.1 <= 10000) ups -> NoDup (map fst ups) ->
  exists upload1,
    uploads (upload_all m uploadID ups) !! uploadID = Some upload1 /\
    Bucket upload1 = Bucket upload /\ Key upload1 = Key upload /\
    uploadID ∈ dirs (upload_all m uploadID ups) /\
    backend (upload_all m uploadID ups) = backend m /\
    (forall n d, (n, d) ∈ ups ->
       Parts upload1 !! n =
         Some (Build_PartInfo n (Strings.quote (MD5.hexsum d))
                 (Z.of_nat (length d))) /\
       scratch (upload_all m uploadID ups) !! (uploadID, n) = Some d) /\
    (forall n, n ∉ map fst ups ->
       Parts upload1 !! n = Parts upload !! n /\
       scratch (upload_all m uploadID ups) !! (uploadID, n) =
         scratch m !! (uploadID, n)).
Proof.
  revert m upload. induction ups as [|[n d] ups IH]; intros m upload Hup Hdir Hall Hnd.
  - exists upload. split_and!; try done. intros n d Hin. by apply elem_of_nil in Hin.
  - apply Forall_cons in Hall as [Hn Hall]. simpl in Hn.
    apply NoDup_cons in Hnd as [Hnotin Hnd]. simpl in Hnotin.
    unfold upload_all. rewrite fold_left_cons. fold (upload_all).
    set (m' := (UploadPart m uploadID (n, d).1 (n, d).2).1).
    set (upload' :=
           Build_MultipartUpload (UploadID upload) (Bucket upload) (Key upload)
             (<[n := Build_PartInfo n (Strings.quote (MD5.hexsum d))
                       (Z.of_nat (length d))]> (Parts upload))).
    assert (Hm' : m' = MultipartManager.Build (<[uploadID := upload']> (uploads m))
                         (dirs m) (<[(uploadID, n) := d]> (scratch m)) (backend m)).
    { unfold m', UploadPart. simpl. rewrite Hup.
      destruct (Z.ltb_spec n 1); [lia|]. destruct (Z.ltb_spec 10000 n); [lia|].
      simpl. by rewrite bool_decide_eq_true_2. }
    change (fold_left _ ups m') with (upload_all m' uploadID ups).
    destruct (IH m' upload') as (upload1 & Hup1 & Hb & Hk & Hd & Hbk & Hin & Hout);
      [by rewrite Hm'; simpl; rewrite lookup_insert_eq|by rewrite Hm'|done|done|].
    exists upload1. split_and!; [done|done|done|done|by rewrite Hbk, Hm'| |].
    + intros n' d' [[= -> ->]|Hin']%elem_of_cons; [|by apply Hin].
      destruct (Hout n Hnotin) as [Hp Hs]. rewrite Hp, Hs, Hm'. simpl.
      by rewrite !lookup_insert_eq.
    + intros n' Hn'. simpl in Hn'. apply not_elem_of_cons in Hn' as [Hne Hn'].
      destruct (Hout n' Hn') as [Hp Hs]. rewrite Hp, Hs, Hm'. simpl.
      rewrite !lookup_insert_ne by congruence. done.
Qed.

Lemma StronglySorted_lt_NoDup (l : list Z) : StronglySorted Z.lt l -> NoDup l.
Proof.
  induction 1 as [|x l Hs IH Hx]; constructor; [|done].
  intros Hin. rewrite Forall_forall in Hx. specialize (Hx x Hin). lia.
Qed.

(** X: a multipart upload from start to end.  After [InitiateUpload], the
    upload of parts with positive, strictly increasing numbers up to
    10000, and a Complete that lists these parts with the ETags
    [UploadPart] returned for them (the quoted hex MD5 of each part), the
    backend has been handed the concatenation of the parts under the
    bucket and key of the upload, and the ETag returned is the composite
    one: the hex MD5 of the concatenated part digests, a dash and the
    number of parts.  The backend Put is assumed to succeed. *)
Theorem Multipart_upload_then_complete m (uploadID bucket key : string)
    (ups : list (Z * list byte)) (b' : B) (etag' : string) :
  ups <> [] ->
  StronglySorted Z.lt (0 :: map fst ups) ->
  Forall (fun u => u.1 <= 10000) ups ->
  bPut (backend m) bucket key (concat (map snd ups))
    "application/octet-stream" "" = (b', (etag', None)) ->
  let m1 := upload_all (InitiateUpload m uploadID bucket key) uploadID ups in
  let parts := client_parts ups in
  Forall2 (fun u part =>
             cpPartNumber part = u.1 /\
             cpETag part = Strings.quote (MD5.hexsum u.2)) ups parts /\
  (CompleteUpload m1 uploadID parts).2 =
    (composite_etag (map snd ups), None) /\
  backend (CompleteUpload m1 uploadID parts).1 = b'.
Proof.
  intros Hne Hsorted Hmax Hput m1 parts.
  assert (Hnums : map cpPartNumber parts = map fst ups).
  { unfold parts, client_parts. rewrite map_map. by apply map_ext. }
  assert (Hrange : Forall (fun u => 1 <= u.1 <= 10000) ups).
  { apply StronglySorted_inv in Hsorted as [_ Hpos].
    apply Forall_forall. intros u Hu.
    pose proof (proj1 (Forall_forall _ _) Hmax u Hu) as Hu1.
    pose proof (proj1 (Forall_forall _ _) Hpos u.1) as Hu0. simpl in Hu1.
    assert (0 < u.1); [|lia]. apply Hu0, list_elem_of_In, in_map.
    by apply list_elem_of_In. }
  assert (Hnd : NoDup (map fst ups)).
  { apply StronglySorted_lt_NoDup.
    by apply StronglySorted_inv in Hsorted as [? _]. }
  destruct (upload_all_spec uploadID ups (InitiateUpload m uploadID bucket key)
              (Build_MultipartUpload uploadID bucket key ∅))
    as (upload1 & Hup1 & Hb & Hk & _ & Hbk & Hin & _);
    [by simpl; rewrite lookup_insert_eq|simpl; set_solver|done|done|].
  fold m1 in Hup1, Hbk, Hin. simpl in Hb, Hk, Hbk.
  assert (Hval : validateParts upload1 parts = None).
  { destruct parts as [|p ps] eqn:Hparts.
    { destruct ups; [done|discriminate Hparts]. }
    change (validateParts upload1 (p :: ps)) with
      (validate_loop upload1 ∅ 0 (p :: ps)).
    apply validate_loop_iff. rewrite Hnums. split; [done|].
    rewrite <- Hparts. unfold parts, client_parts. apply Forall_map.
    apply Forall_forall. intros [n d] Hu. destruct (Hin n d Hu) as [Hp _].
    eexists. split; [exact Hp|done]. }
  assert (Hfiles : map (part_file m1 uploadID) parts = map snd ups).
  { unfold parts, client_parts. rewrite map_map. apply map_ext_in.
    intros [n d] Hu. apply list_elem_of_In in Hu.
    destruct (Hin n d Hu) as [_ Hs]. unfold part_file. simpl. by rewrite Hs. }
  assert (Hasm : assemble m1 uploadID parts =
                 Some (concat (map snd ups), concat (map MD5.Sum (map snd ups)))).
  { rewrite assemble_present, Hfiles; [done|].
    unfold parts, client_parts. apply Forall_map, Forall_forall.
    intros [n d] Hu. destruct (Hin n d Hu) as [_ Hs]. simpl. by rewrite Hs. }
  split.
  { unfold parts, client_parts. clear. induction ups as [|[n d] ups IH];
      constructor; done. }
  unfold CompleteUpload. rewrite Hup1, Hval, Hasm, Hbk, Hb, Hk, Hput.
  cbn [fst snd]. split; [|done].
  unfold composite_etag.
  replace (length parts) with (length (map snd ups)); [done|].
  unfold parts, client_parts. by rewrite !length_map.
Qed.

End MultipartMore.

Lemma CompleteUpload_not_repeatable_witness :
  let parts :=
    [MultipartManager.Build_CompletePart 1 (Examples.etag_of Examples.part1);
     MultipartManager.Build_CompletePart 2 (Examples.etag_of Examples.part2)] in
  let m' := (MultipartManager.CompleteUpload Examples.manager_two_parts "u1" parts).1 in
  MultipartManager.complete_status
    (MultipartManager.CompleteUpload m' "u1" parts).2 =
  ("InternalError"%string, 500).
Proof.
  intros parts m'.
  assert (Hc : exists etag,
             MultipartManager.CompleteUpload Examples.manager_two_parts "u1" parts =
             (m', (etag, None))).
  { eexists. vm_compute. reflexivity. }
  destruct Hc as [etag Hc].
  destruct (CompleteUpload_not_repeatable _ _ _ _ _ Hc) as (_ & _ & _ & H & _).
  exact H.
Defined.

Lemma Multipart_upload_then_complete_witness :
  let ups := [(1, Examples.part1); (2, Examples.part2)] in
  let m0 :=
    MultipartManager.InitiateUpload
      (MultipartManager.NewMultipartManager (Examples.node "/data1"))
      "u1" "test" "key" in
  (MultipartManager.CompleteUpload
     (MultipartManager.upload_all m0 "u1" ups) "u1"
     (MultipartManager.client_parts ups)).2 =
  (Strings.quote "620e8b191a353bdc9189840bb3904928-2", None).
Proof.
  intros ups m0.
  set (put := bPut (Examples.node "/data1") "test" "key"
                (concat (map snd ups)) "application/octet-stream" "").
  assert (Hput : bPut (MultipartManager.backend
                         (MultipartManager.NewMultipartManager
                            (Examples.node "/data1")))
                   "test" "key" (concat (map snd ups))
                   "application/octet-stream" "" = (put.1, (put.2.1, None)))
    by (vm_compute; reflexivity).
  assert (Hs : StronglySorted Z.lt (0 :: map fst ups)).
  { repeat constructor. }
  destruct (Multipart_upload_then_complete
              (MultipartManager.NewMultipartManager (Examples.node "/data1"))
              "u1" "test" "key" ups put.1 put.2.1 ltac:(discriminate) Hs
              ltac:(repeat constructor; simpl; lia) Hput) as (_ & H & _).
  fold m0 in H. rewrite H. vm_compute. reflexivity.
Defined.

Section CoalescerMore.

Import RequestCoalescer.

Implicit Types (s : RequestCoalescer.t) (g : goroutine) (p : pc) (tid q : nat).

Ltac thr2 Hg :=
  repeat match goal with
  | H : move _ _ _ _ !! _ = Some _ |- _ =>
      destruct (move_lookup_inv _ _ _ _ _ _ Hg H) as [[-> ->]|[? ?]]; clear H
  end.

Lemma refers_cases p q :
  refers p = Some q ->
  leads p = Some q \/ p = Waiting q \/ exists v, p = Returned q v.
Proof. destruct p; intros [= <-]; eauto. Qed.

(** A move of one goroutine keeps [same_key] when the request it comes to
    refer to is one whose other holders have its key. *)
Lemma same_key_move s tid g p' infl hp st cl :
  same_key s -> threads s !! tid = Some g ->
  (forall t2 g2 q, t2 <> tid -> threads s !! t2 = Some g2 ->
     refers p' = Some q -> refers (t_pc g2) = Some q -> t_key g = t_key g2) ->
  same_key (Build infl hp st (move s tid g p') cl).
Proof.
  intros Hsk Hg Hnew t1 t2 g1 g2 q H1 H2 Hq1 Hq2. simpl in H1, H2.
  thr2 Hg; simpl in *; [done| | |by eapply Hsk].
  - symmetry. eapply Hnew; eauto.
  - eapply Hnew; eauto.
Qed.

Lemma same_key_step s tid s' :
  inv s -> same_key s -> step tid s = Some s' -> same_key s'.
Proof.
  intros I Hsk. unfold step.
  destruct (threads s !! tid) as [g|] eqn:Hg; simpl; [|done].
  assert (Hold : forall t2 g2 q, threads s !! t2 = Some g2 ->
            refers (t_pc g) = Some q -> refers (t_pc g2) = Some q ->
            t_key g = t_key g2) by (intros; by eapply (Hsk tid)).
  destruct (t_pc g) as [| |q|q|q c|q|q|q v] eqn:Hpc.
  - intros [= <-]. apply same_key_move; [done..|]. by intros.
  - destruct (inflight s !! t_key g) as [q|] eqn:Hin; intros [= <-];
      (apply same_key_move; [done..|]); intros t2 g2 q' Hne H2 [= <-] Hq2.
    + destruct (inv_table s I _ _ Hin) as (t0 & g0 & H0 & <- & Hq0).
      eapply Hsk; eauto using leads_refers, registered_leads.
    + pose proof (inv_bound s I _ _ _ H2 Hq2). lia.
  - destruct (heap s !! q) as [r|]; simpl; [|done].
    destruct (done r); intros [= <-]. apply same_key_move; [done..|].
    intros t2 g2 q' Hne H2 [= <-] Hq2. by eapply Hold.
  - intros [= <-]. apply same_key_move; [done..|].
    intros t2 g2 q' Hne H2 [= <-] Hq2. by eapply Hold.
  - intros [= <-]. apply same_key_move; [done..|].
    intros t2 g2 q' Hne H2 [= <-] Hq2. by eapply Hold.
  - intros [= <-]. apply same_key_move; [done..|].
    intros t2 g2 q' Hne H2 [= <-] Hq2. by eapply Hold.
  - destruct (heap s !! q) as [r|]; simpl; intros [= <-].
    apply same_key_move; [done..|].
    intros t2 g2 q' Hne H2 [= <-] Hq2. by eapply Hold.
  - done.
Qed.

Lemma init_pc callers tid g :
  threads (NewRequestCoalescer callers) !! tid = Some g -> t_pc g = Start.
Proof.
  unfold NewRequestCoalescer. simpl. revert tid.
  induction callers as [|c callers IH]; intros [|tid] Hg; simpl in Hg; try done.
  - by injection Hg as <-.
  - by eapply IH.
Qed.

Lemma same_key_init callers : same_key (NewRequestCoalescer callers).
Proof.
  intros t1 t2 g1 g2 q H1 _ Hq. by rewrite (init_pc _ _ _ H1) in Hq.
Qed.

Lemma leader_returned_step s tid s' :
  inv s -> leader_returned s -> step tid s = Some s' -> leader_returned s'.
Proof.
  intros I Hlr. unfold step.
  destruct (threads s !! tid) as [g|] eqn:Hg; simpl; [|done].
  (* a returned goroutine stays where it is *)
  assert (Hkeep : forall p' q r cl,
            heap s !! q = Some r -> done r = true ->
            (forall v, t_pc g <> Returned q v) -> (calls s <= cl)%nat ->
            exists t0 g0 c, move s tid g p' !! t0 = Some g0 /\
              t_pc g0 = Returned q (res r) /\ res r = t_fn g0 c /\
              (c < cl)%nat).
  { intros p' q r cl Hr Hd Hnot Hcl.
    destruct (Hlr q r Hr Hd) as (t0 & g0 & c & H0 & Hp0 & Hres & Hc).
    exists t0, g0, c. split; [|split_and!; [done..|lia]].
    rewrite move_lookup_ne; [done|]. intros ->.
    rewrite Hg in H0. injection H0 as <-. by eapply Hnot. }
  destruct (t_pc g) as [| |q|q|q c|q|q|q v] eqn:Hpc.
  - intros [= <-] q r Hr Hd. simpl in *. by apply Hkeep.
  - destruct (inflight s !! t_key g) as [q|] eqn:Hin; intros [= <-] q' r' Hr' Hd';
      simpl in *.
    + apply alter_lookup_inv in Hr' as (r & Hr & [[-> ->]|[Hne ->]]); simpl in *;
        by apply Hkeep.
    + apply lookup_snoc_inv in Hr' as [Hr'|[-> ->]]; [|done]. by apply Hkeep.
  - destruct (heap s !! q) as [r|]; simpl; [|done].
    destruct (done r); intros [= <-] q' r' Hr' Hd'. simpl in *. by apply Hkeep.
  - intros [= <-] q' r' Hr' Hd'. simpl in *. apply Hkeep; [done..|lia].
  - intros [= <-] q' r' Hr' Hd'. simpl in *.
    apply alter_lookup_inv in Hr' as (r & Hr & [[-> ->]|[Hne ->]]); simpl in *.
    + destruct (inv_done s I q r tid g Hr Hd' Hg). by rewrite Hpc.
    + by apply Hkeep.
  - intros [= <-] q' r' Hr' Hd'. simpl in *. by apply Hkeep.
  - destruct (heap s !! q) as [r|] eqn:Hrq; simpl; intros [= <-] q' r' Hr' Hd'.
    simpl in *.
    apply alter_lookup_inv in Hr' as (r0 & Hr0 & [[-> ->]|[Hne ->]]); simpl in *.
    + assert (r0 = r) as -> by congruence.
      destruct (inv_stored s I tid g q Hg) as (r1 & c1 & Hr1 & Hres & Hc1);
        [by rewrite Hpc|].
      assert (r1 = r) as -> by congruence.
      exists tid, (set_pc g (Returned q (res r))), c1.
      by rewrite (move_lookup_eq _ _ _ _ Hg).
    + by apply Hkeep.
  - done.
Qed.

Lemma has_leader_step s tid s' :
  inv s -> has_leader s -> step tid s = Some s' -> has_leader s'.
Proof.
  intros I Hl. unfold step.
  destruct (threads s !! tid) as [g|] eqn:Hg; simpl; [|done].
  (* the leader of an open request keeps leading it *)
  assert (Hkeep : forall p' q r,
            heap s !! q = Some r -> done r = false ->
            (leads (t_pc g) = Some q -> leads p' = Some q) ->
            exists t0 g0, move s tid g p' !! t0 = Some g0 /\
              leads (t_pc g0) = Some q).
  { intros p' q r Hr Hd Hlead.
    destruct (Hl q r Hr Hd) as (t0 & g0 & H0 & Hq0).
    destruct (decide (t0 = tid)) as [->|Hne].
    - exists tid, (set_pc g p'). rewrite (move_lookup_eq _ _ _ _ Hg).
      split; [done|]. simpl. apply Hlead. congruence.
    - exists t0, g0. by rewrite move_lookup_ne. }
  destruct (t_pc g) as [| |q|q|q c|q|q|q v] eqn:Hpc.
  - intros [= <-] q r Hr Hd. simpl in *. by eapply Hkeep.
  - destruct (inflight s !! t_key g) as [q|] eqn:Hin; intros [= <-] q' r' Hr' Hd';
      simpl in *.
    + apply alter_lookup_inv in Hr' as (r & Hr & [[-> ->]|[Hne ->]]); simpl in *;
        by eapply Hkeep.
    + apply lookup_snoc_inv in Hr' as [Hr'|[-> ->]]; [by eapply Hkeep|].
      exists tid, (set_pc g (Calling (length (heap s)))).
      by rewrite (move_lookup_eq _ _ _ _ Hg).
  - destruct (heap s !! q) as [r|]; simpl; [|done].
    destruct (done r); intros [= <-] q' r' Hr' Hd'. simpl in *. by eapply Hkeep.
  - intros [= <-] q' r' Hr' Hd'. simpl in *. eapply Hkeep; eauto.
  - intros [= <-] q' r' Hr' Hd'. simpl in *.
    apply alter_lookup_inv in Hr' as (r & Hr & [[-> ->]|[Hne ->]]); simpl in *;
      eapply Hkeep; eauto.
  - intros [= <-] q' r' Hr' Hd'. simpl in *. eapply Hkeep; eauto.
  - destruct (heap s !! q) as [r|] eqn:Hrq; simpl; intros [= <-] q' r' Hr' Hd'.
    simpl in *.
    apply alter_lookup_inv in Hr' as (r0 & Hr0 & [[-> ->]|[Hne ->]]); simpl in *;
      [done|].
    eapply Hkeep; eauto. intros [= <-]. done.
  - done.
Qed.

Lemma uint64_succ n :
  add_uint64 (uint64 n) = uint64 (n + 1).
Proof. unfold add_uint64, uint64. by rewrite Zplus_mod_idemp_l. Qed.

Lemma count_move (f : goroutine -> bool) s tid g p' (b b' : bool) :
  threads s !! tid = Some g -> f g = b -> f (set_pc g p') = b' ->
  (countb f (move s tid g p') + (if b then 1 else 0) =
   countb f (threads s) + (if b' then 1 else 0))%nat.
Proof. intros Hg <- <-. by apply countb_insert. Qed.

Ltac counts Hg Hpc P b1 b1' b2 b2' :=
  let Hst := fresh "Hst" in
  let Hlk := fresh "Hlk" in
  pose proof (count_move started _ _ _ P b1 b1' Hg
                ltac:(unfold started; by rewrite Hpc) ltac:(done)) as Hst;
  pose proof (count_move looked_up _ _ _ P b2 b2' Hg
                ltac:(unfold looked_up, not_entered; by rewrite Hpc)
                ltac:(done)) as Hlk;
  cbn iota in Hst, Hlk.

Ltac stats_fin Ht Hc Hs :=
  rewrite ?length_alter, ?length_app, ?Hs, ?Hc, ?Ht, ?uint64_succ;
  cbn [length];
  split_and!; first [lia | f_equal; lia | done].

Lemma stats_ok_step s tid s' :
  stats_ok s -> step tid s = Some s' -> stats_ok s'.
Proof.
  intros (Ht & Hc & Hs & Hle). unfold step.
  destruct (threads s !! tid) as [g|] eqn:Hg; simpl; [|done].
  destruct (t_pc g) as [| |q|q|q c|q|q|q v] eqn:Hpc.
  - intros [= <-]. unfold stats_ok. cbn [stats heap threads TotalRequests
      CoalescedRequests SavedRequests].
    counts Hg Hpc Entered false true false false.
    stats_fin Ht Hc Hs.
  - destruct (inflight s !! t_key g) as [q|] eqn:Hin; intros [= <-];
      unfold stats_ok; cbn [stats heap threads TotalRequests
        CoalescedRequests SavedRequests].
    + counts Hg Hpc (Waiting q) true true false true.
      stats_fin Ht Hc Hs.
    + counts Hg Hpc (Calling (length (heap s))) true true false true.
      stats_fin Ht Hc Hs.
  - destruct (heap s !! q) as [r|]; simpl; [|done].
    destruct (done r); intros [= <-]. unfold stats_ok.
    cbn [stats heap threads TotalRequests CoalescedRequests SavedRequests].
    counts Hg Hpc (Returned q (res r)) true true true true.
    stats_fin Ht Hc Hs.
  - intros [= <-]. unfold stats_ok.
    cbn [stats heap threads TotalRequests CoalescedRequests SavedRequests].
    counts Hg Hpc (Running q (calls s)) true true true true.
    stats_fin Ht Hc Hs.
  - intros [= <-]. unfold stats_ok.
    cbn [stats heap threads TotalRequests CoalescedRequests SavedRequests].
    counts Hg Hpc (Deleting q) true true true true.
    stats_fin Ht Hc Hs.
  - intros [= <-]. unfold stats_ok.
    cbn [stats heap threads TotalRequests CoalescedRequests SavedRequests].
    counts Hg Hpc (Closing q) true true true true.
    stats_fin Ht Hc Hs.
  - destruct (heap s !! q) as [r|]; simpl; intros [= <-]. unfold stats_ok.
    cbn [stats heap threads TotalRequests CoalescedRequests SavedRequests].
    counts Hg Hpc (Returned q (res r)) true true true true.
    stats_fin Ht Hc Hs.
  - done.
Qed.

Lemma countb_init (f : goroutine -> bool) callers :
  (forall g, t_pc g = Start -> f g = false) ->
  countb f (threads (NewRequestCoalescer callers)) = 0%nat.
Proof.
  intros Hf. unfold NewRequestCoalescer. simpl.
  induction callers as [|c callers IH]; simpl; [done|].
  by rewrite IH, Hf.
Qed.

Lemma stats_ok_init callers : stats_ok (NewRequestCoalescer callers).
Proof.
  unfold stats_ok. rewrite !countb_init.
  - done.
  - intros g Hg. unfold looked_up, not_entered. by rewrite Hg.
  - intros g Hg. unfold started. by rewrite Hg.
Qed.

Lemma leader_returned_init callers : leader_returned (NewRequestCoalescer callers).
Proof. intros q r Hr. done. Qed.

Lemma has_leader_init callers : has_leader (NewRequestCoalescer callers).
Proof. intros q r Hr. done. Qed.

Lemma reachable_facts_step s tid :
  reachable_facts s -> reachable_facts (step_or_stay s tid).
Proof.
  intros (I & Hk & Hlr & Hl & Hst). unfold step_or_stay.
  destruct (step tid s) as [s'|] eqn:Hs; simpl; [|done].
  split_and!; eauto using inv_step, same_key_step, leader_returned_step,
    has_leader_step, stats_ok_step.
Qed.

Lemma reachable_facts_run sched s :
  reachable_facts s -> reachable_facts (run sched s).
Proof.
  revert s. induction sched as [|tid sched IH]; intros s Hs; simpl; [done|].
  by apply IH, reachable_facts_step.
Qed.

Lemma reachable_facts_init callers sched :
  reachable_facts (run sched (NewRequestCoalescer callers)).
Proof.
  apply reachable_facts_run.
  split_and!; auto using inv_init, same_key_init, leader_returned_init,
    has_leader_init, stats_ok_init.
Qed.


Lemma list_sum_insert {A : Type} (f : A -> nat) (l : list A) i x y :
  l !! i = Some x ->
  (list_sum (map f (<[i := y]> l)) + f x = list_sum (map f l) + f y)%nat.
Proof.
  revert i. induction l as [|a l IH]; intros [|i] Hi; simpl in *; try done.
  - injection Hi as ->. lia.
  - specialize (IH i Hi). lia.
Qed.

(** Every step brings the goroutine that takes it closer to its return. *)
Lemma remaining_step s tid s' :
  step tid s = Some s' -> (remaining s' < remaining s)%nat.
Proof.
  unfold step, remaining.
  destruct (threads s !! tid) as [g|] eqn:Hg; simpl; [|done].
  set (f := fun g0 : goroutine => rank (t_pc g0)).
  assert (Hmove : forall p', (rank p' < rank (t_pc g))%nat ->
            (list_sum (map f (move s tid g p')) < list_sum (map f (threads s)))%nat).
  { intros p' Hlt.
    pose proof (list_sum_insert f (threads s) tid g (set_pc g p') Hg) as Hsum.
    unfold move. unfold f at 2 4 in Hsum. simpl in Hsum. lia. }
  destruct (t_pc g) as [| |q|q|q c|q|q|q v] eqn:Hpc.
  - intros [= <-]. simpl. apply Hmove. simpl. lia.
  - destruct (inflight s !! t_key g) as [q|]; intros [= <-]; simpl;
      apply Hmove; simpl; lia.
  - destruct (heap s !! q) as [r|]; simpl; [|done].
    destruct (done r); intros [= <-]. simpl. apply Hmove. simpl. lia.
  - intros [= <-]. simpl. apply Hmove. simpl. lia.
  - intros [= <-]. simpl. apply Hmove. simpl. lia.
  - intros [= <-]. simpl. apply Hmove. simpl. lia.
  - destruct (heap s !! q) as [r|]; simpl; intros [= <-]. simpl.
    apply Hmove. simpl. lia.
  - done.
Qed.

Lemma remaining_init callers :
  remaining (NewRequestCoalescer callers) = (6 * length callers)%nat.
Proof.
  unfold remaining, NewRequestCoalescer. simpl.
  induction callers as [|c callers IH]; simpl in *; [done|]. rewrite IH. lia.
Qed.

Lemma remaining_run sched s : (remaining (run sched s) <= remaining s)%nat.
Proof.
  revert s. induction sched as [|tid sched IH]; intros s; simpl; [done|].
  etrans; [apply IH|]. unfold step_or_stay.
  destruct (step tid s) as [s'|] eqn:Hs; simpl; [|done].
  apply remaining_step in Hs. lia.
Qed.

Lemma forallb_false_lookup {A : Type} (f : A -> bool) (l : list A) :
  forallb f l = false -> exists i x, l !! i = Some x /\ f x = false.
Proof.
  induction l as [|a l IH]; simpl; [done|].
  destruct (f a) eqn:Hf; simpl.
  - intros (i & x & Hi & Hx)%IH. by exists (S i), x.
  - intros _. by exists 0%nat, a.
Qed.

(** A goroutine that leads a request can take its next step. *)
Lemma leader_steps s tid g q :
  inv s -> threads s !! tid = Some g -> leads (t_pc g) = Some q ->
  is_Some (step tid s).
Proof.
  intros I Hg Hq. pose proof (inv_bound s I tid g q Hg (leads_refers _ _ Hq)) as Hb.
  apply lookup_lt_is_Some_2 in Hb as [r Hr].
  unfold step. rewrite Hg. simpl.
  destruct (t_pc g); simplify_eq/=; try done. by rewrite Hr.
Qed.

(** Unless every call has returned, some goroutine can take a step. *)
Lemma progress s :
  inv s -> has_leader s -> all_returned s = false ->
  exists tid s', step tid s = Some s'.
Proof.
  intros I Hl (i & g & Hg & Hret)%forallb_false_lookup.
  unfold has_returned in Hret.
  assert (Hlead : forall q, leads (t_pc g) = Some q ->
            exists tid s', step tid s = Some s').
  { intros q Hq. destruct (leader_steps s i g q I Hg Hq) as [s' Hs']. eauto. }
  destruct (t_pc g) as [| |q|q|q c|q|q|q v] eqn:Hpc; try done;
    try (by eapply Hlead).
  - exists i. unfold step. rewrite Hg. simpl. rewrite Hpc. eauto.
  - exists i. unfold step. rewrite Hg. simpl. rewrite Hpc.
    destruct (inflight s !! t_key g); eauto.
  - pose proof (inv_bound s I i g q Hg) as Hb. rewrite Hpc in Hb.
    specialize (Hb eq_refl). apply lookup_lt_is_Some_2 in Hb as [r Hr].
    destruct (done r) eqn:Hd.
    + exists i. unfold step. rewrite Hg. simpl. rewrite Hpc, Hr. simpl.
      rewrite Hd. eauto.
    + destruct (Hl q r Hr Hd) as (t0 & g0 & H0 & Hq0).
      destruct (leader_steps s t0 g0 q I H0 Hq0) as [s' Hs']. eauto.
Qed.

Lemma completes n s :
  reachable_facts s -> (remaining s <= n)%nat ->
  exists rest, (length rest <= n)%nat /\ all_returned (run rest s) = true.
Proof.
  revert s. induction n as [|n IH]; intros s Hs Hn.
  - exists []. split; [done|]. simpl.
    destruct (all_returned s) eqn:Hall; [done|].
    destruct Hs as (I & _ & _ & Hl & _).
    destruct (progress s I Hl Hall) as (tid & s' & Hstep).
    apply remaining_step in Hstep. lia.
  - destruct (all_returned s) eqn:Hall; [exists []; split; [simpl; lia|done]|].
    pose proof Hs as (I & _ & _ & Hl & _).
    destruct (progress s I Hl Hall) as (tid & s' & Hstep).
    pose proof (reachable_facts_step s tid Hs) as Hs'.
    pose proof (remaining_step _ _ _ Hstep) as Hlt.
    unfold step_or_stay in Hs'. rewrite Hstep in Hs'. simpl in Hs'.
    destruct (IH s' Hs') as (rest & Hlen & Hall'); [lia|].
    exists (tid :: rest). split; [simpl; lia|].
    simpl. unfold step_or_stay. by rewrite Hstep.
Qed.


(** X: Do, no deadlock.  In every state the calls can reach, unless all of
    them have returned some goroutine can take its next step (a waiter whose
    request is still open has a leader that can), and some continuation of
    at most six steps a call brings every call to its return: no
    interleaving leaves a caller blocked for ever, as long as [fn]
    returns. *)
Theorem Do_never_deadlocks (callers : list (string * (nat -> result)))
    (sched : list nat) :
  let s := run sched (NewRequestCoalescer callers) in
  (all_returned s = false -> exists tid, is_Some (step tid s)) /\
  exists rest, (length rest <= 6 * length callers)%nat /\
    all_returned (run rest s) = true.
Proof.
  intros s. pose proof (reachable_facts_init callers sched) as Hs. fold s in Hs.
  split.
  - intros Hall. destruct Hs as (I & _ & _ & Hl & _).
    destruct (progress s I Hl Hall) as (tid & s' & Hstep). by exists tid, s'.
  - apply completes; [done|]. unfold s.
    etrans; [apply remaining_run|]. by rewrite remaining_init.
Qed.

(** X: Stats.  Once all the calls of [Do] have returned, [TotalRequests] is
    the number of calls and [CoalescedRequests] and [SavedRequests] are both
    the number of calls that did not run their [fn] (calls less invocations
    of [fn]), as 64-bit counters; [fn] was invoked at most once a call. *)
Theorem Stats_after_all_returned (callers : list (string * (nat -> result)))
    (sched : list nat) :
  let s := run sched (NewRequestCoalescer callers) in
  let n := Z.of_nat (length callers) in
  all_returned s = true ->
  Stats s =
    Build_CoalescingStats (uint64 n) (uint64 (n - Z.of_nat (calls s)))
      (uint64 (n - Z.of_nat (calls s))) /\
  (calls s <= length callers)%nat.
Proof.
  intros s n Hall.
  destruct (reachable_facts_init callers sched) as (I & _ & _ & _ & Hst).
  fold s in I, Hst. destruct Hst as (Ht & Hc & Hs & Hle).
  pose proof (inv_calls s I) as Hcalls.
  rewrite (countb_returned _ Hall) in Hcalls.
  assert (Hcount : forall f : goroutine -> bool,
            (forall g, has_returned g = true -> f g = true) ->
            countb f (threads s) = length callers).
  { intros f Hf.
    assert (Hlen : length (threads s) = length callers).
    { unfold s. rewrite length_threads_run. unfold NewRequestCoalescer. simpl.
      by rewrite length_map. }
    rewrite <- Hlen. unfold all_returned in Hall. clear -Hall Hf.
    induction (threads s) as [|g l IH]; simpl in *; [done|].
    apply andb_true_iff in Hall as [Hg Hl]. by rewrite (Hf g Hg), (IH Hl). }
  assert (Hstarted : countb started (threads s) = length callers).
  { apply Hcount. intros g. unfold has_returned, started. by destruct (t_pc g). }
  assert (Hlooked : countb looked_up (threads s) = length callers).
  { apply Hcount. intros g. unfold has_returned, looked_up, not_entered.
    by destruct (t_pc g). }
  rewrite Hstarted in Ht. rewrite Hlooked in Hc, Hle.
  assert (Hheap : length (heap s) = calls s) by lia.
  rewrite Hheap in Hc, Hle.
  split; [|done]. unfold Stats. by rewrite Hs, Hc, Ht.
Qed.

End CoalescerMore.


Lemma Stats_after_all_returned_witness :
  RequestCoalescer.Stats
    (RequestCoalescer.run Examples.overlapping
       (RequestCoalescer.NewRequestCoalescer Examples.callers3)) =
  RequestCoalescer.Build_CoalescingStats 3 2 2.
Proof.
  exact (proj1 (Stats_after_all_returned Examples.callers3 Examples.overlapping
                  eq_refl)).
Defined.
